(** * Nexus: the virtual file tree of [App.tsx] and the fallbacks of
    [services/geminiService.ts]

    The file tree of the application is a JavaScript object graph: every
    [FileNode] and every [FileNode[]] array is an object with an identity,
    [updateFileByPath] builds new objects that share old ones, and
    [findOrCreateFile] writes into the objects of a deep copy.  The embedding
    therefore keeps an explicit heap of objects addressed by references, and
    the functions of the source are programs of a state-and-error monad over
    that heap. *)

From Stdlib Require Import Ascii.
From stdpp Require Import base list strings option.

Set Warnings "-register-all".

(** ** Paths: [String.prototype.split] and [filter(p => p)] *)

(** The empty string, bound to a name. *)
Definition empty_string : string := EmptyString.

(** [s.split(sep)] for a one-character separator: never an empty array, and
    the empty string splits into one empty segment. *)
Fixpoint split (sep : ascii) (s : string) : list string :=
  match s with
  | EmptyString => [empty_string]
  | String c rest =>
      if Ascii.eqb c sep then empty_string :: split sep rest
      else match split sep rest with
           | [] => [String c EmptyString]
           | seg :: segs => String c seg :: segs
           end
  end.

Definition slash : ascii := "/"%char.

(** A string is truthy in JavaScript when it is not empty. *)
Definition truthy (s : string) : bool :=
  match s with EmptyString => false | String _ _ => true end.

(** [path.split('/')], as [updateFileByPath] takes its segments. *)
Definition pathParts (path : string) : list string := split slash path.

(** [path.split('/').filter(p => p)], as [findAndSelectFile] and
    [findOrCreateFile] take theirs. *)
Definition parts_of (path : string) : list string :=
  List.filter truthy (split slash path).

(** ** The object heap *)

Definition ref := nat.

Inductive NodeType := file | folder.

#[global] Instance NodeType_eq_dec : EqDecision NodeType.
Proof. solve_decision. Defined.

(** [interface FileNode { name; type; content?; children? }]: the optional
    fields are [None] when the property is absent, and [children] holds the
    reference of the array object. *)
Record FileNode := mkFileNode {
  name : string;
  type : NodeType;
  content : option string;
  children : option ref
}.

#[global] Instance FileNode_eq_dec : EqDecision FileNode.
Proof. solve_decision. Defined.

Inductive object :=
  | ONode (n : FileNode)
  | OArray (elems : list ref).

#[global] Instance object_eq_dec : EqDecision object.
Proof. solve_decision. Defined.

(** The heap is the list of all objects allocated so far; a reference is an
    index into it, and allocation appends. *)
Abbreviation heap := (list object).

Inductive error :=
  | TypeError      (* a property of [undefined] is read *)
  | BadRef         (* a reference that is not an object of the expected kind *)
  | OutOfFuel.     (* the traversal bound of the model is exhausted *)

Inductive result (A : Type) :=
  | Ok (a : A)
  | Err (e : error).
Arguments Ok {A} a.
Arguments Err {A} e.

Definition M (A : Type) : Type := heap -> result (A * heap).

Definition ret {A} (a : A) : M A := fun h => Ok (a, h).

Definition bind {A B} (m : M A) (k : A -> M B) : M B :=
  fun h => match m h with
           | Ok (a, h') => k a h'
           | Err e => Err e
           end.

Definition throw {A} (e : error) : M A := fun _ => Err e.

Notation "x <- m ;; k" := (bind m (fun x => k))
  (at level 20, m at level 99, k at level 200, only parsing).
Notation "' pat <- m ;; k" := (bind m (fun x => match x with pat => k end))
  (at level 20, pat pattern, m at level 99, k at level 200, only parsing).

Definition read_node (r : ref) : M FileNode :=
  fun h => match h !! r with
           | Some (ONode n) => Ok (n, h)
           | _ => Err BadRef
           end.

Definition read_array (r : ref) : M (list ref) :=
  fun h => match h !! r with
           | Some (OArray elems) => Ok (elems, h)
           | _ => Err BadRef
           end.

(** A new object: its reference is the next free index. *)
Definition alloc (o : object) : M ref :=
  fun h => Ok (length h, h ++ [o]).

(** An assignment into an existing object. *)
Definition write (r : ref) (o : object) : M unit :=
  fun h => if decide (r < length h) then Ok (tt, <[r := o]> h) else Err BadRef.

(** A method called on [currentLevel] when it is [undefined] throws. *)
Definition defined {A} (o : option A) : M A :=
  match o with
  | Some a => ret a
  | None => throw TypeError
  end.

(** [array.find(n => p(n))] and [array.findIndex(n => p(n))] over an array of
    node references. *)
Fixpoint find_node (p : FileNode -> bool) (elems : list ref) : M (option (ref * FileNode)) :=
  match elems with
  | [] => ret None
  | r :: rest =>
      n <- read_node r ;;
      if p n then ret (Some (r, n)) else find_node p rest
  end.

Fixpoint findIndex_from (i : nat) (p : FileNode -> bool) (elems : list ref) : M (option nat) :=
  match elems with
  | [] => ret None
  | r :: rest =>
      n <- read_node r ;;
      if p n then ret (Some i) else findIndex_from (S i) p rest
  end.

Definition findIndex := findIndex_from 0.

(** [array.push(r)]: the array object itself is changed. *)
Definition push (arr : ref) (r : ref) : M unit :=
  elems <- read_array arr ;;
  write arr (OArray (elems ++ [r])).

Definition is_file (n : FileNode) : bool := bool_decide (type n = file).
Definition is_folder (n : FileNode) : bool := bool_decide (type n = folder).
Definition named (s : string) (n : FileNode) : bool := bool_decide (name n = s).

(** ** [updateFileByPath] (App.tsx) *)

(** The object spreads [{ ...node, content }] and [{ ...node, children }]. *)
Definition set_content (c : string) (n : FileNode) : FileNode :=
  mkFileNode (name n) (type n) (Some c) (children n).

Definition set_children (ch : ref) (n : FileNode) : FileNode :=
  mkFileNode (name n) (type n) (content n) (Some ch).

(** [currentNodes.map(node => ...)]: the callback runs on every element in
    order; [foundFile] is the variable of the enclosing function that the
    callback assigns, threaded here through the calls. *)
Fixpoint map_nodes (f : ref -> option ref -> M (ref * option ref))
    (elems : list ref) (foundFile : option ref) : M (list ref * option ref) :=
  match elems with
  | [] => ret ([], foundFile)
  | r :: rest =>
      '(r', foundFile1) <- f r foundFile ;;
      '(rest', foundFile2) <- map_nodes f rest foundFile1 ;;
      ret (r' :: rest', foundFile2)
  end.

Section updateFileByPath.
Variable content_arg : string.

(** The callback of [map]; [recurse] is [recursiveUpdate] on [tail]. *)
Definition update_node (recurse : ref -> option ref -> M (ref * option ref))
    (head : string) (tail : list string) (r : ref) (foundFile : option ref)
    : M (ref * option ref) :=
  node <- read_node r ;;
  if named head node then
    if bool_decide (tail = []) && is_file node then
      updatedNode <- alloc (ONode (set_content content_arg node)) ;;
      ret (updatedNode, Some updatedNode)
    else
      match type node, children node with
      | folder, Some ch =>
          '(ch', foundFile1) <- recurse ch foundFile ;;
          r' <- alloc (ONode (set_children ch' node)) ;;
          ret (r', foundFile1)
      | _, _ => ret (r, foundFile)
      end
  else ret (r, foundFile).

Fixpoint recursiveUpdate (currentPath : list string) (currentNodes : ref)
    (foundFile : option ref) : M (ref * option ref) :=
  match currentPath with
  | [] => ret (currentNodes, foundFile)
  | head :: tail =>
      elems <- read_array currentNodes ;;
      '(elems', foundFile') <-
        map_nodes (update_node (recursiveUpdate tail) head tail) elems foundFile ;;
      updatedNodes <- alloc (OArray elems') ;;
      ret (updatedNodes, foundFile')
  end.

(** Returns the pair [[updatedNodes, foundFile]]. *)
Definition updateFileByPath (nodes : ref) (path : string) : M (ref * option ref) :=
  recursiveUpdate (pathParts path) nodes None.
End updateFileByPath.

(** ** [findPath] (inside [handleFileContentChange]) *)

(** The template of [newPath]: [currentPath ? `${currentPath}/${name}` : name]. *)
Definition extend (currentPath nm : string) : string :=
  if truthy currentPath then currentPath +:+ "/" +:+ nm else nm.

(** The [for (const node of nodes)] loop; [recurse] is the recursive call
    [findPath(node.children, target, newPath)], and the result is [None] for
    JavaScript's [null]. *)
Section findPath_loop.
Variable recurse : ref -> string -> M (option string).
Variables (target : ref) (currentPath : string).

Fixpoint findPath_loop (l : list ref) : M (option string) :=
  match l with
  | [] => ret None
  | r :: rest =>
      node <- read_node r ;;
      let newPath := extend currentPath (name node) in
      if bool_decide (r = target) then ret (Some newPath)
      else
        match type node, children node with
        | folder, Some ch =>
            found <- recurse ch newPath ;;
            match found with
            | Some p => if truthy p then ret (Some p) else findPath_loop rest
            | None => findPath_loop rest
            end
        | _, _ => findPath_loop rest
        end
  end.
End findPath_loop.

(** The recursion follows the object graph, so the model bounds its depth by
    [fuel]. *)
Fixpoint findPath (fuel : nat) (nodes : ref) (target : ref) (currentPath : string)
    : M (option string) :=
  match fuel with
  | 0 => throw OutOfFuel
  | S fuel' =>
      elems <- read_array nodes ;;
      findPath_loop (fun ch newPath => findPath fuel' ch target newPath)
                    target currentPath elems
  end.

(** ** [findAndSelectFile] *)

(** The [for (const part of parts)] loop; [last] is
    [parts[parts.length - 1]], and falling out of the loop returns the
    initial [foundNode], that is [null]. *)
Fixpoint select_loop (last : string) (parts : list string) (currentLevel : option ref)
    : M (option ref) :=
  match parts with
  | [] => ret None
  | part :: rest =>
      match currentLevel with
      | None => ret None
      | Some arr =>
          elems <- read_array arr ;;
          found <- find_node (named part) elems ;;
          match found with
          | None => ret None
          | Some (r, node) =>
              if is_file node && bool_decide (part = last) then ret (Some r)
              else select_loop last rest (children node)
          end
      end
  end.

Definition findAndSelectFile (nodes : ref) (path : string) : M (option ref) :=
  let parts := parts_of path in
  select_loop (List.last parts empty_string) parts (Some nodes).

(** ** [JSON.parse(JSON.stringify(nodes))] *)

(** The JSON text of a [FileNode[]], kept as the tree it denotes: absent
    properties are skipped by [JSON.stringify] and absent after
    [JSON.parse]. *)
Inductive Json :=
  | JNode (jname : string) (jtype : NodeType) (jcontent : option string)
          (jchildren : option (list Json)).

(** [mapM f elems]: a callback run on every element in order. *)
Fixpoint mapM {A B} (f : A -> M B) (l : list A) : M (list B) :=
  match l with
  | [] => ret []
  | a :: rest =>
      b <- f a ;;
      bs <- mapM f rest ;;
      ret (b :: bs)
  end.

(** [JSON.stringify] reads the whole object graph below an array; the model
    bounds the nesting by [fuel].  [recurse] is the call on a [children]
    array. *)
Definition stringify_node (recurse : ref -> M (list Json)) (r : ref) : M Json :=
  node <- read_node r ;;
  ch <- match children node with
        | None => ret None
        | Some a => js <- recurse a ;; ret (Some js)
        end ;;
  ret (JNode (name node) (type node) (content node) ch).

Fixpoint JSON_stringify (fuel : nat) (nodes : ref) : M (list Json) :=
  match fuel with
  | 0 => throw OutOfFuel
  | S fuel' =>
      elems <- read_array nodes ;;
      mapM (stringify_node (JSON_stringify fuel')) elems
  end.

(** [JSON.parse] allocates a fresh object for every node and every array. *)
Fixpoint JSON_parse_node (j : Json) : M ref :=
  match j with
  | JNode n t c ch =>
      ch' <- match ch with
             | None => ret None
             | Some js =>
                 elems <- mapM JSON_parse_node js ;;
                 a <- alloc (OArray elems) ;;
                 ret (Some a)
             end ;;
      alloc (ONode (mkFileNode n t c ch'))
  end.

Definition JSON_parse (js : list Json) : M ref :=
  elems <- mapM JSON_parse_node js ;;
  alloc (OArray elems).

(** ** [findOrCreateFile] *)

(** [parts.pop()]: the last element and the array without it, or nothing
    ([undefined]) on an empty array. *)
Definition pop {A} (l : list A) : option (list A * A) :=
  match rev l with
  | [] => None
  | x :: r => Some (rev r, x)
  end.

(** The tests of [find] and [findIndex] in [findOrCreateFile]. *)
Definition folder_named (d : string) (n : FileNode) : bool :=
  named d n && is_folder n.

Definition file_named (d : string) (n : FileNode) : bool :=
  named d n && is_file n.

(** The [for (const part of parts)] loop: [currentLevel] is [None] when
    [folder.children] was [undefined]. *)
Fixpoint folders_loop (parts : list string) (currentLevel : option ref) : M (option ref) :=
  match parts with
  | [] => ret currentLevel
  | part :: rest =>
      arr <- defined currentLevel ;;
      elems <- read_array arr ;;
      found <- find_node (folder_named part) elems ;;
      next <- match found with
              | Some (_, fnode) => ret (children fnode)
              | None =>
                  ch <- alloc (OArray []) ;;
                  r <- alloc (ONode (mkFileNode part folder None (Some ch))) ;;
                  _ <- push arr r ;;
                  ret (Some ch)
              end ;;
      folders_loop rest next
  end.

Definition put_file (currentLevel : option ref) (fileName content_arg : string) : M unit :=
  arr <- defined currentLevel ;;
  elems <- read_array arr ;;
  fileIndex <- findIndex (file_named fileName) elems ;;
  match fileIndex with
  | Some i =>
      r <- defined (elems !! i) ;;
      node <- read_node r ;;
      write r (ONode (set_content content_arg node))
  | None =>
      r <- alloc (ONode (mkFileNode fileName file (Some content_arg) None)) ;;
      push arr r
  end.

(** The statements of [findOrCreateFile] on the copy, from the loop on. *)
Definition place (parts : list string) (fileName content_arg : string)
    (currentLevel : option ref) : M unit :=
  currentLevel' <- folders_loop parts currentLevel ;;
  put_file currentLevel' fileName content_arg.

Definition findOrCreateFile (fuel : nat) (nodes : ref) (path content_arg : string) : M ref :=
  js <- JSON_stringify fuel nodes ;;
  newNodes <- JSON_parse js ;;
  match pop (parts_of path) with
  | None => ret newNodes
  | Some (parts, fileName) =>
      if negb (truthy fileName) then ret newNodes
      else
        _ <- place parts fileName content_arg (Some newNodes) ;;
        ret newNodes
  end.

(** ** [INITIAL_FILE_STRUCTURE] (constants.ts) *)

Definition nl : string := String "010"%char EmptyString.
Definition dq : string := String "034"%char EmptyString.
Definition quoted (s : string) : string := dq +:+ s +:+ dq.

Definition App_tsx_content : string :=
  "import React from " +:+ quoted "react" +:+ ";" +:+ nl +:+ nl +:+
  "const App = () => <div>Hello World</div>;" +:+ nl +:+ nl +:+
  "export default App;".

Definition index_tsx_content : string :=
  "import React from " +:+ quoted "react" +:+ ";" +:+ nl +:+
  "import ReactDOM from " +:+ quoted "react-dom" +:+ ";" +:+ nl +:+
  "import App from " +:+ quoted "./App" +:+ ";" +:+ nl +:+ nl +:+
  "ReactDOM.render(<App />, document.getElementById(" +:+ quoted "root" +:+ "));".

Definition package_json_content : string :=
  "{ " +:+ quoted "name" +:+ ": " +:+ quoted "project-nexus-ui" +:+ ", " +:+
  quoted "version" +:+ ": " +:+ quoted "1.0.0" +:+ " }".

Definition README_content : string :=
  "# Project Nexus UI" +:+ nl +:+ nl +:+ "This is the initial README for the project.".

Definition INITIAL_FILE_STRUCTURE : list Json :=
  [ JNode "src" folder None (Some
      [ JNode "components" folder None (Some []);
        JNode "App.tsx" file (Some App_tsx_content) None;
        JNode "index.tsx" file (Some index_tsx_content) None ]);
    JNode "package.json" file (Some package_json_content) None;
    JNode "README.md" file (Some README_content) None ].

(** The heap after the module is loaded, and the reference of the array. *)
Definition run {A} (m : M A) (h : heap) : option (A * heap) :=
  match m h with Ok x => Some x | Err _ => None end.

Definition initial : ref * heap :=
  default (0, []) (run (JSON_parse INITIAL_FILE_STRUCTURE) []).
Definition initial_files : ref := fst initial.
Definition initial_heap : heap := snd initial.

(** * Trees in the heap *)

(** A tree of the application, as a heap holds it: every node with the
    reference of its object ([addr]), the object ([node]) and the trees of
    the elements of its [children] array ([kids]). *)
Inductive tree :=
  | TNode (addr : ref) (node : FileNode) (kids : list tree).

Definition addr (t : tree) : ref := match t with TNode a _ _ => a end.
Definition node (t : tree) : FileNode := match t with TNode _ n _ => n end.
Definition kids (t : tree) : list tree := match t with TNode _ _ k => k end.

(** [repr h t]: the heap [h] holds the tree [t]. *)
Inductive repr (h : heap) : tree -> Prop :=
  | repr_intro a n ks :
      h !! a = Some (ONode n) ->
      match children n with
      | None => ks = []
      | Some arr => h !! arr = Some (OArray (map addr ks))
      end ->
      Forall (repr h) ks ->
      repr h (TNode a n ks).

(** [repr_list h arr ts]: [arr] is an array of [h] whose elements are the
    roots of the trees [ts]. *)
Definition repr_list (h : heap) (arr : ref) (ts : list tree) : Prop :=
  h !! arr = Some (OArray (map addr ts)) /\ Forall (repr h) ts.

(** The JSON value of a tree: what [JSON.stringify] reads. *)
Fixpoint erase (t : tree) : Json :=
  match t with
  | TNode _ n ks =>
      JNode (name n) (type n) (content n)
            (match children n with
             | None => None
             | Some _ => Some (map erase ks)
             end)
  end.

Fixpoint height (t : tree) : nat :=
  match t with
  | TNode _ _ ks => S (list_max (map height ks))
  end.

Definition heights (ts : list tree) : nat := list_max (map height ts).

(** Every object of [h] is an object of [h'], unchanged. *)
Definition preserved (h h' : heap) : Prop :=
  forall r o, h !! r = Some o -> h' !! r = Some o.

Section tree_induction.
Variable P : tree -> Prop.
Hypothesis step : forall a n ks, Forall P ks -> P (TNode a n ks).

Fixpoint tree_ind' (t : tree) : P t :=
  match t with
  | TNode a n ks =>
      step a n ks
        ((fix go (l : list tree) : Forall P l :=
            match l with
            | [] => Forall_nil P
            | x :: l' => Forall_cons P x l' (tree_ind' x) (go l')
            end) ks)
  end.
End tree_induction.

Section json_induction.
Variable P : Json -> Prop.
Hypothesis step : forall n t c, P (JNode n t c None).
Hypothesis step_children :
  forall n t c js, Forall P js -> P (JNode n t c (Some js)).

Fixpoint Json_ind' (j : Json) : P j :=
  match j with
  | JNode n t c None => step n t c
  | JNode n t c (Some js) =>
      step_children n t c js
        ((fix go (l : list Json) : Forall P l :=
            match l with
            | [] => Forall_nil P
            | x :: l' => Forall_cons P x l' (Json_ind' x) (go l')
            end) js)
  end.
End json_induction.

(** ** The data model of the specification on heap trees *)

Definition tname (t : tree) : string := name (node t).

(** All the nodes of a tree, itself first, and all the sibling lists. *)
Fixpoint subtrees (t : tree) : list tree :=
  match t with
  | TNode a n ks => TNode a n ks :: flat_map subtrees ks
  end.

Fixpoint levels_below (t : tree) : list (list tree) :=
  match t with
  | TNode _ _ ks => ks :: flat_map levels_below ks
  end.

Definition levels (ts : list tree) : list (list tree) :=
  ts :: flat_map levels_below ts.

(** A node is a file without children or a folder with a [children] array:
    the tagged union of the data model. *)
Definition tagged (t : tree) : Prop :=
  type (node t) = file <-> children (node t) = None.

Definition well_tagged (ts : list tree) : Prop :=
  Forall tagged (flat_map subtrees ts).

(** Sibling names are unique within every folder and at the top level. *)
Definition unique_names (ts : list tree) : Prop :=
  Forall (fun l => NoDup (map tname l)) (levels ts).

(** The trees of the [children] array of a node, when it has one. *)
Definition level_of (t : tree) : option (list tree) :=
  match children (node t) with
  | None => None
  | Some _ => Some (kids t)
  end.

(** [ts.find(t => p(t))] on trees. *)
Fixpoint find_tree (p : FileNode -> bool) (ts : list tree) : option tree :=
  match ts with
  | [] => None
  | t :: rest => if p (node t) then Some t else find_tree p rest
  end.

(** The walk of [findAndSelectFile] on trees. *)
Fixpoint select_tree (last : string) (parts : list string) (level : option (list tree))
    : option tree :=
  match parts with
  | [] => None
  | part :: rest =>
      match level with
      | None => None
      | Some ts =>
          match find_tree (named part) ts with
          | None => None
          | Some t =>
              if is_file (node t) && bool_decide (part = last) then Some t
              else select_tree last rest (level_of t)
          end
      end
  end.

(** The lookup of the specification: at every segment the first node of
    that name; an interior segment has to be a folder, whose children are
    searched next. *)
Inductive walk :=
  | Hit (t : tree)          (* the final segment matched [t] *)
  | Miss                    (* a segment matched nothing *)
  | FileInside (t : tree).  (* an interior segment matched the file [t] *)

Fixpoint lookup_spec (parts : list string) (ts : list tree) : walk :=
  match parts with
  | [] => Miss
  | part :: rest =>
      match find_tree (named part) ts with
      | None => Miss
      | Some t =>
          match rest with
          | [] => Hit t
          | _ :: _ =>
              match type (node t) with
              | folder => lookup_spec rest (kids t)
              | file => FileInside t
              end
          end
      end
  end.

(** The trees of [INITIAL_FILE_STRUCTURE] in [initial_heap]. *)
Definition App_tsx_tree : tree :=
  TNode 2 (mkFileNode "App.tsx" file (Some App_tsx_content) None) [].

Definition src_tree : tree :=
  TNode 5 (mkFileNode "src" folder None (Some 4))
    [ TNode 1 (mkFileNode "components" folder None (Some 0)) [];
      App_tsx_tree;
      TNode 3 (mkFileNode "index.tsx" file (Some index_tsx_content) None) [] ].

Definition initial_tree : list tree :=
  [ src_tree;
    TNode 6 (mkFileNode "package.json" file (Some package_json_content) None) [];
    TNode 7 (mkFileNode "README.md" file (Some README_content) None) [] ].

(** ** [findPath] on trees *)

Section first_some.
Context {A B : Type} (f : A -> option B).

(** The first result of a loop body that returns. *)
Fixpoint first_some (l : list A) : option B :=
  match l with
  | [] => None
  | a :: rest =>
      match f a with
      | Some b => Some b
      | None => first_some rest
      end
  end.
End first_some.

(** One iteration of the loop of [findPath]: [Some p] when it returns [p],
    [None] when the loop goes on. *)
Fixpoint visit (target : ref) (currentPath : string) (t : tree) : option string :=
  match t with
  | TNode a n ks =>
      let newPath := extend currentPath (name n) in
      if bool_decide (a = target) then Some newPath
      else
        match type n, children n with
        | folder, Some _ =>
            match first_some (visit target newPath) ks with
            | Some p => if truthy p then Some p else None
            | None => None
            end
        | _, _ => None
        end
  end.

(** [at_path names ts t]: the names lead from the siblings [ts] through
    folders to the node [t]. *)
Fixpoint at_path (names : list string) (ts : list tree) (t0 : tree) : Prop :=
  match names with
  | [] => False
  | n :: rest =>
      match rest with
      | [] => t0 ∈ ts /\ tname t0 = n
      | _ :: _ =>
          exists t, t ∈ ts /\ tname t = n /\ type (node t) = folder
                    /\ at_path rest (kids t) t0
      end
  end.

(** A name that can be a segment of a path: not empty, no slash. *)
Fixpoint slash_free (s : string) : bool :=
  match s with
  | EmptyString => true
  | String c rest => negb (Ascii.eqb c slash) && slash_free rest
  end.

Definition valid_name (s : string) : Prop :=
  truthy s = true /\ slash_free s = true.

Definition valid_names (ts : list tree) : Prop :=
  Forall (fun t => valid_name (tname t)) (flat_map subtrees ts).

(** The names of a path joined by slashes. *)
Fixpoint join (names : list string) : string :=
  match names with
  | [] => empty_string
  | n :: rest =>
      match rest with
      | [] => n
      | _ :: _ => n +:+ "/" +:+ join rest
      end
  end.

(** ** [updateFileByPath] on trees *)

(** [updated c path ts found ts' found']: mapping the callback of
    [recursiveUpdate] over the siblings [ts] with the variable [foundFile]
    holding [found] gives the siblings [ts'] and leaves [found'] in the
    variable.  A file named like the only segment left is replaced by a new
    node with the content [c]; a folder named like the first segment is
    replaced by a new node over its updated children; every other node is
    kept. *)
Inductive updated (c : string)
    : list string -> list tree -> option ref -> list tree -> option ref -> Prop :=
  | updated_empty ts f :
      updated c [] ts f ts f
  | updated_nil hd tl f :
      updated c (hd :: tl) [] f [] f
  | updated_file hd t ts a' f ts' f' :
      name (node t) = hd -> type (node t) = file ->
      updated c [hd] ts (Some a') ts' f' ->
      updated c [hd] (t :: ts) f
        (TNode a' (set_content c (node t)) (kids t) :: ts') f'
  | updated_folder hd tl t ts ch a' ch' ks' f f1 ts' f2 :
      name (node t) = hd -> type (node t) = folder -> children (node t) = Some ch ->
      updated c tl (kids t) f ks' f1 ->
      (tl = [] -> ch' = ch) ->
      updated c (hd :: tl) ts f1 ts' f2 ->
      updated c (hd :: tl) (t :: ts) f
        (TNode a' (set_children ch' (node t)) ks' :: ts') f2
  | updated_skip hd tl t ts f ts' f' :
      name (node t) <> hd
      \/ (type (node t) = file /\ tl <> [])
      \/ (type (node t) = folder /\ children (node t) = None) ->
      updated c (hd :: tl) ts f ts' f' ->
      updated c (hd :: tl) (t :: ts) f (t :: ts') f'.

(** [present path ts]: some chain of nodes named like the segments of
    [path], folders up to the last one, ends at a file. *)
Definition present (path : list string) (ts : list tree) : Prop :=
  exists t0, at_path path ts t0 /\ type (node t0) = file.

(** [shared_off_path path ts ts']: level by level along [path], a sibling
    that is not named like the segment is in [ts'] the very tree it is in
    [ts], with the objects it has there. *)
Fixpoint shared_off_path (path : list string) (ts ts' : list tree) : Prop :=
  match path with
  | [] => ts' = ts
  | hd :: tl =>
      Forall2 (fun t t' =>
                 if decide (tname t = hd)
                 then tname t' = hd /\ shared_off_path tl (kids t) (kids t')
                 else t' = t) ts ts'
  end.

(** ** [findOrCreateFile] on JSON values, after the specification *)

Definition jname_of (j : Json) : string := match j with JNode n _ _ _ => n end.
Definition jtype_of (j : Json) : NodeType := match j with JNode _ t _ _ => t end.
Definition jcontent_of (j : Json) : option string := match j with JNode _ _ c _ => c end.
Definition jchildren_of (j : Json) : option (list Json) :=
  match j with JNode _ _ _ ch => ch end.

(** At the leaf: a file of the final name has its content replaced (the
    first one), otherwise a new file is appended. *)
Fixpoint put_file_spec (fileName c : string) (js : list Json) : list Json :=
  match js with
  | [] => [JNode fileName file (Some c) None]
  | j :: rest =>
      if bool_decide (jname_of j = fileName) && bool_decide (jtype_of j = file)
      then JNode (jname_of j) (jtype_of j) (Some c) (jchildren_of j) :: rest
      else j :: put_file_spec fileName c rest
  end.

Section enter.
Variables (d : string) (inside : list Json -> list Json).

(** For a folder segment [d]: descend into the folder of that name (the
    first one) if there is one, otherwise append a new empty folder and
    descend into it; [inside] is what happens below. *)
Fixpoint enter (js : list Json) : list Json :=
  match js with
  | [] => [JNode d folder None (Some (inside []))]
  | j :: rest =>
      if bool_decide (jname_of j = d) && bool_decide (jtype_of j = folder)
      then JNode (jname_of j) (jtype_of j) (jcontent_of j)
                 (Some (inside (default [] (jchildren_of j)))) :: rest
      else j :: enter rest
  end.
End enter.

Fixpoint findOrCreate_spec (folders : list string) (fileName c : string)
    (js : list Json) : list Json :=
  match folders with
  | [] => put_file_spec fileName c js
  | d :: rest => enter d (findOrCreate_spec rest fileName c) js
  end.

(** The value [findOrCreateFile] is to return for the value [js]. *)
Definition findOrCreate_value (parts : list string) (c : string) (js : list Json)
    : list Json :=
  match pop parts with
  | None => js
  | Some (folders, fileName) => findOrCreate_spec folders fileName c js
  end.

(** ** Footprints *)

(** The references of the objects of a tree. *)
Fixpoint fp (t : tree) : list ref :=
  match t with
  | TNode a n ks =>
      a :: match children n with
           | None => []
           | Some arr => arr :: flat_map fp ks
           end
  end.

Definition fp_list (arr : ref) (ts : list tree) : list ref :=
  arr :: flat_map fp ts.

(** ** Values and what is kept of them *)

(** [value_of h nodes js]: the tree below the array [nodes] of [h] has the
    value [js], which [JSON.stringify] reads with any sufficient bound. *)
Definition value_of (h : heap) (nodes : ref) (js : list Json) : Prop :=
  exists N, forall fuel, N <= fuel -> JSON_stringify fuel nodes h = Ok (js, h).

(** [kept j j']: the node [j] is still there in [j']: same name and type,
    a folder's own content untouched, and every child of [j] kept at its
    position among the children of [j'], new children only after them. *)
Inductive kept : Json -> Json -> Prop :=
  | kept_leaf n t c c' :
      (t = folder -> c' = c) ->
      kept (JNode n t c None) (JNode n t c' None)
  | kept_inner n t c c' js js1 extra :
      (t = folder -> c' = c) ->
      Forall2 kept js js1 ->
      kept (JNode n t c (Some js)) (JNode n t c' (Some (js1 ++ extra))).

Definition kept_list (js js' : list Json) : Prop :=
  exists js1 extra, js' = js1 ++ extra /\ Forall2 kept js js1.

(** The folders [folders] created one inside the other around the new
    file. *)
Fixpoint fresh_chain (folders : list string) (fileName c : string) : Json :=
  match folders with
  | [] => JNode fileName file (Some c) None
  | d :: rest => JNode d folder None (Some [fresh_chain rest fileName c])
  end.

(** The children of the first folder named [d]. *)
Fixpoint folder_children (d : string) (js : list Json) : option (list Json) :=
  match js with
  | [] => None
  | j :: rest =>
      if bool_decide (jname_of j = d) && bool_decide (jtype_of j = folder)
      then jchildren_of j
      else folder_children d rest
  end.

(** The siblings reached from [js] through the folders [pre]. *)
Fixpoint level_at (pre : list string) (js : list Json) : option (list Json) :=
  match pre with
  | [] => Some js
  | d :: rest =>
      match folder_children d js with
      | None => None
      | Some ch => level_at rest ch
      end
  end.

(** The tagged union on values. *)
Inductive jtagged : Json -> Prop :=
  | jtagged_file n c : jtagged (JNode n file c None)
  | jtagged_folder n c js : Forall jtagged js -> jtagged (JNode n folder c (Some js)).

(** No folder named [d] among the siblings [js]. *)
Definition no_folder (d : string) (js : list Json) : Prop :=
  Forall (fun j => ~ (jname_of j = d /\ jtype_of j = folder)) js.

(** [creates_missing parts c js js']: wherever the folders [pre] of the path
    lead in [js] to siblings [L] without a folder named like the next
    segment [d], they lead in [js'] to [L] followed by the new folders and
    the new file. *)
Definition creates_missing (parts : list string) (c : string) (js js' : list Json)
    : Prop :=
  forall pre d rest f L,
    parts = pre ++ d :: rest ++ [f] ->
    level_at pre js = Some L ->
    no_folder d L ->
    level_at pre js' = Some (L ++ [fresh_chain (d :: rest) f c]).

(** The value of the seed tree after the scenario of the specification. *)
Definition seed_with_login : list Json :=
  [ JNode "src" folder None (Some
      [ JNode "components" folder None (Some
          [ JNode "Login.tsx" file (Some "// code") None ]);
        JNode "App.tsx" file (Some App_tsx_content) None;
        JNode "index.tsx" file (Some index_tsx_content) None ]);
    JNode "package.json" file (Some package_json_content) None;
    JNode "README.md" file (Some README_content) None ].

(** ** Statements proved by induction *)

(** What [visit] returns leads to the target. *)
Definition visit_sound_at (target : ref) (t : tree) : Prop :=
  forall cp p, visit target cp t = Some p ->
    exists names t0, p = foldl extend cp names /\ at_path names [t] t0
                     /\ addr t0 = target.

(** [visit] finds a target that is in the tree. *)
Definition visit_complete_at (h : heap) (target : ref) (t : tree) : Prop :=
  repr h t -> tagged t -> well_tagged (kids t) ->
  valid_name (tname t) -> valid_names (kids t) ->
  (exists t', t' ∈ subtrees t /\ addr t' = target) ->
  forall cp, exists p, visit target cp t = Some p.

(** [recursiveUpdate] on a tree of the heap. *)
Definition update_spec (c : string) (path : list string) : Prop :=
  forall h arr ts f,
    repr_list h arr ts ->
    exists arr' f' h' ts',
      recursiveUpdate c path arr f h = Ok ((arr', f'), h')
      /\ preserved h h'
      /\ repr_list h' arr' ts'
      /\ updated c path ts f ts' f'
      /\ (path <> [] -> length h <= arr')
      /\ (path = [] -> arr' = arr).

(** [JSON_parse_node] allocates the objects of one tree. *)
Definition parse_node_spec (j : Json) : Prop :=
  forall h : heap, exists t k,
    JSON_parse_node j h = Ok (addr t, h ++ k)
    /\ repr (h ++ k) t /\ erase t = j
    /\ fp t ≡ₚ seq (length h) (length k).

(** The loop and the leaf of [findOrCreateFile] on a separate tree. *)
Definition place_spec (parts : list string) (fileName c : string) : Prop :=
  forall (h : heap) cur ts,
    repr_list h cur ts ->
    NoDup (fp_list cur ts) ->
    well_tagged ts ->
    exists h' ts',
      place parts fileName c (Some cur) h = Ok (tt, h')
      /\ repr_list h' cur ts'
      /\ map erase ts' = findOrCreate_spec parts fileName c (map erase ts)
      /\ well_tagged ts'
      /\ length h <= length h'
      /\ (forall r : ref, r < length h -> r ∉ fp_list cur ts -> h' !! r = h !! r).

(** A tree of the heap with the value of a tagged tree is tagged. *)
Definition tagged_like (h : heap) (t1 : tree) : Prop :=
  repr h t1 ->
  forall t, erase t1 = erase t -> tagged t -> well_tagged (kids t) ->
    tagged t1 /\ well_tagged (kids t1).

(** * [services/geminiService.ts]: the generation calls and their fallbacks *)

Module geminiService.

(** A JSON value; what the number is does not matter here, only whether
    it is truthy. *)
Inductive JsonValue :=
  | JNull
  | JBool (b : bool)
  | JNumber (nonzero : bool) (literal : string)
  | JString (s : string)
  | JArray (items : list JsonValue)
  | JObject (fields : list (string * JsonValue)).

Inductive exception :=
  | ApiError       (* the request to the model failed *)
  | SyntaxError    (* [JSON.parse] on a text that is not JSON *)
  | TypeError.     (* a property of [null] or [undefined] is read *)

(** How the body of an [async] function ends: the promise resolves with a
    value or rejects with an exception. *)
Inductive completion (A : Type) :=
  | Returned (a : A)
  | Thrown (e : exception).
Arguments Returned {A} a.
Arguments Thrown {A} e.

Definition andThen {A B} (m : completion A) (k : A -> completion B) : completion B :=
  match m with
  | Returned a => k a
  | Thrown e => Thrown e
  end.

(** [try { body } catch (error) { handler }]. *)
Definition try_catch {A} (body : completion A) (handler : exception -> completion A)
    : completion A :=
  match body with
  | Returned a => Returned a
  | Thrown e => handler e
  end.

(** What [await ai.models.generateContent(...)] gives: the promise rejects,
    or there is a response, whose [text] can be [undefined]. *)
Inductive outcome :=
  | Rejects
  | Resolves (text : option string).

Definition await (o : outcome) : completion (option string) :=
  match o with
  | Rejects => Thrown ApiError
  | Resolves text => Returned text
  end.

(** [v || fallback] looks at the truthiness of [v]. *)
Definition truthy_value (v : JsonValue) : bool :=
  match v with
  | JNull => false
  | JBool b => b
  | JNumber nonzero _ => nonzero
  | JString s => truthy s
  | JArray _ | JObject _ => true
  end.

Fixpoint field (key : string) (fields : list (string * JsonValue)) : option JsonValue :=
  match fields with
  | [] => None
  | (k, v) :: rest => if bool_decide (k = key) then Some v else field key rest
  end.

(** [v.key]: [undefined] ([None]) on a value without the property, a
    [TypeError] on [null]. *)
Definition property (v : JsonValue) (key : string) : completion (option JsonValue) :=
  match v with
  | JNull => Thrown TypeError
  | JObject fields => Returned (field key fields)
  | _ => Returned None
  end.

(** [s.replace(pattern, replacement)] for a string pattern and a
    replacement without dollar signs: the first occurrence is replaced. *)
Fixpoint drop_string (n : nat) (s : string) : string :=
  match n, s with
  | S n', String _ rest => drop_string n' rest
  | _, _ => s
  end.

Fixpoint replace (pattern replacement s : string) : string :=
  if String.prefix pattern s then replacement +:+ drop_string (String.length pattern) s
  else match s with
       | EmptyString => EmptyString
       | String ch rest => String ch (replace pattern replacement rest)
       end.

(** The prompts, with the arguments spliced in. *)
Definition plan_prompt (task : string) : string :=
  "Based on the high-level task " +:+ quoted task +:+
  ", break it down into a series of smaller, sequential sub-tasks for a " +:+
  "software development team. Respond with a valid JSON object with a " +:+
  "single key " +:+
  quoted "subtasks" +:+ " which is an array of strings. Example: {" +:+
  quoted "subtasks" +:+ ": [" +:+ quoted "Create component file" +:+ ", " +:+
  quoted "Add state logic" +:+ ", " +:+ quoted "Implement UI rendering" +:+ "]}".

Definition code_prompt (subtask existingFiles : string) : string :=
  "Given the sub-task: " +:+ quoted subtask +:+
  ", and the existing file structure: " +:+ existingFiles +:+
  ", generate the necessary TypeScript/React code. " +:+
  "Respond with a valid JSON object with " +:+
  quoted "fileName" +:+ " (e.g., 'src/components/Login.tsx') and " +:+ quoted "code" +:+
  " properties. The code should be a string containing the full file content.".

Definition tests_prompt (fileName code : string) : string :=
  "Generate unit tests for the following TypeScript/React component located in " +:+
  quoted fileName +:+ ":" +:+ nl +:+ nl +:+ "```tsx" +:+ nl +:+ code +:+ nl +:+
  "```" +:+ nl +:+ nl +:+
  "Use Jest and React Testing Library. Your response must be a JSON object with " +:+
  quoted "testFileName" +:+ " and " +:+ quoted "testCode" +:+ " properties.".

Definition documentation_prompt (task readmeContent fileChanges : string) : string :=
  "The main task was: " +:+ quoted task +:+
  ". The following file changes were made: " +:+ fileChanges +:+
  ". Please update the following README.md to reflect these changes. " +:+
  "Keep the existing structure and markdown formatting." +:+
  nl +:+ nl +:+ "Existing README:" +:+ nl +:+ readmeContent.

Section calls.
(** The external collaborator: the model name and the prompt go in, an
    outcome comes back. *)
Variable generateContent : string -> string -> outcome.

(** [JSON.parse]: [None] when it throws a [SyntaxError]. *)
Variable JSON_parse : string -> option JsonValue.

(** [JSON.parse(response.text)]; an [undefined] text is not JSON. *)
Definition parse_text (text : option string) : completion JsonValue :=
  match text with
  | None => Thrown SyntaxError
  | Some s =>
      match JSON_parse s with
      | Some v => Returned v
      | None => Thrown SyntaxError
      end
  end.

Definition default_plan : JsonValue :=
  JArray [ JString "Analyze requirements"; JString "Implement feature";
           JString "Write tests"; JString "Update documentation" ].

Definition no_plan : JsonValue :=
  JArray [ JString "Error: Could not generate plan." ].

Definition generatePlan (task : string) : completion JsonValue :=
  try_catch
    (andThen (await (generateContent "gemini-2.5-pro" (plan_prompt task)))
       (fun text =>
          andThen (parse_text text) (fun jsonResponse =>
            andThen (property jsonResponse "subtasks") (fun subtasks =>
              match subtasks with
              | Some v => if truthy_value v then Returned v else Returned no_plan
              | None => Returned no_plan
              end))))
    (fun error => Returned default_plan).

Definition error_file (subtask : string) : JsonValue :=
  JObject [ ("fileName", JString "src/components/Error.tsx");
            ("code", JString ("// Failed to generate code for: " +:+ subtask)) ].

Definition generateCode (subtask existingFiles : string) : completion JsonValue :=
  try_catch
    (andThen (await (generateContent "gemini-2.5-pro"
                       (code_prompt subtask existingFiles)))
       parse_text)
    (fun error => Returned (error_file subtask)).

Definition error_tests (fileName : string) : JsonValue :=
  JObject [ ("testFileName", JString (replace ".tsx" ".test.tsx" fileName));
            ("testCode", JString ("// Failed to generate tests for: " +:+ fileName)) ].

Definition generateTests (fileName code : string) : completion JsonValue :=
  try_catch
    (andThen (await (generateContent "gemini-2.5-flash" (tests_prompt fileName code)))
       parse_text)
    (fun error => Returned (error_tests fileName)).

Definition error_readme (task readmeContent : string) : string :=
  readmeContent +:+ nl +:+ nl +:+ "---" +:+ nl +:+ nl +:+ "## Update Failed" +:+ nl +:+
  "Could not automatically update documentation for task: " +:+ task +:+ ".".

(** Returns [response.text] as it is, [undefined] included. *)
Definition generateDocumentation (task readmeContent fileChanges : string)
    : completion (option string) :=
  try_catch
    (await (generateContent "gemini-2.5-flash"
              (documentation_prompt task readmeContent fileChanges)))
    (fun error => Returned (Some (error_readme task readmeContent))).

End calls.

(** ** The calls that read more of the response than its text *)

(** The response of [generateContent], as far as the calls read it; an
    optional property is [None] when it is absent. *)
Record Web := mkWeb { uri : string; title : string }.
Record GroundingChunk := mkGroundingChunk { web : option Web }.
Record GroundingMetadata := mkGroundingMetadata {
  groundingChunks : option (list GroundingChunk)
}.
Record Blob := mkBlob { data : option string }.
Record Part := mkPart { inlineData : option Blob }.
Record Content := mkContent { parts : option (list Part) }.
Record Candidate := mkCandidate {
  content : option Content;
  groundingMetadata : option GroundingMetadata
}.
Record Response := mkResponse {
  text : option string;
  candidates : option (list Candidate)
}.

(** The [config] of a request. *)
Inductive Config :=
  | NoConfig                  (* no [config], or [tools: undefined] *)
  | GoogleSearch              (* [tools: [{googleSearch: {}}]] *)
  | AudioKore                 (* audio modality, prebuilt voice Kore *)
  | LoginSchema.              (* JSON with [success] and [message] *)

Record Request := mkRequest {
  model : string;
  contents : string;
  config : Config
}.

Inductive reply :=
  | Rejected
  | Replied (response : Response).

Definition await_reply (r : reply) : completion Response :=
  match r with
  | Rejected => Thrown ApiError
  | Replied response => Returned response
  end.

(** [xs?.[0]]. *)
Definition first {A} (xs : option (list A)) : option A :=
  match xs with
  | Some (x :: _) => Some x
  | _ => None
  end.

(** [x?.p] for an optional [x]. *)
Definition opt {A B} (x : option A) (p : A -> option B) : option B :=
  match x with
  | Some a => p a
  | None => None
  end.

(** What [generateChatResponse] returns. *)
Record ChatResponse := mkChatResponse {
  chat_text : option string;
  searchResults : option (list GroundingChunk)
}.

Definition login_prompt (email password : string) : string :=
  "Simulate a user login attempt. Email: " +:+ quoted email +:+
  ", Password: " +:+ quoted password +:+ "." +:+ nl +:+
  "            - If the email is a valid format and the password is at least " +:+
  "8 characters, respond with success." +:+ nl +:+
  "            - Otherwise, respond with an appropriate error message." +:+ nl +:+
  "            Your response must be a valid JSON object with two keys: " +:+
  quoted "success" +:+ " (a boolean) and " +:+ quoted "message" +:+ " (a string).".

Definition login_unreachable : JsonValue :=
  JObject [ ("success", JBool false);
            ("message",
             JString "Could not reach authentication server. Please try again.") ].

Definition chat_error : ChatResponse :=
  mkChatResponse (Some "Sorry, I encountered an error. Please try again.") None.

Section more_calls.
(** The external collaborator again, with the whole request and the whole
    response. *)
Variable send : Request -> reply.
Variable JSON_parse : string -> option JsonValue.

Definition generateChatResponse (prompt : string) (useSearch : bool)
    : completion ChatResponse :=
  try_catch
    (andThen
       (await_reply (send (mkRequest "gemini-2.5-flash" prompt
                             (if useSearch then GoogleSearch else NoConfig))))
       (fun response =>
          let searchResults :=
            opt (opt (first (candidates response)) groundingMetadata) groundingChunks in
          Returned (mkChatResponse (text response) searchResults)))
    (fun error => Returned chat_error).

(** [base64Audio || null]: an empty string is no audio. *)
Definition generateSpeech (text_arg : string) : completion (option string) :=
  try_catch
    (andThen
       (await_reply (send (mkRequest "gemini-2.5-flash-preview-tts" text_arg AudioKore)))
       (fun response =>
          let base64Audio :=
            opt (opt (first (opt (opt (first (candidates response)) content) parts))
                     inlineData) data in
          match base64Audio with
          | Some d => if truthy d then Returned (Some d) else Returned None
          | None => Returned None
          end))
    (fun error => Returned None).

Definition simulateLogin (email password : string) : completion JsonValue :=
  try_catch
    (andThen
       (await_reply (send (mkRequest "gemini-2.5-flash" (login_prompt email password)
                             LoginSchema)))
       (fun response => parse_text JSON_parse (text response)))
    (fun error => Returned login_unreachable).
End more_calls.

(** ** [extractJson] *)

(** [find_sub pat s]: the text before and the text after the first
    occurrence of [pat] in [s]. *)
Fixpoint find_sub (pat s : string) : option (string * string) :=
  if String.prefix pat s then Some (EmptyString, drop_string (String.length pat) s)
  else match s with
       | EmptyString => None
       | String ch rest =>
           match find_sub pat rest with
           | Some (before, after) => Some (String ch before, after)
           | None => None
           end
       end.

Definition fence_open : string := "```json" +:+ nl.
Definition fence_close : string := nl +:+ "```".

(** [text.match(/```json\n([\s\S]*?)\n```/)]: the match is the leftmost
    one, which starts at the first opening fence, and its group is the
    shortest one, which ends before the first closing fence after it;
    [None] is [null]. *)
Definition match_fence (text_arg : string) : option string :=
  match find_sub fence_open text_arg with
  | Some (_, rest) =>
      match find_sub fence_close rest with
      | Some (body, _) => Some body
      | None => None
      end
  | None => None
  end.

(** How [extractJson] ends: with the parsed value, with the [SyntaxError]
    of [JSON.parse], or with its own [Error]. *)
Inductive extracted :=
  | Parsed (v : JsonValue)
  | ParseError              (* the [SyntaxError] thrown by [JSON.parse] *)
  | InvalidResponse.        (* [Error("Invalid JSON response from model")] *)

Definition extractJson (JSON_parse : string -> option JsonValue) (text_arg : string)
    : extracted :=
  match match_fence text_arg with
  | Some body =>
      if truthy body then
        match JSON_parse body with
        | Some v => Parsed v
        | None => ParseError
        end
      else
        match JSON_parse text_arg with
        | Some v => Parsed v
        | None => InvalidResponse
        end
  | None =>
      match JSON_parse text_arg with
      | Some v => Parsed v
      | None => InvalidResponse
      end
  end.
End geminiService.

(** * Particular trees *)

(** A file and a folder of the same name side by side: the value
    [findOrCreateFile] gives for the path [a/b] on the single file [a]. *)
Definition twins : list Json :=
  [ JNode "a" file (Some "x") None;
    JNode "a" folder None (Some [ JNode "b" file (Some "y") None ]) ].

Definition twin : ref * heap := default (0, []) (run (JSON_parse twins) []).
Definition twin_files : ref := fst twin.
Definition twin_heap : heap := snd twin.

Definition README_json : Json := JNode "README.md" file (Some README_content) None.

(** The siblings of the root other than [on_path] are in the new root the
    objects they are in the old one. *)
Definition root_siblings_shared (h : heap) (nodes : ref) (h' : heap) (newRoot : ref)
    (on_path : ref) : Prop :=
  exists olds news,
    h !! nodes = Some (OArray olds) /\ h' !! newRoot = Some (OArray news)
    /\ forall (i : nat) (o : ref), olds !! i = Some o -> o <> on_path -> news !! i = Some o.

(** * More of [App.tsx]: the state of the application and its handlers *)

(** ** The types of [types.ts] *)

Module AgentRole.
Inductive t := Planner | Coder | Tester | Documenter.

#[global] Instance eq_dec : EqDecision t.
Proof. solve_decision. Defined.
End AgentRole.

Module AgentStatus.
Inductive t :=
  | Idle | Thinking | Coding | Testing | Documenting | Revising | Done | Error.

#[global] Instance eq_dec : EqDecision t.
Proof. solve_decision. Defined.
End AgentStatus.

Module Agent.
Record t := mk {
  id : string;
  role : AgentRole.t;
  status : AgentStatus.t;
  description : string
}.

#[global] Instance eq_dec : EqDecision t.
Proof. solve_decision. Defined.
End Agent.

Module ProjectStatus.
Inductive t := Active | Inactive | Completed.
End ProjectStatus.

Module Project.
Record t := mk {
  id : string;
  name : string;
  repoUrl : string;
  status : ProjectStatus.t;
  agents : list Agent.t;
  lastActivity : string
}.
End Project.

Module LogEntryType.
Inductive t :=
  | Info | AgentMessage | UserAction | FileChange | Commit | Error | Success.

#[global] Instance eq_dec : EqDecision t.
Proof. solve_decision. Defined.
End LogEntryType.

Module LogEntry.
Record t := mk {
  id : nat;
  type : LogEntryType.t;
  agentRole : option AgentRole.t;
  message : string;
  timestamp : string
}.
End LogEntry.

Inductive WorkspaceTab := explorer | editor | preview.

(** ** The state of [App]

    The values of the [useState] hooks and of the counter
    [logIdCounter.current]; [files] and [selectedFile] hold references into
    the heap. *)
Record AppState := mkAppState {
  project : Project.t;
  task : string;
  logs : list LogEntry.t;
  files : ref;
  selectedFile : option ref;
  isRunning : bool;
  isChatOpen : bool;
  isMuted : bool;
  activeTab : WorkspaceTab;
  logIdCounter : nat
}.

Definition setProject (p : Project.t) (st : AppState) : AppState :=
  mkAppState p (task st) (logs st) (files st) (selectedFile st) (isRunning st)
             (isChatOpen st) (isMuted st) (activeTab st) (logIdCounter st).

Definition setLogs (l : list LogEntry.t) (st : AppState) : AppState :=
  mkAppState (project st) (task st) l (files st) (selectedFile st) (isRunning st)
             (isChatOpen st) (isMuted st) (activeTab st) (logIdCounter st).

Definition setFiles (f : ref) (st : AppState) : AppState :=
  mkAppState (project st) (task st) (logs st) f (selectedFile st) (isRunning st)
             (isChatOpen st) (isMuted st) (activeTab st) (logIdCounter st).

Definition setSelectedFile (s : option ref) (st : AppState) : AppState :=
  mkAppState (project st) (task st) (logs st) (files st) s (isRunning st)
             (isChatOpen st) (isMuted st) (activeTab st) (logIdCounter st).

Definition setIsRunning (b : bool) (st : AppState) : AppState :=
  mkAppState (project st) (task st) (logs st) (files st) (selectedFile st) b
             (isChatOpen st) (isMuted st) (activeTab st) (logIdCounter st).

Definition setActiveTab (t : WorkspaceTab) (st : AppState) : AppState :=
  mkAppState (project st) (task st) (logs st) (files st) (selectedFile st)
             (isRunning st) (isChatOpen st) (isMuted st) t (logIdCounter st).

Definition setLogIdCounter (n : nat) (st : AppState) : AppState :=
  mkAppState (project st) (task st) (logs st) (files st) (selectedFile st)
             (isRunning st) (isChatOpen st) (isMuted st) (activeTab st) n.

(** ** [handleFileSelect] and [handleFileContentChange] *)

(** Only a node of type [file] is selected; the editor tab opens with it. *)
Definition handleFileSelect (f : ref) (st : AppState) : M AppState :=
  n <- read_node f ;;
  if is_file n then ret (setActiveTab editor (setSelectedFile (Some f) st))
  else ret st.

(** The editor reports a new content: the path of the selected object is
    searched in [files], and the tree is updated along that path.  [fuel]
    bounds the search of [findPath]. *)
Definition handleFileContentChange (fuel : nat) (newContent : string) (st : AppState)
    : M AppState :=
  match selectedFile st with
  | None => ret st
  | Some sel =>
      filePath <- findPath fuel (files st) sel empty_string ;;
      match filePath with
      | None => ret st
      | Some p =>
          if truthy p then
            '(updatedFiles, updatedFile) <- updateFileByPath newContent (files st) p ;;
            let st1 := setFiles updatedFiles st in
            match updatedFile with
            | Some u => ret (setSelectedFile (Some u) st1)
            | None => ret st1
            end
          else ret st
      end
  end.

(** ** Paths and the kinds of the nodes they meet *)

(** A path of slashes only, the empty path included: no segment is left
    after the filter. *)
Fixpoint only_slashes (s : string) : bool :=
  match s with
  | EmptyString => true
  | String c rest => Ascii.eqb c slash && only_slashes rest
  end.

(** [kinds_fit parts js]: along the walk of [findOrCreateFile], every node
    named like a folder segment is a folder, and every node named like the
    file name at the end is a file. *)
Fixpoint kinds_fit (parts : list string) (js : list Json) : Prop :=
  match parts with
  | [] => True
  | d :: rest =>
      match rest with
      | [] => Forall (fun j => jname_of j = d -> jtype_of j = file) js
      | _ :: _ =>
          Forall (fun j => jname_of j = d -> jtype_of j = folder) js
          /\ kinds_fit rest (default [] (folder_children d js))
      end
  end.

(** The first folder named [d] among [js]. *)
Fixpoint first_folder (d : string) (js : list Json) : option Json :=
  match js with
  | [] => None
  | j :: rest =>
      if bool_decide (jname_of j = d) && bool_decide (jtype_of j = folder)
      then Some j
      else first_folder d rest
  end.

(** [childless_on_path folders js]: following the first folder of every
    name, the walk comes to a folder without the property [children]. *)
Fixpoint childless_on_path (folders : list string) (js : list Json) : Prop :=
  match folders with
  | [] => False
  | d :: rest =>
      match first_folder d js with
      | None => False
      | Some j =>
          match jchildren_of j with
          | None => True
          | Some ch => childless_on_path rest ch
          end
      end
  end.

(** ** The value [updateFileByPath] returns *)

(** The callback of [map] in [recursiveUpdate], on values. *)
Definition update_json (c : string) (hd : string) (tl : list string)
    (below : list Json -> list Json) (j : Json) : Json :=
  match j with
  | JNode n t co ch =>
      if bool_decide (n = hd) then
        if bool_decide (tl = []) && bool_decide (t = file) then JNode n t (Some c) ch
        else
          match t, ch with
          | folder, Some ks => JNode n t co (Some (below ks))
          | _, _ => j
          end
      else j
  end.

Fixpoint update_value (c : string) (path : list string) (js : list Json) : list Json :=
  match path with
  | [] => js
  | hd :: tl => map (update_json c hd tl (update_value c tl)) js
  end.

(** Two trees of the same shape: names, types and the presence of
    [children] agree node by node; contents and objects may differ. *)
Inductive shape : tree -> tree -> Prop :=
  | shape_intro a n ks a' n' ks' :
      name n = name n' -> type n = type n' ->
      (children n = None <-> children n' = None) ->
      Forall2 shape ks ks' ->
      shape (TNode a n ks) (TNode a' n' ks').

(** The references an object holds. *)
Definition refs_of (o : object) : list ref :=
  match o with
  | ONode nd => match children nd with Some a => [a] | None => [] end
  | OArray elems => elems
  end.

(** No object of the heap from [n] on refers to an object below [n]. *)
Definition closed_from (n : nat) (h : heap) : Prop :=
  forall a o, n <= a -> h !! a = Some o -> Forall (fun r => n <= r) (refs_of o).

(** ** More particular trees *)

(** A folder without the property [children], which [FileNode] allows. *)
Definition bare_folder : list Json := [ JNode "lib" folder None None ].

Definition bare : ref * heap := default (0, []) (run (JSON_parse bare_folder) []).
Definition bare_files : ref := fst bare.
Definition bare_heap : heap := snd bare.
Definition bare_tree : list tree := [ TNode 0 (mkFileNode "lib" folder None None) [] ].

(** ** Strings: [trim], [replace(/\s+/g, '-')], [slice(0, n)], [join] *)

Section whitespace.
(** The code units that are white space or line terminators: what [trim]
    removes and what the class [\s] matches. *)
Variable is_space : ascii -> bool.

Fixpoint trimStart (s : string) : string :=
  match s with
  | EmptyString => EmptyString
  | String c rest => if is_space c then trimStart rest else s
  end.

Fixpoint trimEnd (s : string) : string :=
  match s with
  | EmptyString => EmptyString
  | String c rest =>
      match trimEnd rest with
      | EmptyString => if is_space c then EmptyString else String c EmptyString
      | String c' rest' => String c (String c' rest')
      end
  end.

Definition trim (s : string) : string := trimEnd (trimStart s).

(** [s.replace(/\s+/g, '-')]: every maximal run of white space becomes one
    hyphen; [in_run] tells that the code unit before was white space. *)
Fixpoint replace_runs (in_run : bool) (s : string) : string :=
  match s with
  | EmptyString => EmptyString
  | String c rest =>
      if is_space c then
        if in_run then replace_runs true rest
        else String "-" (replace_runs true rest)
      else String c (replace_runs false rest)
  end.

Definition replace_spaces (s : string) : string := replace_runs false s.
End whitespace.

(** [s.slice(0, n)]. *)
Fixpoint slice0 (n : nat) (s : string) : string :=
  match n, s with
  | S n', String c rest => String c (slice0 n' rest)
  | _, _ => EmptyString
  end.

(** [array.join(sep)] on strings. *)
Fixpoint join_with (sep : string) (l : list string) : string :=
  match l with
  | [] => EmptyString
  | x :: rest =>
      match rest with
      | [] => x
      | _ :: _ => x +:+ sep +:+ join_with sep rest
      end
  end.

(** ** [addLog] and [updateAgentStatus] *)

Section handlers.
Variable is_space : ascii -> bool.
(** [String.prototype.toLowerCase]. *)
Variable toLowerCase : string -> string.
(** [new Date().toLocaleTimeString()] at the moment the entry with the
    given id is made. *)
Variable toLocaleTimeString : nat -> string.
(** [JSON.stringify] of an array of strings. *)
Variable JSON_stringify_names : list string -> string.
(** [error instanceof Error ? error.message : undefined] for what a call
    threw. *)
Variable message_of : geminiService.exception -> option string.

(** The functions of [services/geminiService.ts] with their declared
    types. *)
Variable generatePlan : string -> geminiService.completion (list string).
Variable generateCode : string -> string -> geminiService.completion (string * string).
Variable generateTests : string -> string -> geminiService.completion (string * string).
Variable generateDocumentation :
  string -> string -> string -> geminiService.completion string.
Variable generateSpeech : string -> geminiService.completion (option string).

(** The updater is run once for every call, in the order of the calls; it
    takes the next id from the counter. *)
Definition addLog (ty : LogEntryType.t) (msg : string) (agentRole : option AgentRole.t)
    (st : AppState) : AppState :=
  let newLog := LogEntry.mk (logIdCounter st) ty agentRole msg
                            (toLocaleTimeString (logIdCounter st)) in
  setLogIdCounter (S (logIdCounter st)) (setLogs (logs st ++ [newLog]) st).

Definition set_status (role : AgentRole.t) (status : AgentStatus.t) (agent : Agent.t)
    : Agent.t :=
  if decide (Agent.role agent = role)
  then Agent.mk (Agent.id agent) (Agent.role agent) status (Agent.description agent)
  else agent.

Definition updateAgentStatus (role : AgentRole.t) (status : AgentStatus.t)
    (st : AppState) : AppState :=
  let prev := project st in
  setProject (Project.mk (Project.id prev) (Project.name prev) (Project.repoUrl prev)
                (Project.status prev)
                (map (set_status role status) (Project.agents prev))
                (Project.lastActivity prev)) st.

(** ** The asynchronous handlers

    The body of an [async] handler runs on the state of the application
    and on the heap; it returns or throws, and the state it has set by then
    stays.  [None] is a failure of the model (the bound of a traversal, a
    reference that is no object), not of the program. *)
Definition Task (A : Type) : Type :=
  AppState -> heap -> option (geminiService.completion A * AppState * heap).

Definition task_ret {A} (a : A) : Task A :=
  fun st h => Some (geminiService.Returned a, st, h).

Definition task_bind {A B} (m : Task A) (k : A -> Task B) : Task B :=
  fun st h =>
    match m st h with
    | Some (geminiService.Returned a, st', h') => k a st' h'
    | Some (geminiService.Thrown e, st', h') => Some (geminiService.Thrown e, st', h')
    | None => None
    end.

(** A call of a state setter, or of [addLog] or [updateAgentStatus]. *)
Definition set_state (f : AppState -> AppState) : Task unit :=
  fun st h => Some (geminiService.Returned tt, f st, h).

(** [await] of a call of the service. *)
Definition await_call {A} (c : geminiService.completion A) : Task A :=
  fun st h => Some (c, st, h).

(** A tree operation: its [TypeError] is thrown, and the objects it had
    made by then are garbage. *)
Definition tree_op {A} (m : M A) : Task A :=
  fun st h =>
    match m h with
    | Ok (a, h') => Some (geminiService.Returned a, st, h')
    | Err TypeError => Some (geminiService.Thrown geminiService.TypeError, st, h)
    | Err _ => None
    end.

(** [try { body } catch (error) { handler } finally { finalizer }]. *)
Definition try_catch_finally (body : Task unit)
    (handler : geminiService.exception -> Task unit) (finalizer : Task unit)
    : Task unit :=
  fun st h =>
    match body st h with
    | None => None
    | Some (geminiService.Returned _, st1, h1) => finalizer st1 h1
    | Some (geminiService.Thrown e, st1, h1) =>
        match handler e st1 h1 with
        | None => None
        | Some (geminiService.Returned _, st2, h2) => finalizer st2 h2
        | Some (geminiService.Thrown e', st2, h2) =>
            match finalizer st2 h2 with
            | Some (geminiService.Returned _, st3, h3) =>
                Some (geminiService.Thrown e', st3, h3)
            | other => other
            end
        end
    end.

Notation "x <~ m ;; k" := (task_bind m (fun x => k))
  (at level 20, m at level 99, k at level 200, only parsing).
Notation "m ;;; k" := (task_bind m (fun _ => k))
  (at level 20, k at level 200, only parsing).

(** [plan[0] || task]. *)
Definition first_subtask (plan : list string) (task_arg : string) : string :=
  match plan with
  | s :: _ => if truthy s then s else task_arg
  | [] => task_arg
  end.

(** [files.map(f => f.name)] and [files.find(f => f.name === 'README.md')]
    on the root array; [readme?.content || ''] is the content read. *)
Definition root_names (nodes : ref) : M (list string) :=
  elems <- read_array nodes ;;
  mapM (fun r => n <- read_node r ;; ret (name n)) elems.

Definition readme_content (nodes : ref) : M string :=
  elems <- read_array nodes ;;
  readme <- find_node (named "README.md") elems ;;
  match readme with
  | Some (_, n) => ret (default empty_string (content n))
  | None => ret empty_string
  end.

(** The name of the branch in the log of [handleCommit]. *)
Definition branch_name (task_arg : string) : string :=
  slice0 20 (replace_spaces is_space (toLowerCase (trim is_space task_arg))).

(** [fuel] bounds the traversals of [JSON.stringify] in the three calls of
    [findOrCreateFile].  [files] and [task] are the values of the render in
    which the handler was made. *)
Definition handleStartTask (fuel : nat) : Task unit :=
  fun st0 =>
  let files0 := files st0 in
  let task0 := task st0 in
  (if negb (truthy (trim is_space task0)) || isRunning st0 then task_ret tt
   else
     set_state (setIsRunning true) ;;;
     set_state (setLogs []) ;;;
     set_state (addLog LogEntryType.UserAction ("Task started: " +:+ quoted task0) None) ;;;
     try_catch_finally
       (set_state (updateAgentStatus AgentRole.Planner AgentStatus.Thinking) ;;;
        set_state (addLog LogEntryType.AgentMessage "Decomposing task..."
               (Some AgentRole.Planner)) ;;;
        plan <~ await_call (generatePlan task0) ;;
        set_state (addLog LogEntryType.Info
               ("Plan created:" +:+ nl +:+ "- " +:+ join_with (nl +:+ "- ") plan)
               None) ;;;
        set_state (updateAgentStatus AgentRole.Planner AgentStatus.Done) ;;;
        set_state (updateAgentStatus AgentRole.Coder AgentStatus.Coding) ;;;
        set_state (addLog LogEntryType.AgentMessage "Beginning code generation..."
               (Some AgentRole.Coder)) ;;;
        names <~ tree_op (root_names files0) ;;
        let fileStructureString := JSON_stringify_names names in
        generated <~ await_call
          (generateCode (first_subtask plan task0) fileStructureString) ;;
        let filePath := fst generated in
        let code := snd generated in
        updatedFiles1 <~ tree_op (findOrCreateFile fuel files0 filePath code) ;;
        set_state (setFiles updatedFiles1) ;;;
        set_state (addLog LogEntryType.FileChange ("Generated file: " +:+ filePath)
               (Some AgentRole.Coder)) ;;;
        set_state (updateAgentStatus AgentRole.Coder AgentStatus.Done) ;;;
        set_state (updateAgentStatus AgentRole.Tester AgentStatus.Testing) ;;;
        set_state (addLog LogEntryType.AgentMessage
               ("Generating tests for " +:+ filePath +:+ ".")
               (Some AgentRole.Tester)) ;;;
        tests <~ await_call (generateTests filePath code) ;;
        let testFileName := fst tests in
        let testCode := snd tests in
        updatedFiles2 <~
          tree_op (findOrCreateFile fuel updatedFiles1 testFileName testCode) ;;
        set_state (setFiles updatedFiles2) ;;;
        set_state (addLog LogEntryType.FileChange ("Generated test file: " +:+ testFileName)
               (Some AgentRole.Tester)) ;;;
        set_state (addLog LogEntryType.Info "Tests passed and code clean."
               (Some AgentRole.Tester)) ;;;
        set_state (updateAgentStatus AgentRole.Tester AgentStatus.Done) ;;;
        set_state (updateAgentStatus AgentRole.Documenter AgentStatus.Documenting) ;;;
        set_state (addLog LogEntryType.AgentMessage "Updating documentation."
               (Some AgentRole.Documenter)) ;;;
        readme <~ tree_op (readme_content files0) ;;
        updatedReadme <~ await_call
          (generateDocumentation task0 readme
             ("Created " +:+ filePath +:+ " and " +:+ testFileName +:+ ".")) ;;
        updatedFiles3 <~
          tree_op (findOrCreateFile fuel updatedFiles2 "README.md" updatedReadme) ;;
        set_state (setFiles updatedFiles3) ;;;
        set_state (addLog LogEntryType.FileChange "Updated README.md"
               (Some AgentRole.Documenter)) ;;;
        set_state (updateAgentStatus AgentRole.Documenter AgentStatus.Done) ;;;
        mainComponentFile <~ tree_op (findAndSelectFile updatedFiles3 filePath) ;;
        match mainComponentFile with
        | Some f =>
            set_state (setSelectedFile (Some f)) ;;; set_state (setActiveTab preview)
        | None => task_ret tt
        end ;;;
        set_state (addLog LogEntryType.Success
               "Automated task completed. Please review, edit, and commit." None) ;;;
        _ <~ await_call (generateSpeech "Task completed. Ready for your review.") ;;
        task_ret tt)
       (fun error =>
          let errorMessage :=
            default "An unknown error occurred." (message_of error) in
          set_state (addLog LogEntryType.Error ("Workflow failed: " +:+ errorMessage) None) ;;;
          _ <~ await_call
            (generateSpeech "An error occurred. Please review the logs.") ;;
          task_ret tt)
       (set_state (setIsRunning false))) st0.

(** [project] is the value of the render in which the handler was made. *)
Definition handleCommit : Task unit :=
  fun st0 =>
  let task0 := task st0 in
  let project0 := project st0 in
  (set_state (addLog LogEntryType.Commit
          ("User approved & committed changes to new branch: feature/" +:+
           branch_name task0) None) ;;;
   set_state (addLog LogEntryType.Success "Project successfully committed!" None) ;;;
   _ <~ await_call (generateSpeech "Changes committed.") ;;
   set_state (fun st =>
          foldl (fun s agent => updateAgentStatus (Agent.role agent) AgentStatus.Idle s)
                st (Project.agents project0))) st0.
End handlers.

(** ** Facts that hold along a handler *)

(** [preserves P t]: the state [t] ends in satisfies [P] when the state it
    starts in does, whether [t] returns or throws. *)
Definition preserves {A} (P : AppState -> Prop) (t : Task A) : Prop :=
  forall st h r st' h', P st -> t st h = Some (r, st', h') -> P st'.

(** The ids of the log entries are all different and below the counter. *)
Definition log_ids_fresh (st : AppState) : Prop :=
  Forall (fun e => LogEntry.id e < logIdCounter st) (logs st)
  /\ NoDup (map LogEntry.id (logs st)).

(** [P] is kept by every state change the handlers of [App] make. *)
Definition stable (toLocaleTimeString : nat -> string) (P : AppState -> Prop) : Prop :=
  (forall st b, P st -> P (setIsRunning b st))
  /\ (forall st, P st -> P (setLogs [] st))
  /\ (forall st ty msg role, P st -> P (addLog toLocaleTimeString ty msg role st))
  /\ (forall st role status, P st -> P (updateAgentStatus role status st))
  /\ (forall st f, P st -> P (setFiles f st))
  /\ (forall st f, P st -> P (setSelectedFile f st))
  /\ (forall st t, P st -> P (setActiveTab t st)).

(** Some code unit of the string is white space. *)
Fixpoint has_space (is_space : ascii -> bool) (s : string) : bool :=
  match s with
  | EmptyString => false
  | String c rest => is_space c || has_space is_space rest
  end.

(** What a failed run leaves of the agents: the planner is done, the coder
    is still coding. *)
Definition stuck_coding (agent : Agent.t) : Agent.t :=
  match Agent.role agent with
  | AgentRole.Planner =>
      Agent.mk (Agent.id agent) (Agent.role agent) AgentStatus.Done
               (Agent.description agent)
  | AgentRole.Coder =>
      Agent.mk (Agent.id agent) (Agent.role agent) AgentStatus.Coding
               (Agent.description agent)
  | _ => agent
  end.

(** ** [constants.ts] and the first state of [App] *)

Definition AVAILABLE_AGENTS : list Agent.t :=
  [ Agent.mk "agent-1" AgentRole.Planner AgentStatus.Idle
      ("Decomposes high-level tasks into actionable sub-tasks and " +:+
       "orchestrates the team's workflow.");
    Agent.mk "agent-2" AgentRole.Coder AgentStatus.Idle
      ("Writes clean, efficient, and maintainable code based on " +:+
       "specifications from the Planner.");
    Agent.mk "agent-3" AgentRole.Tester AgentStatus.Idle
      ("Creates and runs unit tests to ensure code quality, correctness, " +:+
       "and adherence to requirements.");
    Agent.mk "agent-4" AgentRole.Documenter AgentStatus.Idle
      ("Generates and updates documentation, including README files and " +:+
       "in-code comments.") ].

(** [INITIAL_PROJECTS[0]]. *)
Definition first_project : Project.t :=
  Project.mk "proj-1" "Nexus UI Authentication"
    "github.com/ashwini-kar/project-nexus-ui" ProjectStatus.Active
    (take 4 AVAILABLE_AGENTS) "3 hours ago".

Definition first_task : string :=
  "Implement a responsive login form with email and password fields, " +:+
  "including basic validation.".

(** The initial values of the hooks, with the seed tree in [initial_heap]. *)
Definition initial_state : AppState :=
  mkAppState first_project first_task [] initial_files None false false false
             explorer 0.

(** The white space of ASCII. *)
Definition ascii_space (c : ascii) : bool :=
  match nat_of_ascii c with
  | 9 | 10 | 11 | 12 | 13 | 32 => true
  | _ => false
  end.

(** The service when no request gets through: every call returns the
    fallback [services/geminiService.ts] gives for it. *)
Definition offline_plan (task_arg : string) : geminiService.completion (list string) :=
  geminiService.Returned
    [ "Analyze requirements"; "Implement feature"; "Write tests";
      "Update documentation" ].

Definition offline_code (subtask existingFiles : string)
    : geminiService.completion (string * string) :=
  geminiService.Returned
    ("src/components/Error.tsx", "// Failed to generate code for: " +:+ subtask).

Definition offline_tests (fileName code : string)
    : geminiService.completion (string * string) :=
  geminiService.Returned
    (geminiService.replace ".tsx" ".test.tsx" fileName,
     "// Failed to generate tests for: " +:+ fileName).

Definition offline_documentation (task_arg readmeContent fileChanges : string)
    : geminiService.completion string :=
  geminiService.Returned (geminiService.error_readme task_arg readmeContent).

Definition offline_speech (text_arg : string) : geminiService.completion (option string) :=
  geminiService.Returned None.

(** No backquote in the string. *)
Fixpoint no_backquote (s : string) : bool :=
  match s with
  | EmptyString => true
  | String c rest => negb (Ascii.eqb c "`"%char) && no_backquote rest
  end.

(** ** The lookup of the specification on values *)

(** The first node named [s]. *)
Fixpoint first_named (s : string) (js : list Json) : option Json :=
  match js with
  | [] => None
  | j :: rest => if bool_decide (jname_of j = s) then Some j else first_named s rest
  end.

(** [lookup_spec] on values: the node the final segment matches, when every
    segment before it matches a folder. *)
Fixpoint lookup_json (parts : list string) (js : list Json) : option Json :=
  match parts with
  | [] => None
  | s :: rest =>
      match first_named s js with
      | None => None
      | Some j =>
          match rest with
          | [] => Some j
          | _ :: _ =>
              match jtype_of j with
              | folder => lookup_json rest (default [] (jchildren_of j))
              | file => None
              end
          end
      end
  end.

(** A file with this name and this content. *)
Definition is_file_with (n : string) (c : option string) (j : Json) : Prop :=
  jname_of j = n /\ jtype_of j = file /\ jcontent_of j = c.

(** The selection, when there is one, is a node of type [file]. *)
Definition selected_file (h : heap) (st : AppState) : Prop :=
  match selectedFile st with
  | Some r => exists n, h !! r = Some (ONode n) /\ type n = file
  | None => True
  end.

(** * [components/Chatbot.tsx] *)

Module Chatbot.

Inductive Sender := user | bot.

(** [ChatMessage] of [types.ts]; [text] is what the service returned for
    the text of the response. *)
Record ChatMessage := mkChatMessage {
  id : nat;
  text : option string;
  sender : Sender;
  searchResults : option (list geminiService.GroundingChunk)
}.

(** The state of the component and the counter [messageIdCounter.current]. *)
Record State := mkState {
  messages : list ChatMessage;
  userInput : string;
  isLoading : bool;
  useSearch : bool;
  messageIdCounter : nat
}.

Definition greeting : ChatMessage :=
  mkChatMessage 0
    (Some "Hello! I'm the Nexus assistant. How can I help you with your project today?")
    bot None.

Definition initial : State := mkState [greeting] EmptyString false false 1.



Section handleSendMessage.
Variable is_space : ascii -> bool.
Variable generateChatResponse :
  string -> bool -> geminiService.completion geminiService.ChatResponse.

End handleSendMessage.

End Chatbot.

(** * [components/Preview.tsx] *)

Module Preview.

(** The state of the component; [result] is what was last shown, a JSON
    value as [simulateLogin] returns it. *)
Record State := mkState {
  email : string;
  password : string;
  isLoading : bool;
  result : option geminiService.JsonValue
}.


Section handleSubmit.
Variable simulateLogin :
  string -> string -> geminiService.completion geminiService.JsonValue.

End handleSubmit.
End Preview.

(** * The data model on values *)

(** Every name is a valid segment. *)
Inductive jvalid : Json -> Prop :=
  | jvalid_leaf n t c : valid_name n -> jvalid (JNode n t c None)
  | jvalid_inner n t c js :
      valid_name n -> Forall jvalid js -> jvalid (JNode n t c (Some js)).

(** The names of the children are unique, at every level below. *)
Inductive junique : Json -> Prop :=
  | junique_leaf n t c : junique (JNode n t c None)
  | junique_inner n t c js :
      NoDup (map jname_of js) -> Forall junique js -> junique (JNode n t c (Some js)).

Definition junique_list (js : list Json) : Prop :=
  NoDup (map jname_of js) /\ Forall junique js.

(** * The heap programs and the trees they work on *)

(** ** Basic facts about the monad and the heap *)

Lemma bind_Ok {A B} (m : M A) (k : A -> M B) h a h' :
  m h = Ok (a, h') -> bind m k h = k a h'.
Proof. unfold bind. by intros ->. Qed.

(** [run_step H]: the program at the head of the goal runs as [H] says. *)
Tactic Notation "run_step" uconstr(H) := rewrite (bind_Ok _ _ _ _ _ H).

(** Induction on a derivation of [updated], one case for every rule. *)
Ltac induction_updated H :=
  induction H as [ts f | hd tl f | hd t ts a' f ts' f' Hn Hty Hrest IH
                 | hd tl t ts ch a' ch' ks' f f1 ts' f2 Hn Hty Hch Hk IHk Hsame Hrest IH
                 | hd tl t ts f ts' f' Hskip Hrest IH].

Lemma preserved_refl h : preserved h h.
Proof. intros r o H. exact H. Qed.

Lemma preserved_trans h1 h2 h3 :
  preserved h1 h2 -> preserved h2 h3 -> preserved h1 h3.
Proof. intros H12 H23 r o H. apply H23, H12, H. Qed.

Lemma preserved_app h k : preserved h (h ++ k).
Proof. intros r o H. by apply lookup_app_l_Some. Qed.

Lemma preserved_length h h' : preserved h h' -> length h <= length h'.
Proof.
  intros H. destruct (decide (length h <= length h')) as [|Hn]; [done|].
  destruct (lookup_lt_is_Some_2 h (length h')) as [o Ho]; [lia|].
  apply H in Ho. apply lookup_lt_Some in Ho. lia.
Qed.

Lemma repr_preserved h h' t : preserved h h' -> repr h t -> repr h' t.
Proof.
  intros Hp. induction t as [a n ks IH] using tree_ind'.
  intros Hr. inversion Hr as [a' n' ks' Ha Hc Hks]; subst.
  constructor.
  - by apply Hp.
  - destruct (children n); [by apply Hp | done].
  - rewrite Forall_forall in *. intros t Ht. apply IH; auto.
Qed.

Lemma repr_list_preserved h h' arr ts :
  preserved h h' -> repr_list h arr ts -> repr_list h' arr ts.
Proof.
  intros Hp [Ha Hts]. split; [by apply Hp|].
  eapply Forall_impl; [|exact Hts]. intros t. by apply repr_preserved.
Qed.

Lemma repr_kids h t : repr h t ->
  match children (node t) with
  | None => kids t = []
  | Some arr => repr_list h arr (kids t)
  end.
Proof.
  intros Hr. inversion Hr as [a n ks Ha Hc Hks]; subst. simpl.
  destruct (children n); [by split | done].
Qed.

Lemma repr_node h t : repr h t -> h !! addr t = Some (ONode (node t)).
Proof. by inversion 1. Qed.

Lemma read_node_repr h t : repr h t -> read_node (addr t) h = Ok (node t, h).
Proof. intros Hr. unfold read_node. by rewrite (repr_node h t Hr). Qed.

Lemma read_array_repr h arr ts :
  repr_list h arr ts -> read_array arr h = Ok (map addr ts, h).
Proof. intros [Ha _]. unfold read_array. by rewrite Ha. Qed.

Lemma initial_repr : repr_list initial_heap initial_files initial_tree.
Proof. split; [reflexivity|]. repeat constructor. Qed.

Lemma initial_well_tagged : well_tagged initial_tree.
Proof. unfold well_tagged. simpl. repeat constructor; try done; intros [=]. Qed.

Lemma initial_unique_names : unique_names initial_tree.
Proof. unfold unique_names. simpl. repeat constructor; by apply (bool_decide_unpack _). Qed.

(** ** Reading a tree: [find], [findIndex] and [findAndSelectFile] *)

Lemma find_node_repr p h ts :
  Forall (repr h) ts ->
  find_node p (map addr ts) h
  = Ok ((fun t => (addr t, node t)) <$> find_tree p ts, h).
Proof.
  induction 1 as [|t ts Ht Hts IH]; [done|].
  simpl. run_step (read_node_repr h t Ht).
  destruct (p (node t)); [done | exact IH].
Qed.

Lemma level_of_repr h t :
  repr h t ->
  match children (node t), level_of t with
  | Some arr, Some ts => repr_list h arr ts
  | None, None => True
  | _, _ => False
  end.
Proof.
  intros Hr. apply repr_kids in Hr. unfold level_of.
  by destruct (children (node t)).
Qed.

Lemma find_tree_Some p ts t :
  find_tree p ts = Some t -> t ∈ ts /\ p (node t) = true.
Proof.
  induction ts as [|x ts IH]; [done|]. simpl.
  destruct (p (node x)) eqn:Hp.
  - intros [= ->]. split; [left | done].
  - intros H. destruct (IH H). split; [by right | done].
Qed.

Lemma find_tree_None p ts :
  find_tree p ts = None -> Forall (fun t => p (node t) = false) ts.
Proof.
  induction ts as [|x ts IH]; [constructor|]. simpl.
  destruct (p (node x)) eqn:Hp; [done|]. intros H. constructor; auto.
Qed.

Lemma select_loop_repr last parts h cur level :
  match cur, level with
  | Some arr, Some ts => repr_list h arr ts
  | None, None => True
  | _, _ => False
  end ->
  select_loop last parts cur h = Ok (addr <$> select_tree last parts level, h).
Proof.
  revert cur level. induction parts as [|part rest IH]; intros cur level Hl; [done|].
  simpl. destruct cur as [arr|], level as [ts|]; try done.
  run_step (read_array_repr h arr ts Hl).
  destruct Hl as [_ Hts].
  run_step (find_node_repr _ h ts Hts).
  destruct (find_tree (named part) ts) as [t|] eqn:Hf; [|done]. simpl.
  destruct (is_file (node t) && bool_decide (part = last)); [done|].
  apply IH. apply level_of_repr.
  apply find_tree_Some in Hf as [Hin _].
  rewrite Forall_forall in Hts. by apply Hts, list_elem_of_In.
Qed.

Lemma findAndSelectFile_repr h nodes ts path :
  repr_list h nodes ts ->
  findAndSelectFile nodes path h
  = Ok (addr <$> select_tree (List.last (parts_of path) empty_string)
                             (parts_of path) (Some ts), h).
Proof. intros Hr. unfold findAndSelectFile. by apply select_loop_repr. Qed.

Lemma subtrees_unfold t : subtrees t = t :: flat_map subtrees (kids t).
Proof. by destruct t. Qed.

Lemma well_tagged_elem ts t :
  well_tagged ts -> t ∈ ts -> tagged t /\ well_tagged (kids t).
Proof.
  unfold well_tagged. rewrite Forall_flat_map, Forall_forall.
  intros H Hin. specialize (H t (proj1 (list_elem_of_In _ _) Hin)).
  rewrite subtrees_unfold in H. by apply Forall_cons_1 in H.
Qed.

Lemma select_tree_walk last parts ts :
  well_tagged ts ->
  List.last parts empty_string = last ->
  match lookup_spec parts ts with
  | Hit t => select_tree last parts (Some ts)
             = if is_file (node t) then Some t else None
  | Miss => select_tree last parts (Some ts) = None
  | FileInside t => tname t <> last -> select_tree last parts (Some ts) = None
  end.
Proof.
  revert ts. induction parts as [|part rest IH]; intros ts Hwt Hlast; [done|].
  simpl. destruct (find_tree (named part) ts) as [t|] eqn:Hf; [|done].
  apply find_tree_Some in Hf as [Hin Hname].
  destruct (well_tagged_elem ts t Hwt Hin) as [Htag Hkids].
  unfold named in Hname. apply bool_decide_eq_true in Hname.
  destruct rest as [|part' rest'].
  - simpl in Hlast. subst last. rewrite bool_decide_eq_true_2 by done.
    rewrite andb_true_r. by destruct (is_file (node t)).
  - change (List.last (part :: part' :: rest') empty_string)
      with (List.last (part' :: rest') empty_string) in Hlast.
    unfold is_file, level_of. destruct (type (node t)) eqn:Hty.
    + intros Hne. rewrite bool_decide_eq_true_2 by done.
      rewrite bool_decide_eq_false_2 by (unfold tname in Hne; congruence).
      simpl. assert (children (node t) = None) as -> by by apply Htag.
      done.
    + rewrite bool_decide_eq_false_2 by done. simpl andb. cbv iota.
      destruct (children (node t)) eqn:Hch.
      * by apply IH.
      * apply Htag in Hch. congruence.
Qed.

(** ** [findPath] *)

Lemma heights_cons t ts : heights (t :: ts) = Nat.max (height t) (heights ts).
Proof. done. Qed.

Lemma height_unfold t : height t = S (heights (kids t)).
Proof. by destruct t. Qed.

Lemma findPath_repr fuel h arr ts target cp :
  repr_list h arr ts ->
  heights ts < fuel ->
  findPath fuel arr target cp h = Ok (first_some (visit target cp) ts, h).
Proof.
  revert arr ts cp. induction fuel as [|fuel IH]; intros arr ts cp Hr Hh; [lia|].
  simpl. run_step (read_array_repr h arr ts Hr).
  destruct Hr as [_ Hts]. clear arr.
  induction Hts as [|t ts Ht Hts IHts]; [done|].
  rewrite heights_cons in Hh. simpl.
  run_step (read_node_repr h t Ht).
  pose proof (repr_kids h t Ht) as Hk.
  rewrite height_unfold in Hh.
  destruct t as [a n ks]. simpl in *.
  destruct (bool_decide (a = target)); [done|].
  destruct (type n); [by apply IHts; lia|].
  destruct (children n) as [ch|]; [|by apply IHts; lia].
  rewrite (bind_Ok _ _ _ _ _ (IH ch ks (extend cp (name n)) Hk ltac:(lia))).
  destruct (first_some (visit target (extend cp (name n))) ks) as [p|];
    [destruct (truthy p); [done|] |]; apply IHts; lia.
Qed.

(** ** Splitting a joined path *)

Lemma split_slash_free n : slash_free n = true -> split slash n = [n].
Proof.
  induction n as [|c n IH]; [done|]. simpl.
  destruct (Ascii.eqb c slash); [done|]. simpl. intros H. by rewrite IH.
Qed.

Lemma split_append n s :
  slash_free n = true -> split slash (n +:+ "/" +:+ s) = n :: split slash s.
Proof.
  induction n as [|c n IH]; [done|]. simpl.
  destruct (Ascii.eqb c slash); [done|]. simpl. intros H. by rewrite IH.
Qed.

Lemma split_join names :
  names <> [] -> Forall valid_name names -> split slash (join names) = names.
Proof.
  induction 2 as [|n rest [Hn Hs] Hrest IH]; [done|].
  simpl. destruct rest as [|n' rest'].
  - by apply split_slash_free.
  - rewrite split_append by done. by rewrite IH.
Qed.

Lemma filter_truthy_valid names :
  Forall valid_name names -> List.filter truthy names = names.
Proof.
  induction 1 as [|n rest [Hn Hs] Hrest IH]; [done|].
  simpl. by rewrite Hn, IH.
Qed.

Lemma parts_of_join names :
  names <> [] -> Forall valid_name names -> parts_of (join names) = names.
Proof.
  intros Hne Hv. unfold parts_of. rewrite split_join by done.
  by apply filter_truthy_valid.
Qed.

Lemma append_assoc (a b c : string) : (a +:+ b) +:+ c = a +:+ (b +:+ c).
Proof.
  induction a as [|x a IH]; [done|].
  change (String x ((a +:+ b) +:+ c) = String x (a +:+ b +:+ c)).
  by rewrite IH.
Qed.

Lemma truthy_append a b : truthy a = true -> truthy (a +:+ b) = true.
Proof. by destruct a. Qed.

Lemma truthy_extend cp n : truthy n = true -> truthy (extend cp n) = true.
Proof.
  intros Hn. unfold extend. destruct (truthy cp) eqn:Hcp; [|done].
  by apply truthy_append.
Qed.

Lemma foldl_extend_truthy cp names :
  truthy cp = true -> truthy (foldl extend cp names) = true.
Proof.
  revert cp. induction names as [|n rest IH]; intros cp Hcp; [done|].
  simpl. apply IH. unfold extend. rewrite Hcp. by apply truthy_append.
Qed.

Lemma foldl_extend_append cp names :
  truthy cp = true -> names <> [] ->
  foldl extend cp names = cp +:+ "/" +:+ join names.
Proof.
  revert cp. induction names as [|n rest IH]; intros cp Hcp Hne; [done|].
  simpl. destruct rest as [|n' rest'].
  - simpl. unfold extend. by rewrite Hcp.
  - rewrite IH; [|unfold extend; rewrite Hcp; by apply truthy_append | done].
    unfold extend. rewrite Hcp.
    change (join (n :: n' :: rest')) with (n +:+ "/" +:+ join (n' :: rest')).
    generalize (join (n' :: rest')). intros s.
    by rewrite !append_assoc.
Qed.

Lemma foldl_extend_join names :
  Forall valid_name names -> foldl extend empty_string names = join names.
Proof.
  destruct 1 as [|n rest [Hn Hs] Hrest]; [done|].
  simpl. destruct rest as [|n' rest']; [done|].
  change (extend empty_string n) with n.
  by rewrite foldl_extend_append.
Qed.

(** ** The path [findPath] returns leads to the target *)

Lemma at_path_nonempty names ts t0 : at_path names ts t0 -> names <> [].
Proof. by destruct names. Qed.

Lemma at_path_weaken names t ts t0 :
  at_path names [t] t0 -> t ∈ ts -> at_path names ts t0.
Proof.
  destruct names as [|n [|n' rest]]; [done| |]; simpl.
  - intros [Hin Hn] Ht. apply list_elem_of_singleton in Hin. by subst.
  - intros (t' & Hin & Hn & Hty & Hrest) Ht.
    apply list_elem_of_singleton in Hin. subst. by exists t.
Qed.

Lemma at_path_cons n names t ts t0 :
  t ∈ ts -> tname t = n -> type (node t) = folder ->
  at_path names (kids t) t0 -> at_path (n :: names) ts t0.
Proof.
  intros Hin Hn Hty Hp. pose proof (at_path_nonempty _ _ _ Hp).
  destruct names as [|n' rest]; [done|]. simpl. by exists t.
Qed.

Lemma first_some_visit_sound target ts :
  Forall (visit_sound_at target) ts ->
  forall cp p, first_some (visit target cp) ts = Some p ->
    exists names t0, p = foldl extend cp names /\ at_path names ts t0
                     /\ addr t0 = target.
Proof.
  induction 1 as [|t ts Ht Hts IH]; intros cp p; [done|]. simpl.
  destruct (visit target cp t) as [q|] eqn:Hv.
  - intros [= <-]. destruct (Ht cp q Hv) as (names & t0 & Hp & Hat & Ha).
    exists names, t0. split_and!; [done| |done].
    eapply at_path_weaken; [exact Hat | left].
  - intros Hf. destruct (IH cp p Hf) as (names & t0 & Hp & Hat & Ha).
    exists names, t0. split_and!; [done| |done].
    destruct names as [|n [|n' rest]]; [done| |]; simpl in *.
    + destruct Hat. split; [by right | done].
    + destruct Hat as (t' & Hin & Hrest). exists t'. split; [by right | done].
Qed.

Lemma visit_sound target t : visit_sound_at target t.
Proof.
  induction t as [a n ks IH] using tree_ind'. intros cp p. simpl.
  destruct (bool_decide (a = target)) eqn:Ha.
  - apply bool_decide_eq_true in Ha. intros [= <-].
    exists [name n], (TNode a n ks). split_and!; [done| |done].
    simpl. split; [left | done].
  - destruct (type n) eqn:Hty; [done|].
    destruct (children n) as [ch|]; [|done].
    destruct (first_some (visit target (extend cp (name n))) ks) as [q|] eqn:Hf;
      [|done].
    destruct (truthy q); [|done]. intros [= <-].
    destruct (first_some_visit_sound target ks IH _ _ Hf)
      as (names & t0 & Hp & Hat & Ht0).
    exists (name n :: names), t0. split_and!; [done| |done].
    eapply (at_path_cons _ _ (TNode a n ks)); [left|done|done|done].
Qed.

Lemma subtrees_elem t ts :
  t ∈ flat_map subtrees ts <->
  exists t', t' ∈ ts /\ (t = t' \/ t ∈ flat_map subtrees (kids t')).
Proof.
  rewrite list_elem_of_In, in_flat_map. split.
  - intros (t' & Hin & Ht). exists t'. rewrite <- list_elem_of_In in Hin.
    split; [done|]. rewrite subtrees_unfold in Ht. destruct Ht as [->|Ht];
      [by left | right; by apply list_elem_of_In].
  - intros (t' & Hin & Ht). exists t'. rewrite list_elem_of_In in Hin.
    split; [done|]. rewrite subtrees_unfold. destruct Ht as [->|Ht];
      [by left | right; by apply list_elem_of_In].
Qed.

Lemma valid_names_elem ts t :
  valid_names ts -> t ∈ ts -> valid_name (tname t) /\ valid_names (kids t).
Proof.
  unfold valid_names. rewrite Forall_flat_map, Forall_forall.
  intros H Hin. specialize (H t (proj1 (list_elem_of_In _ _) Hin)).
  rewrite subtrees_unfold in H. by apply Forall_cons_1 in H.
Qed.

Lemma first_some_visit_complete h target ts :
  Forall (visit_complete_at h target) ts ->
  Forall (repr h) ts -> well_tagged ts -> valid_names ts ->
  (exists t, t ∈ flat_map subtrees ts /\ addr t = target) ->
  forall cp, exists p, first_some (visit target cp) ts = Some p.
Proof.
  induction 1 as [|t ts Ht Hts IH]; intros Hr Hwt Hv [t' [Hin Ha]] cp.
  - by apply elem_of_nil in Hin.
  - simpl. destruct (visit target cp t) as [q|] eqn:Hq; [by exists q|].
    apply Forall_cons_1 in Hr as [Hrt Hrts].
    destruct (well_tagged_elem (t :: ts) t Hwt ltac:(left)) as [Htag Hkt].
    destruct (valid_names_elem (t :: ts) t Hv ltac:(left)) as [Hvt Hvk].
    assert (well_tagged ts) as Hwts.
    { unfold well_tagged in *. simpl in Hwt. by apply Forall_app in Hwt as [_ ?]. }
    assert (valid_names ts) as Hvts.
    { unfold valid_names in *. simpl in Hv. by apply Forall_app in Hv as [_ ?]. }
    apply IH; [done..|]. exists t'. split; [|done].
    simpl in Hin. apply elem_of_app in Hin as [Hin|Hin]; [|done].
    destruct (Ht Hrt Htag Hkt Hvt Hvk (ex_intro _ t' (conj Hin Ha)) cp) as [p Hp].
    congruence.
Qed.

Lemma visit_complete h target t : visit_complete_at h target t.
Proof.
  induction t as [a n ks IH] using tree_ind'.
  intros Hr Htag Hwt Hvn Hvk [t' [Hin Ha]] cp. simpl in *.
  destruct (bool_decide (a = target)) eqn:Hat; [by eexists|].
  apply bool_decide_eq_false in Hat.
  apply elem_of_cons in Hin as [->|Hin]; [done|].
  pose proof (repr_kids _ _ Hr) as Hk. simpl in Hk.
  unfold tagged in Htag. simpl in Htag.
  destruct (children n) as [ch|] eqn:Hch.
  2:{ subst ks. by inversion Hin. }
  destruct (type n) eqn:Hty; [by pose proof (proj1 Htag eq_refl)|].
  destruct Hk as [_ Hrk].
  destruct (first_some_visit_complete h target ks IH Hrk Hwt Hvk
              (ex_intro _ t' (conj Hin Ha)) (extend cp (name n))) as [q Hq].
  rewrite Hq.
  destruct (first_some_visit_sound target ks
              (proj2 (Forall_forall _ _) (fun t _ => visit_sound target t)) _ _ Hq)
    as (names & t0 & -> & _).
  rewrite foldl_extend_truthy; [by eexists|].
  apply truthy_extend, Hvn.
Qed.

(** ** Looking up the path of a node *)

Lemma levels_below_unfold t : levels_below t = levels (kids t).
Proof. by destruct t. Qed.

Lemma unique_names_top ts : unique_names ts -> NoDup (map tname ts).
Proof. intros H. by apply Forall_cons_1 in H as [? _]. Qed.

Lemma unique_names_elem ts t :
  unique_names ts -> t ∈ ts -> unique_names (kids t).
Proof.
  unfold unique_names, levels at 1. intros H Hin.
  apply Forall_cons_1 in H as [_ H].
  rewrite Forall_flat_map, Forall_forall in H.
  specialize (H t (proj1 (list_elem_of_In _ _) Hin)).
  by rewrite levels_below_unfold in H.
Qed.

Lemma find_tree_unique ts t :
  NoDup (map tname ts) -> t ∈ ts -> find_tree (named (tname t)) ts = Some t.
Proof.
  induction ts as [|x ts IH]; intros Hnd Hin; [by inversion Hin|].
  simpl in *. pose proof (NoDup_cons_1_1 _ _ Hnd) as Hx.
  apply NoDup_cons_1_2 in Hnd. unfold named at 1.
  apply elem_of_cons in Hin as [->|Hin].
  - by rewrite bool_decide_eq_true_2.
  - rewrite bool_decide_eq_false_2; [by apply IH|].
    intros Heq. apply Hx. unfold tname in *. rewrite Heq.
    by apply (list_elem_of_fmap_2 (fun t => name (node t))).
Qed.

Lemma select_tree_cons last part rest ts :
  select_tree last (part :: rest) (Some ts)
  = match find_tree (named part) ts with
    | None => None
    | Some t =>
        if is_file (node t) && bool_decide (part = last) then Some t
        else select_tree last rest (level_of t)
    end.
Proof. done. Qed.

Lemma tagged_folder_level t :
  tagged t -> type (node t) = folder -> level_of t = Some (kids t).
Proof.
  unfold tagged, level_of. intros Htag Hty.
  destruct (children (node t)); [done|]. rewrite (proj2 Htag eq_refl) in Hty. done.
Qed.

Lemma select_tree_at_path last names ts t0 :
  at_path names ts t0 ->
  unique_names ts -> well_tagged ts ->
  type (node t0) = file ->
  List.last names empty_string = last ->
  select_tree last names (Some ts) = Some t0.
Proof.
  revert ts. induction names as [|n rest IH]; intros ts Hat Hu Hwt Hf Hlast; [done|].
  rewrite select_tree_cons. simpl in Hat. destruct rest as [|n' rest'].
  - destruct Hat as [Hin Hn]. simpl in *. subst.
    rewrite (find_tree_unique ts t0 (unique_names_top _ Hu) Hin).
    unfold is_file. by rewrite !bool_decide_eq_true_2.
  - destruct Hat as (t & Hin & Hn & Hty & Hrest). subst n.
    rewrite (find_tree_unique ts t (unique_names_top _ Hu) Hin).
    destruct (well_tagged_elem ts t Hwt Hin) as [Htag Hwk].
    unfold is_file. rewrite bool_decide_eq_false_2 by congruence. simpl andb.
    cbv iota. rewrite (tagged_folder_level t Htag Hty).
    apply IH; [done | by eapply unique_names_elem | done | done | done].
Qed.

Lemma at_path_subtree names ts t0 :
  at_path names ts t0 -> t0 ∈ flat_map subtrees ts.
Proof.
  revert ts. induction names as [|n rest IH]; intros ts; [done|].
  simpl. destruct rest as [|n' rest'].
  - intros [Hin _]. apply subtrees_elem. exists t0. split; [done | by left].
  - intros (t & Hin & _ & _ & Hrest). apply subtrees_elem. exists t.
    split; [done | right; by apply IH].
Qed.

Lemma at_path_valid names ts t0 :
  at_path names ts t0 -> valid_names ts -> Forall valid_name names.
Proof.
  revert ts. induction names as [|n rest IH]; intros ts; [done|].
  simpl. destruct rest as [|n' rest'].
  - intros [Hin <-] Hv. constructor; [|done].
    by apply (valid_names_elem ts t0).
  - intros (t & Hin & <- & _ & Hrest) Hv.
    destruct (valid_names_elem ts t Hv Hin) as [Hvt Hvk].
    constructor; [done|]. by apply (IH (kids t)).
Qed.

Lemma repr_subtrees h ts t :
  Forall (repr h) ts -> t ∈ flat_map subtrees ts -> repr h t.
Proof.
  intros Hr Hin. revert ts Hr Hin.
  assert (forall t0, repr h t0 -> forall t, t ∈ subtrees t0 -> repr h t) as Hone.
  { induction t0 as [a n ks IH] using tree_ind'. intros Hr t' Hin.
    simpl in Hin. apply elem_of_cons in Hin as [->|Hin]; [done|].
    pose proof (repr_kids _ _ Hr) as Hk. simpl in Hk.
    assert (Forall (repr h) ks) as Hks.
    { destruct (children n); [by destruct Hk | subst; constructor]. }
    apply list_elem_of_In, in_flat_map in Hin as (k & Hk1 & Hk2).
    rewrite Forall_forall in IH, Hks.
    apply (IH k Hk1); [by apply Hks | by apply list_elem_of_In]. }
  intros ts Hr Hin.
  apply list_elem_of_In, in_flat_map in Hin as (k & Hk1 & Hk2).
  rewrite Forall_forall in Hr. apply (Hone k); [by apply Hr | by apply list_elem_of_In].
Qed.

(** ** [updateFileByPath] builds an updated tree beside the old one *)

Lemma alloc_lookup (h : heap) o : (h ++ [o]) !! length h = Some o.
Proof. by rewrite lookup_app_r, Nat.sub_diag. Qed.

Lemma map_nodes_spec c hd tl :
  update_spec c tl ->
  forall ts h f,
    Forall (repr h) ts ->
    exists f' h' ts',
      map_nodes (update_node c (recursiveUpdate c tl) hd tl) (map addr ts) f h
      = Ok ((map addr ts', f'), h')
      /\ preserved h h'
      /\ Forall (repr h') ts'
      /\ updated c (hd :: tl) ts f ts' f'.
Proof.
  intros IHtl. induction ts as [|t ts IH]; intros h f Hts.
  { exists f, h, []. split_and!; [done | apply preserved_refl | done | constructor]. }
  apply Forall_cons_1 in Hts as [Ht Hts].
  (* the callback on [t] *)
  assert (exists r1 f1 h1 t1,
            update_node c (recursiveUpdate c tl) hd tl (addr t) f h = Ok ((r1, f1), h1)
            /\ preserved h h1 /\ repr h1 t1 /\ addr t1 = r1
            /\ forall ts' f2, updated c (hd :: tl) ts f1 ts' f2 ->
                 updated c (hd :: tl) (t :: ts) f (t1 :: ts') f2)
    as (r1 & f1 & h1 & t1 & Hrun & Hp1 & Hr1 & Ha1 & Hupd).
  { unfold update_node. run_step (read_node_repr h t Ht).
    unfold named. destruct (decide (name (node t) = hd)) as [Hn|Hn].
    2:{ rewrite bool_decide_eq_false_2 by done.
        exists (addr t), f, h, t. split_and!; [done|apply preserved_refl|done|done|].
        intros ts' f2 H. apply updated_skip; [by left | done]. }
    rewrite bool_decide_eq_true_2 by done.
    unfold is_file. destruct (type (node t)) eqn:Hty.
    - (* a file *)
      destruct (decide (tl = [])) as [->|Htl].
      + rewrite !bool_decide_eq_true_2 by done. simpl andb. cbv iota.
        unfold bind, alloc, ret.
        exists (length h), (Some (length h)), (h ++ [ONode (set_content c (node t))]),
          (TNode (length h) (set_content c (node t)) (kids t)).
        split_and!; [done | apply preserved_app | | done |].
        * pose proof (repr_kids h t Ht) as Hk.
          constructor; [apply alloc_lookup | |].
          -- simpl. destruct (children (node t)); [|done].
             apply preserved_app. by destruct Hk.
          -- destruct (children (node t)); [|subst; rewrite Hk; constructor].
             destruct Hk as [_ Hk]. eapply Forall_impl; [|exact Hk].
             intros x. apply repr_preserved, preserved_app.
        * intros ts' f2 H. by apply updated_file.
      + rewrite (bool_decide_eq_false_2 (tl = [])) by done. simpl andb. cbv iota.
        exists (addr t), f, h, t. split_and!; [done|apply preserved_refl|done|done|].
        intros ts' f2 H. apply updated_skip; [right; by left | done].
    - (* a folder *)
      rewrite (bool_decide_eq_false_2 (folder = file)) by done.
      rewrite andb_false_r. cbv iota.
      pose proof (repr_kids h t Ht) as Hk.
      destruct (children (node t)) as [ch|] eqn:Hch.
      2:{ exists (addr t), f, h, t. split_and!; [done|apply preserved_refl|done|done|].
          intros ts' f2 H. apply updated_skip; [right; by right | done]. }
      destruct (IHtl h ch (kids t) f Hk)
        as (ch' & f1 & h1 & ks' & Hrun & Hp & Hrk & Hu & Hfresh & Hsame).
      run_step Hrun. unfold bind, alloc, ret.
      exists (length h1), f1, (h1 ++ [ONode (set_children ch' (node t))]),
        (TNode (length h1) (set_children ch' (node t)) ks').
      split_and!; [done | | | done |].
      * eapply preserved_trans; [exact Hp | apply preserved_app].
      * constructor; [apply alloc_lookup | |].
        -- simpl. apply preserved_app. by destruct Hrk.
        -- destruct Hrk as [_ Hrk]. eapply Forall_impl; [|exact Hrk].
           intros x. apply repr_preserved, preserved_app.
      * intros ts' f2 H. by eapply updated_folder. }
  destruct (IH h1 f1) as (f2 & h2 & ts2 & Hrun2 & Hp2 & Hr2 & Hu2).
  { eapply Forall_impl; [|exact Hts]. intros x. by apply repr_preserved. }
  exists f2, h2, (t1 :: ts2).
  split_and!.
  - simpl. run_step Hrun. run_step Hrun2.
    by rewrite Ha1.
  - by eapply preserved_trans.
  - constructor; [by eapply repr_preserved | done].
  - by apply Hupd.
Qed.

Lemma recursiveUpdate_spec c path : update_spec c path.
Proof.
  induction path as [|hd tl IH]; intros h arr ts f Hr.
  { exists arr, f, h, ts.
    split_and!; [done | apply preserved_refl | done | constructor | done | done]. }
  simpl. run_step (read_array_repr h arr ts Hr).
  destruct Hr as [_ Hts].
  destruct (map_nodes_spec c hd tl IH ts h f Hts) as (f' & h' & ts' & Hrun & Hp & Hr' & Hu).
  run_step Hrun. unfold bind, alloc, ret.
  exists (length h'), f', (h' ++ [OArray (map addr ts')]), ts'.
  split_and!.
  - done.
  - eapply preserved_trans; [exact Hp | apply preserved_app].
  - split; [apply alloc_lookup|].
    eapply Forall_impl; [|exact Hr']. intros x. apply repr_preserved, preserved_app.
  - done.
  - intros _. by apply preserved_length.
  - done.
Qed.

Lemma at_path_inv hd tl ts t0 :
  at_path (hd :: tl) ts t0 <->
  exists t, t ∈ ts /\ tname t = hd
            /\ ((tl = [] /\ t0 = t)
                \/ (tl <> [] /\ type (node t) = folder /\ at_path tl (kids t) t0)).
Proof.
  simpl. destruct tl as [|n' rest'].
  - split.
    + intros [Hin Hn]. exists t0. split_and!; [done..|by left].
    + intros (t & Hin & Hn & [[_ ->]|[? _]]); done.
  - split.
    + intros (t & Hin & Hn & Hty & Hat). exists t. split_and!; [done..|by right].
    + intros (t & Hin & Hn & [[? _]|(_ & Hty & Hat)]); [done|by exists t].
Qed.

Lemma present_cons hd tl t ts : present (hd :: tl) ts -> present (hd :: tl) (t :: ts).
Proof.
  intros (t0 & Hat & Hf). exists t0. split; [|done].
  apply at_path_inv in Hat as (t1 & Hin & Hrest). apply at_path_inv.
  exists t1. split; [by right | done].
Qed.

(** Without a chain to a file nothing is found and the value is the same. *)
Lemma updated_absent c path ts f ts' f' :
  updated c path ts f ts' f' ->
  ~ present path ts ->
  map erase ts' = map erase ts /\ f' = f.
Proof.
  intros Hupd; induction_updated Hupd; intros Hnp; try done.
  - destruct Hnp. exists t. split; [|done]. simpl. split; [left | done].
  - destruct IHk as [Hek ->].
    { intros (t0 & Hat & Hf). apply Hnp. exists t0. split; [|done].
      apply at_path_inv. exists t. split_and!; [left | done |].
      right. split_and!; [|done..]. intros ->. by destruct Hat. }
    destruct IH as [He ->].
    { intros Hp. by apply Hnp, present_cons. }
    split; [|done]. simpl. rewrite He. f_equal.
    destruct t as [a n ks]. simpl in *. by rewrite Hch, Hek.
  - destruct IH as [He ->].
    { intros Hp. by apply Hnp, present_cons. }
    split; [|done]. simpl. by rewrite He.
Qed.

(** ** [JSON.stringify] reads the value of a tree *)

Lemma mapM_pure {A B C} (f : A -> M B) (a : C -> A) (g : C -> B) (l : list C) h :
  Forall (fun x => f (a x) h = Ok (g x, h)) l ->
  mapM f (map a l) h = Ok (map g l, h).
Proof.
  induction 1 as [|x l Hx Hl IH]; [done|]. simpl.
  run_step Hx. by run_step IH.
Qed.

Lemma JSON_stringify_repr fuel h arr ts :
  repr_list h arr ts ->
  heights ts < fuel ->
  JSON_stringify fuel arr h = Ok (map erase ts, h).
Proof.
  revert arr ts. induction fuel as [|fuel IH]; intros arr ts Hr Hh; [lia|].
  simpl. run_step (read_array_repr h arr ts Hr).
  destruct Hr as [_ Hts]. clear arr. apply mapM_pure.
  induction Hts as [|t ts Ht Hts IHts]; constructor.
  - rewrite heights_cons in Hh. clear IHts.
    unfold stringify_node. run_step (read_node_repr h t Ht).
    pose proof (repr_kids h t Ht) as Hk.
    rewrite height_unfold in Hh.
    destruct t as [a n ks]. simpl in *.
    destruct (children n) as [ch|]; [|done].
    unfold bind at 1 2. by rewrite (IH ch ks Hk ltac:(lia)).
  - apply IHts. rewrite heights_cons in Hh. lia.
Qed.

Lemma split_nonempty sep s : split sep s <> [].
Proof.
  destruct s as [|c s]; [done|]. simpl.
  destruct (Ascii.eqb c sep); [done|]. by destruct (split sep s).
Qed.

(** ** The update along a path of unique names *)

Lemma updated_all_skip c path ts f ts' f' :
  updated c path ts f ts' f' ->
  forall hd tl, path = hd :: tl ->
  Forall (fun t => name (node t) <> hd) ts ->
  ts' = ts /\ f' = f.
Proof.
  intros Hupd; induction_updated Hupd;
    intros hd0 tl0 Hpath Hall; try done.
  - injection Hpath as <- <-. apply Forall_cons_1 in Hall as [Hne _]. done.
  - injection Hpath as <- <-. apply Forall_cons_1 in Hall as [Hne _]. done.
  - apply Forall_cons_1 in Hall as [_ Hall].
    destruct (IH hd0 tl0 Hpath Hall) as [-> ->]. done.
Qed.

Lemma unique_names_cons t ts :
  unique_names (t :: ts) ->
  unique_names ts /\ unique_names (kids t)
  /\ Forall (fun x => name (node x) <> name (node t)) ts.
Proof.
  intros Hu. pose proof (unique_names_top _ Hu) as Hnd. simpl in Hnd.
  split_and!.
  - unfold unique_names, levels in *. simpl in Hu.
    apply Forall_cons_1 in Hu as [_ Hu]. apply Forall_app in Hu as [_ Hu].
    constructor; [by apply NoDup_cons_1_2 in Hnd | done].
  - apply (unique_names_elem (t :: ts)); [done | left].
  - apply NoDup_cons_1_1 in Hnd. apply Forall_forall. intros x Hx Heq.
    apply Hnd. unfold tname. rewrite <- Heq.
    apply list_elem_of_In in Hx.
    by apply (list_elem_of_fmap_2 (fun t => name (node t))).
Qed.

Lemma shared_off_path_skip hd tl ts :
  Forall (fun t => name (node t) <> hd) ts ->
  shared_off_path (hd :: tl) ts ts.
Proof.
  simpl. induction 1 as [|t ts Ht Hts IH]; constructor; [|done].
  unfold tname. by rewrite decide_False.
Qed.

Lemma at_path_nil names t0 : ~ at_path names [] t0.
Proof.
  destruct names as [|n [|n' rest]]; simpl; [tauto| |].
  - intros [Hin _]. by inversion Hin.
  - intros (t & Hin & _). by inversion Hin.
Qed.

Lemma last_cons_cons {A} (x y : A) l d :
  List.last (x :: y :: l) d = List.last (y :: l) d.
Proof. done. Qed.

Lemma updated_on_path c path ts f ts' f' :
  updated c path ts f ts' f' ->
  forall h t0 last,
    Forall (repr h) ts -> unique_names ts ->
    at_path path ts t0 -> type (node t0) = file ->
    List.last path empty_string = last ->
    exists a',
      select_tree last path (Some ts')
      = Some (TNode a' (set_content c (node t0)) (kids t0))
      /\ f' = Some a'
      /\ shared_off_path path ts ts'.
Proof.
  intros Hupd; induction_updated Hupd;
    intros h t0 last Hr Hu Hat Hfile Hlast.
  - done.
  - by apply at_path_nil in Hat.
  - (* the file of the final segment *)
    destruct (unique_names_cons _ _ Hu) as (Hus & Huk & Hne).
    rewrite Hn in Hne.
    destruct (updated_all_skip _ _ _ _ _ _ Hrest hd [] eq_refl Hne) as [-> ->].
    simpl in Hat. destruct Hat as [Hin Hn0].
    assert (t0 = t) as ->.
    { apply elem_of_cons in Hin as [->|Hin]; [done|].
      rewrite Forall_forall in Hne. destruct (Hne t0); [by apply list_elem_of_In | done]. }
    simpl in Hlast. subst last.
    exists a'. split_and!; [|done|].
    + rewrite select_tree_cons. simpl. unfold named, is_file. simpl.
      by rewrite !bool_decide_eq_true_2.
    + simpl. constructor.
      * unfold tname. rewrite decide_True by done. done.
      * by apply (shared_off_path_skip hd []).
  - (* the folder of an interior segment *)
    destruct (unique_names_cons _ _ Hu) as (Hus & Huk & Hne).
    rewrite Hn in Hne.
    destruct (updated_all_skip _ _ _ _ _ _ Hrest hd tl eq_refl Hne) as [-> ->].
    apply at_path_inv in Hat as (t1 & Hin & Hn1 & Hcase).
    assert (t1 = t) as ->.
    { apply elem_of_cons in Hin as [->|Hin]; [done|].
      rewrite Forall_forall in Hne. destruct (Hne t1); [by apply list_elem_of_In | done]. }
    destruct Hcase as [[_ ->]|(Htl & _ & Hat)]; [congruence|].
    apply Forall_cons_1 in Hr as [Hrt _].
    pose proof (repr_kids h t Hrt) as Hrk. rewrite Hch in Hrk. destruct Hrk as [_ Hrk].
    destruct tl as [|hd' tl']; [done|]. rewrite last_cons_cons in Hlast.
    destruct (IHk h t0 last Hrk Huk Hat Hfile Hlast) as (a0 & Hsel & -> & Hsh).
    exists a0. split_and!; [|done|].
    + rewrite select_tree_cons. simpl. unfold named, is_file. simpl.
      rewrite (bool_decide_eq_true_2 (name (node t) = hd)) by done.
      rewrite (bool_decide_eq_false_2 (type (node t) = file)) by congruence.
      simpl. exact Hsel.
    + simpl. constructor.
      * unfold tname at 1. rewrite decide_True by done. done.
      * by apply (shared_off_path_skip hd (hd' :: tl')).
  - (* a node that is kept *)
    destruct (unique_names_cons _ _ Hu) as (Hus & Huk & Hne).
    apply Forall_cons_1 in Hr as [Hrt Hrts].
    apply at_path_inv in Hat as (t1 & Hin & Hn1 & Hcase).
    apply elem_of_cons in Hin as [->|Hin].
    { exfalso. destruct Hskip as [Hs|[[Hs1 Hs2]|[Hs1 Hs2]]]; [done| |].
      - destruct Hcase as [[? _]|(_ & ? & _)]; [done | congruence].
      - destruct Hcase as [[_ ->]|(_ & _ & Hat)]; [congruence|].
        pose proof (repr_kids h t Hrt) as Hrk. rewrite Hs2 in Hrk.
        rewrite Hrk in Hat. by apply at_path_nil in Hat. }
    assert (name (node t) <> hd) as Hnt.
    { intros Heq. rewrite Forall_forall in Hne.
      apply (Hne t1); [by apply list_elem_of_In | unfold tname in Hn1; congruence]. }
    destruct (IH h t0 last Hrts Hus) as (a0 & Hsel & -> & Hsh); [|done..|].
    { apply at_path_inv. by exists t1. }
    exists a0. split_and!; [|done|].
    + rewrite select_tree_cons in *. simpl. unfold named at 1.
      by rewrite bool_decide_eq_false_2.
    + simpl. constructor; [|done]. unfold tname. by rewrite decide_False.
Qed.

Lemma select_tree_repr h last parts ts t :
  Forall (repr h) ts ->
  select_tree last parts (Some ts) = Some t -> repr h t.
Proof.
  revert ts. induction parts as [|part rest IH]; intros ts Hr; [done|].
  rewrite select_tree_cons.
  destruct (find_tree (named part) ts) as [t1|] eqn:Hf; [|done].
  apply find_tree_Some in Hf as [Hin _].
  rewrite Forall_forall in Hr. specialize (Hr t1 (proj1 (list_elem_of_In _ _) Hin)).
  destruct (is_file (node t1) && bool_decide (part = last)); [by intros [= <-]|].
  pose proof (repr_kids h t1 Hr) as Hk. unfold level_of.
  destruct (children (node t1)).
  - apply IH. by destruct Hk.
  - by destruct rest.
Qed.

Lemma filter_truthy_all l :
  Forall (fun s => truthy s = true) l -> List.filter truthy l = l.
Proof. induction 1 as [|s l Hs Hl IH]; [done|]. simpl. by rewrite Hs, IH. Qed.

(** ** Footprints and frames *)

Lemma fp_unfold t :
  fp t = addr t :: match children (node t) with
                   | None => []
                   | Some arr => arr :: flat_map fp (kids t)
                   end.
Proof. by destruct t. Qed.

Lemma fp_bound h t : repr h t -> forall r, r ∈ fp t -> r < length h.
Proof.
  induction t as [a n ks IH] using tree_ind'. intros Hr r Hin.
  pose proof (repr_node _ _ Hr) as Ha. pose proof (repr_kids _ _ Hr) as Hk.
  simpl in *. apply elem_of_cons in Hin as [->|Hin].
  { by apply lookup_lt_Some in Ha. }
  destruct (children n) as [arr|]; [|by inversion Hin].
  destruct Hk as [Harr Hks].
  apply elem_of_cons in Hin as [->|Hin].
  { by apply lookup_lt_Some in Harr. }
  apply list_elem_of_In, in_flat_map in Hin as (k & Hk1 & Hk2).
  rewrite Forall_forall in IH, Hks.
  apply (IH k Hk1); [by apply Hks | by apply list_elem_of_In].
Qed.

Lemma fp_list_bound h arr ts :
  repr_list h arr ts -> forall r, r ∈ fp_list arr ts -> r < length h.
Proof.
  intros [Harr Hts] r Hin. apply elem_of_cons in Hin as [->|Hin].
  { by apply lookup_lt_Some in Harr. }
  apply list_elem_of_In, in_flat_map in Hin as (k & Hk1 & Hk2).
  rewrite Forall_forall in Hts.
  apply (fp_bound h k); [by apply Hts | by apply list_elem_of_In].
Qed.

Lemma repr_frame (h h' : heap) t :
  repr h t -> (forall r, r ∈ fp t -> h' !! r = h !! r) -> repr h' t.
Proof.
  induction t as [a n ks IH] using tree_ind'. intros Hr Hsame.
  pose proof (repr_node _ _ Hr) as Ha. pose proof (repr_kids _ _ Hr) as Hk.
  simpl in *. constructor.
  - rewrite Hsame; [done | left].
  - destruct (children n) as [arr|]; [|done].
    rewrite Hsame; [by destruct Hk | right; left].
  - destruct (children n) as [arr|]; [|subst; constructor].
    destruct Hk as [_ Hks]. rewrite Forall_forall in IH, Hks.
    apply Forall_forall. intros k Hin. apply IH; [done | by apply Hks |].
    intros r Hr'. apply Hsame. right. right.
    apply list_elem_of_In, in_flat_map. exists k. split; [done | by apply list_elem_of_In].
Qed.

(** ** [JSON.parse] builds a fresh, separate tree *)

Lemma mapM_parse_spec js :
  Forall parse_node_spec js ->
  forall h : heap, exists ts k,
    mapM JSON_parse_node js h = Ok (map addr ts, h ++ k)
    /\ Forall (repr (h ++ k)) ts /\ map erase ts = js
    /\ flat_map fp ts ≡ₚ seq (length h) (length k).
Proof.
  induction 1 as [|j js Hj Hjs IH]; intros h.
  { exists [], []. rewrite app_nil_r. split_and!; done. }
  destruct (Hj h) as (t & k1 & Hrun1 & Hr1 & He1 & Hfp1).
  destruct (IH (h ++ k1)) as (ts & k2 & Hrun2 & Hr2 & He2 & Hfp2).
  exists (t :: ts), (k1 ++ k2). rewrite app_assoc. split_and!.
  - simpl. run_step Hrun1. by run_step Hrun2.
  - constructor; [|done]. eapply repr_preserved; [apply preserved_app | done].
  - simpl. by rewrite He1, He2.
  - simpl. rewrite Hfp1, Hfp2. rewrite !length_app, seq_app. done.
Qed.

Lemma JSON_parse_node_spec j : parse_node_spec j.
Proof.
  induction j as [n t c | n t c js IH] using Json_ind'; intros h.
  - exists (TNode (length h) (mkFileNode n t c None) []), [ONode (mkFileNode n t c None)].
    split_and!; [done | | done | done].
    constructor; [apply alloc_lookup | done | constructor].
  - destruct (mapM_parse_spec js IH h) as (ts & k & Hrun & Hr & He & Hfp).
    set (a := length (h ++ k)).
    set (nd := mkFileNode n t c (Some a)).
    exists (TNode (S a) nd ts), (k ++ [OArray (map addr ts); ONode nd]).
    split_and!.
    + simpl. run_step (bind_Ok _ _ _ _ _ Hrun).
      unfold bind, alloc, ret. simpl. subst a nd.
      rewrite !length_app. simpl. rewrite <- !app_assoc. simpl.
      do 3 f_equal. lia.
    + assert (preserved (h ++ k) (h ++ k ++ [OArray (map addr ts); ONode nd])) as Hp.
      { rewrite app_assoc. apply preserved_app. }
      constructor.
      * rewrite app_assoc. rewrite lookup_app_r by (subst a; lia).
        subst a. by replace (S (length (h ++ k)) - length (h ++ k)) with 1 by lia.
      * simpl. rewrite app_assoc. rewrite lookup_app_r by (subst a; lia).
        subst a. by rewrite Nat.sub_diag.
      * eapply Forall_impl; [|exact Hr]. intros x. by apply repr_preserved.
    + simpl. by rewrite He.
    + simpl. rewrite Hfp. rewrite length_app. simpl.
      rewrite seq_app. simpl. subst a. rewrite length_app.
      rewrite <- Nat.add_succ_r.
      rewrite (Permutation_app_comm (seq _ _)). simpl.
      by rewrite Permutation_swap.
Qed.

Lemma JSON_parse_spec js (h : heap) :
  exists arr ts k,
    JSON_parse js h = Ok (arr, h ++ k)
    /\ repr_list (h ++ k) arr ts /\ map erase ts = js
    /\ fp_list arr ts ≡ₚ seq (length h) (length k).
Proof.
  destruct (mapM_parse_spec js
              (proj2 (Forall_forall _ _) (fun j _ => JSON_parse_node_spec j)) h)
    as (ts & k & Hrun & Hr & He & Hfp).
  exists (length (h ++ k)), ts, (k ++ [OArray (map addr ts)]).
  split_and!.
  - unfold JSON_parse. run_step Hrun.
    unfold alloc. by rewrite app_assoc.
  - rewrite app_assoc. split; [apply alloc_lookup|].
    eapply Forall_impl; [|exact Hr]. intros x. apply repr_preserved, preserved_app.
  - done.
  - unfold fp_list. rewrite Hfp, !length_app. simpl. rewrite seq_app. simpl.
    by rewrite (Permutation_app_comm (seq _ _)).
Qed.

(** ** Finding the first node of a level *)

Lemma find_tree_split p ts t :
  find_tree p ts = Some t ->
  exists l1 l2, ts = l1 ++ t :: l2
                /\ Forall (fun x => p (node x) = false) l1 /\ p (node t) = true.
Proof.
  induction ts as [|x ts IH]; [done|]. simpl.
  destruct (p (node x)) eqn:Hp.
  - intros [= ->]. exists [], ts. by split_and!.
  - intros H. destruct (IH H) as (l1 & l2 & -> & Hl1 & Ht).
    exists (x :: l1), l2. split_and!; [done | by constructor | done].
Qed.

Lemma findIndex_from_repr p h ts i :
  Forall (repr h) ts ->
  (exists l1 t l2, ts = l1 ++ t :: l2
      /\ Forall (fun x => p (node x) = false) l1 /\ p (node t) = true
      /\ findIndex_from i p (map addr ts) h = Ok (Some (i + length l1), h))
  \/ (Forall (fun x => p (node x) = false) ts
      /\ findIndex_from i p (map addr ts) h = Ok (None, h)).
Proof.
  intros Hr. revert i. induction Hr as [|x ts Hx Hts IH]; intros i.
  { right. by split. }
  simpl. run_step (read_node_repr h x Hx).
  destruct (p (node x)) eqn:Hp.
  - left. exists [], x, ts. split_and!; [done..|]. simpl. by rewrite Nat.add_0_r.
  - destruct (IH (S i)) as [(l1 & t & l2 & -> & Hl1 & Ht & Hrun)|[Hall Hrun]].
    + left. exists (x :: l1), t, l2. split_and!; [done | by constructor | done |].
      rewrite Hrun. simpl. do 3 f_equal. lia.
    + right. split; [by constructor | done].
Qed.

(** ** The functions of the specification on the values of trees *)

Lemma jname_erase t : jname_of (erase t) = name (node t).
Proof. by destruct t. Qed.

Lemma jtype_erase t : jtype_of (erase t) = type (node t).
Proof. by destruct t. Qed.

Lemma jcontent_erase t : jcontent_of (erase t) = content (node t).
Proof. by destruct t. Qed.

Lemma jchildren_erase t :
  jchildren_of (erase t)
  = match children (node t) with
    | None => None
    | Some _ => Some (map erase (kids t))
    end.
Proof. by destruct t. Qed.

Lemma enter_found d inside l1 t l2 :
  Forall (fun x => folder_named d (node x) = false) l1 ->
  folder_named d (node t) = true ->
  enter d inside (map erase (l1 ++ t :: l2))
  = map erase l1
    ++ JNode (name (node t)) (type (node t)) (content (node t))
             (Some (inside (default [] (jchildren_of (erase t)))))
    :: map erase l2.
Proof.
  intros Hl1 Ht. induction Hl1 as [|x l1 Hx Hl1 IH]; simpl.
  - rewrite jname_erase, jtype_erase, jcontent_erase.
    unfold folder_named, named, is_folder in Ht. by rewrite Ht.
  - rewrite jname_erase, jtype_erase.
    unfold folder_named, named, is_folder in Hx. by rewrite Hx, IH.
Qed.

Lemma enter_missing d inside ts :
  Forall (fun x => folder_named d (node x) = false) ts ->
  enter d inside (map erase ts)
  = map erase ts ++ [JNode d folder None (Some (inside []))].
Proof.
  induction 1 as [|x l1 Hx Hl1 IH]; simpl; [done|].
  rewrite jname_erase, jtype_erase.
  unfold folder_named, named, is_folder in Hx. by rewrite Hx, IH.
Qed.

Lemma put_file_found d c l1 t l2 :
  Forall (fun x => file_named d (node x) = false) l1 ->
  file_named d (node t) = true ->
  put_file_spec d c (map erase (l1 ++ t :: l2))
  = map erase l1
    ++ JNode (name (node t)) (type (node t)) (Some c) (jchildren_of (erase t))
    :: map erase l2.
Proof.
  intros Hl1 Ht. induction Hl1 as [|x l1 Hx Hl1 IH]; simpl.
  - rewrite jname_erase, jtype_erase.
    unfold file_named, named, is_file in Ht. by rewrite Ht.
  - rewrite jname_erase, jtype_erase.
    unfold file_named, named, is_file in Hx. by rewrite Hx, IH.
Qed.

Lemma put_file_missing d c ts :
  Forall (fun x => file_named d (node x) = false) ts ->
  put_file_spec d c (map erase ts)
  = map erase ts ++ [JNode d file (Some c) None].
Proof.
  induction 1 as [|x l1 Hx Hl1 IH]; simpl; [done|].
  rewrite jname_erase, jtype_erase.
  unfold file_named, named, is_file in Hx. by rewrite Hx, IH.
Qed.

(** ** Writing into a separate tree *)

Lemma fp_list_split arr l1 t l2 :
  fp_list arr (l1 ++ t :: l2)
  = arr :: flat_map fp l1 ++ fp t ++ flat_map fp l2.
Proof. unfold fp_list. by rewrite flat_map_app. Qed.

Lemma elem_of_flat_map_fp r x l : x ∈ l -> r ∈ fp x -> r ∈ flat_map fp l.
Proof.
  intros Hx Hr. apply list_elem_of_In, in_flat_map. exists x.
  split; by apply list_elem_of_In.
Qed.

(** One sibling is replaced, in place, by a tree at the same address. *)
Lemma replace_child (h h' : heap) cur l1 t t' l2 :
  repr_list h cur (l1 ++ t :: l2) ->
  NoDup (fp_list cur (l1 ++ t :: l2)) ->
  addr t' = addr t ->
  repr h' t' ->
  (forall r : ref, r < length h -> r ∉ fp t -> h' !! r = h !! r) ->
  repr_list h' cur (l1 ++ t' :: l2)
  /\ (forall r : ref, r < length h -> r ∉ fp_list cur (l1 ++ t :: l2) ->
        h' !! r = h !! r).
Proof.
  intros Hr Hnd Ha Hr' Hframe.
  pose proof (fp_list_bound h cur _ Hr) as Hb.
  rewrite fp_list_split in Hnd, Hb.
  apply list.NoDup_cons in Hnd as [Hcur Hnd].
  apply list.NoDup_app in Hnd as (Hn1 & H1 & Hnd).
  apply list.NoDup_app in Hnd as (Hnt & Ht2 & Hn2).
  destruct Hr as [Harr Hts].
  apply Forall_app in Hts as [Hts1 Hts2]. apply Forall_cons_1 in Hts2 as [_ Hts2].
  split.
  - split.
    + rewrite (Hframe cur).
      * rewrite Harr. by rewrite !map_app, !map_cons, Ha.
      * by apply lookup_lt_Some in Harr.
      * intros Hin. apply Hcur. apply elem_of_app. right. apply elem_of_app. by left.
    + apply Forall_app. split; [|constructor; [done|]].
      * rewrite Forall_forall in Hts1. apply Forall_forall. intros x Hx.
        apply repr_frame with h; [by apply Hts1|].
        intros r Hr. apply list_elem_of_In in Hx.
        pose proof (elem_of_flat_map_fp r x l1 Hx Hr) as Hin.
        apply Hframe.
        -- apply Hb. right. apply elem_of_app. by left.
        -- intros Hrt. apply (H1 r Hin). apply elem_of_app. by left.
      * rewrite Forall_forall in Hts2. apply Forall_forall. intros x Hx.
        apply repr_frame with h; [by apply Hts2|].
        intros r Hr. apply list_elem_of_In in Hx.
        pose proof (elem_of_flat_map_fp r x l2 Hx Hr) as Hin.
        apply Hframe.
        -- apply Hb. right. apply elem_of_app. right. apply elem_of_app. by right.
        -- intros Hrt. by apply (Ht2 r Hrt).
  - intros r Hlt Hout. apply Hframe; [done|].
    intros Hin. apply Hout. rewrite fp_list_split. right.
    apply elem_of_app. right. apply elem_of_app. by left.
Qed.

(** A new sibling is pushed onto the array. *)
Lemma append_child (h h' : heap) cur ts t' :
  repr_list h cur ts ->
  NoDup (fp_list cur ts) ->
  repr h' t' ->
  h' !! cur = Some (OArray (map addr ts ++ [addr t'])) ->
  (forall r : ref, r < length h -> r <> cur -> h' !! r = h !! r) ->
  repr_list h' cur (ts ++ [t']).
Proof.
  intros Hr Hnd Hr' Hcur Hframe.
  pose proof (fp_list_bound h cur _ Hr) as Hb.
  apply list.NoDup_cons in Hnd as [Hc Hnd]. destruct Hr as [Harr Hts].
  split; [by rewrite map_app|].
  apply Forall_app. split; [|by constructor].
  rewrite Forall_forall in Hts. apply Forall_forall. intros x Hx.
  apply repr_frame with h; [by apply Hts|].
  intros r Hr. apply list_elem_of_In in Hx.
  pose proof (elem_of_flat_map_fp r x ts Hx Hr) as Hin.
  apply Hframe; [apply Hb; by right | by intros ->].
Qed.

Lemma bind_assoc {A B C} (m : M A) (k1 : A -> M B) (k2 : B -> M C) h :
  bind (bind m k1) k2 h = bind m (fun a => bind (k1 a) k2) h.
Proof. unfold bind. by destruct (m h) as [[a h']|e]. Qed.

Lemma well_tagged_app l1 l2 :
  well_tagged (l1 ++ l2) <-> well_tagged l1 /\ well_tagged l2.
Proof. unfold well_tagged. rewrite flat_map_app. apply Forall_app. Qed.

Lemma well_tagged_cons t ts :
  well_tagged (t :: ts) <-> tagged t /\ well_tagged (kids t) /\ well_tagged ts.
Proof.
  unfold well_tagged. simpl. rewrite Forall_app, subtrees_unfold.
  rewrite list.Forall_cons. tauto.
Qed.

Lemma NoDup_fp_elem cur l1 t l2 :
  NoDup (fp_list cur (l1 ++ t :: l2)) -> NoDup (fp t).
Proof.
  rewrite fp_list_split. intros Hnd.
  apply list.NoDup_cons in Hnd as [_ Hnd].
  apply list.NoDup_app in Hnd as (_ & _ & Hnd).
  by apply list.NoDup_app in Hnd as (Hnd & _ & _).
Qed.

Lemma place_leaf fileName c : place_spec [] fileName c.
Proof.
  intros h cur ts Hr Hnd Hwt.
  change (place [] fileName c (Some cur) h) with (put_file (Some cur) fileName c h).
  unfold put_file. change (defined (Some cur)) with (ret (A:=ref) cur).
  change (bind (ret cur) ?k h) with (k cur h). cbv beta.
  run_step (read_array_repr h cur ts Hr).
  pose proof Hr as [Harr Hts].
  destruct (findIndex_from_repr (file_named fileName) h ts 0 Hts)
    as [(l1 & t & l2 & -> & Hl1 & Ht & Hrun)|[Hall Hrun]].
  - (* a file of that name: its content is assigned *)
    unfold findIndex. run_step Hrun. simpl plus.
    assert (map addr (l1 ++ t :: l2) !! length l1 = Some (addr t)) as ->.
    { rewrite map_app, map_cons. rewrite <- (length_map addr l1).
      apply list_lookup_middle. done. }
    change (defined (Some (addr t))) with (ret (A:=ref) (addr t)).
    change (bind (ret (addr t)) ?k h) with (k (addr t) h). cbv beta.
    assert (repr h t) as Hrt.
    { apply Forall_app in Hts as [_ Hts]. by apply Forall_cons_1 in Hts as [? _]. }
    run_step (read_node_repr h t Hrt).
    pose proof (repr_node h t Hrt) as Hat. pose proof (lookup_lt_Some _ _ _ Hat) as Hlt.
    unfold write. rewrite decide_True by done.
    set (h' := <[addr t := ONode (set_content c (node t))]> h).
    set (t' := TNode (addr t) (set_content c (node t)) (kids t)).
    pose proof (NoDup_fp_elem _ _ _ _ Hnd) as Hndt. rewrite fp_unfold in Hndt.
    apply list.NoDup_cons in Hndt as [Hta _].
    assert (forall r : ref, r < length h -> r ∉ fp t -> h' !! r = h !! r) as Hframe.
    { intros r _ Hr0. subst h'. apply list_lookup_insert_ne.
      intros <-. apply Hr0. rewrite fp_unfold. left. }
    assert (repr h' t') as Hrt'.
    { pose proof (repr_kids h t Hrt) as Hk. subst t' h'. constructor.
      - by apply list_lookup_insert_eq.
      - simpl. destruct (children (node t)) as [arr|]; [|done].
        rewrite list_lookup_insert_ne; [by destruct Hk|].
        intros <-. apply Hta. left.
      - destruct (children (node t)) as [arr|]; [|rewrite Hk; constructor].
        destruct Hk as [_ Hk]. rewrite Forall_forall in Hk.
        apply Forall_forall. intros k Hin. apply repr_frame with h; [by apply Hk|].
        intros r Hr0. apply list_lookup_insert_ne. intros <-. apply Hta. right.
        apply elem_of_flat_map_fp with k; [by apply list_elem_of_In | done]. }
    destruct (replace_child h h' cur l1 t t' l2 Hr Hnd eq_refl Hrt' Hframe)
      as [Hr' Hout].
    exists h', (l1 ++ t' :: l2). split_and!; [done | done | | | | done].
    + rewrite (put_file_found _ _ _ _ _ Hl1 Ht).
      rewrite map_app, map_cons. do 2 f_equal.
      subst t'. simpl. by rewrite jchildren_erase.
    + apply well_tagged_app in Hwt as [Hw1 Hw2].
      apply well_tagged_cons in Hw2 as (Htag & Hwk & Hw2).
      apply well_tagged_app. split; [done|]. apply well_tagged_cons. by split_and!.
    + subst h'. by rewrite length_insert.
  - (* no such file: a new node is pushed *)
    unfold findIndex. run_step Hrun.
    set (nf := mkFileNode fileName file (Some c) None).
    set (r := length h).
    set (h1 := h ++ [ONode nf]).
    assert (alloc (ONode nf) h = Ok (r, h1)) as Halloc by done.
    run_step Halloc.
    pose proof (lookup_lt_Some _ _ _ Harr) as Hcur.
    unfold push.
    assert (read_array cur h1 = Ok (map addr ts, h1)) as Hread.
    { unfold read_array. subst h1. by rewrite (lookup_app_l_Some _ _ _ _ Harr). }
    run_step Hread.
    unfold write. rewrite decide_True by (subst h1; rewrite length_app; lia).
    set (h' := <[cur := OArray (map addr ts ++ [r])]> h1).
    set (t' := TNode r nf []).
    assert (repr h' t') as Hrt'.
    { subst t' h'. constructor; [|done|constructor].
      rewrite list_lookup_insert_ne by (subst r; lia). subst h1 r. apply alloc_lookup. }
    assert (repr_list h' cur (ts ++ [t'])) as Hr'.
    { apply (append_child h h' cur ts t' Hr Hnd Hrt').
      - subst h'. apply list_lookup_insert_eq. subst h1. rewrite length_app. lia.
      - intros r0 Hr0 Hne. subst h'. rewrite list_lookup_insert_ne by done.
        subst h1. by apply lookup_app_l. }
    exists h', (ts ++ [t']). split_and!; [done | done | | | |].
    + rewrite (put_file_missing _ _ _ Hall). by rewrite map_app.
    + apply well_tagged_app. split; [done|]. apply well_tagged_cons.
      split_and!; [done | constructor | constructor].
    + subst h' h1. rewrite length_insert, length_app. lia.
    + intros r0 Hr0 Hout. subst h'. rewrite list_lookup_insert_ne.
      * subst h1. by apply lookup_app_l.
      * intros <-. apply Hout. left.
Qed.

Lemma bind_ext {A B} (m : M A) (k1 k2 : A -> M B) h :
  (forall a h', k1 a h' = k2 a h') -> bind m k1 h = bind m k2 h.
Proof. intros H. unfold bind. by destruct (m h) as [[a h']|e]. Qed.

Lemma place_cons part rest fileName c cur h :
  place (part :: rest) fileName c (Some cur) h
  = bind (read_array cur) (fun elems =>
      bind (find_node (folder_named part) elems) (fun found =>
        bind (match found with
              | Some (_, fnode) => ret (children fnode)
              | None =>
                  bind (alloc (OArray [])) (fun ch =>
                    bind (alloc (ONode (mkFileNode part folder None (Some ch))))
                      (fun r => bind (push cur r) (fun _ => ret (Some ch))))
              end)
          (fun next => place rest fileName c next))) h.
Proof.
  unfold place at 1. simpl folders_loop.
  change (defined (Some cur)) with (ret (A:=ref) cur).
  rewrite bind_assoc. change (bind (ret cur) ?k h) with (k cur h). cbv beta.
  rewrite bind_assoc. apply bind_ext. intros elems h1.
  rewrite bind_assoc. apply bind_ext. intros found h2.
  by rewrite bind_assoc.
Qed.

Lemma place_step part rest fileName c :
  place_spec rest fileName c -> place_spec (part :: rest) fileName c.
Proof.
  intros IH h cur ts Hr Hnd Hwt. rewrite place_cons.
  run_step (read_array_repr h cur ts Hr).
  pose proof Hr as [Harr Hts].
  run_step (find_node_repr _ h ts Hts).
  destruct (find_tree (folder_named part) ts) as [t|] eqn:Hfind.
  - (* the folder exists: descend into its children *)
    apply find_tree_split in Hfind as (l1 & l2 & -> & Hl1 & Ht).
    simpl fmap. cbv iota beta.
    change (bind (ret (children (node t))) ?k h) with (k (children (node t)) h).
    cbv beta.
    assert (repr h t) as Hrt.
    { apply Forall_app in Hts as [_ Hts]. by apply Forall_cons_1 in Hts as [? _]. }
    pose proof Hwt as Hwt0.
    apply well_tagged_app in Hwt as [Hw1 Hw2].
    apply well_tagged_cons in Hw2 as (Htag & Hwk & Hw2).
    assert (type (node t) = folder) as Hty.
    { unfold folder_named, is_folder in Ht. apply andb_true_iff in Ht as [_ Ht].
      by apply bool_decide_eq_true in Ht. }
    pose proof (repr_kids h t Hrt) as Hk.
    destruct (children (node t)) as [ch|] eqn:Hch.
    2:{ unfold tagged in Htag. rewrite Hch in Htag.
        rewrite (proj2 Htag eq_refl) in Hty. done. }
    pose proof (NoDup_fp_elem _ _ _ _ Hnd) as Hndt. rewrite fp_unfold, Hch in Hndt.
    apply list.NoDup_cons in Hndt as [Hta Hndk].
    destruct (IH h ch (kids t) Hk Hndk Hwk)
      as (h' & ks' & Hrun & Hrk' & Hek & Hwk' & Hlen & Hframek).
    set (t' := TNode (addr t) (node t) ks').
    assert (forall r : ref, r < length h -> r ∉ fp t -> h' !! r = h !! r) as Hframe.
    { intros r Hr0 Hout. apply Hframek; [done|]. intros Hin. apply Hout.
      rewrite fp_unfold, Hch. by right. }
    assert (repr h' t') as Hrt'.
    { subst t'. constructor.
      - rewrite Hframek; [by apply repr_node | | done].
        exact (lookup_lt_Some _ _ _ (repr_node h t Hrt)).
      - rewrite Hch. by destruct Hrk'.
      - by destruct Hrk'. }
    destruct (replace_child h h' cur l1 t t' l2 Hr Hnd eq_refl Hrt' Hframe)
      as [Hr' Hout].
    exists h', (l1 ++ t' :: l2). split_and!; [done | done | | | done | done].
    + simpl findOrCreate_spec. rewrite (enter_found _ _ _ _ _ Hl1 Ht).
      rewrite map_app, map_cons. do 2 f_equal.
      subst t'. simpl. rewrite Hch. rewrite jchildren_erase, Hch. simpl.
      by rewrite Hek.
    + apply well_tagged_app. split; [done|]. apply well_tagged_cons. by split_and!.
  - (* no such folder: a new one is pushed, and the walk goes on inside *)
    apply find_tree_None in Hfind. simpl fmap. cbv iota beta.
    set (a := length h).
    set (nd := mkFileNode part folder None (Some a)).
    set (r := S (length h)).
    set (h1 := h ++ [OArray []; ONode nd]).
    set (h2 := <[cur := OArray (map addr ts ++ [r])]> h1).
    pose proof (lookup_lt_Some _ _ _ Harr) as Hcur.
    assert (length h1 = S (S (length h))) as Hlen1.
    { subst h1. rewrite length_app. simpl. lia. }
    assert (bind (alloc (OArray [])) (fun ch =>
              bind (alloc (ONode (mkFileNode part folder None (Some ch))))
                (fun r => bind (push cur r) (fun _ => ret (Some ch)))) h
            = Ok (Some a, h2)) as Hstep.
    { unfold bind at 1. unfold alloc at 1. unfold bind at 1. unfold alloc at 1.
      rewrite length_app. simpl length. rewrite Nat.add_1_r.
      rewrite <- app_assoc. simpl app. fold a nd r h1.
      unfold push. rewrite bind_assoc.
      assert (read_array cur h1 = Ok (map addr ts, h1)) as Hread.
      { unfold read_array. subst h1. by rewrite (lookup_app_l_Some _ _ _ _ Harr). }
      run_step Hread.
      unfold bind, write. rewrite decide_True by lia. done. }
    run_step Hstep.
    assert (h2 !! a = Some (OArray [])) as Ha2.
    { subst h2. rewrite list_lookup_insert_ne by (subst a; lia).
      subst h1 a. rewrite lookup_app_r by lia. by rewrite Nat.sub_diag. }
    assert (h2 !! r = Some (ONode nd)) as Hr2.
    { subst h2. rewrite list_lookup_insert_ne by (subst r; lia).
      subst h1 r. rewrite lookup_app_r by lia.
      by replace (S (length h) - length h) with 1 by lia. }
    assert (length h2 = S (S (length h))) as Hlen2.
    { subst h2. by rewrite length_insert. }
    destruct (IH h2 a []) as (h' & ks' & Hrun & Hrk' & Hek & Hwk' & Hlen & Hframek).
    { by split. }
    { apply NoDup_singleton. }
    { constructor. }
    set (t' := TNode r nd ks').
    assert (repr h' t') as Hrt'.
    { subst t'. constructor.
      - rewrite Hframek; [done | lia |].
        intros Hin. apply list_elem_of_singleton in Hin. subst r a. lia.
      - simpl. by destruct Hrk'.
      - by destruct Hrk'. }
    assert (repr_list h' cur (ts ++ [t'])) as Hr'.
    { apply (append_child h h' cur ts t' Hr Hnd Hrt').
      - rewrite Hframek; [| lia |].
        + subst h2. apply list_lookup_insert_eq. lia.
        + intros Hin. apply list_elem_of_singleton in Hin. subst a. lia.
      - intros r0 Hr0 Hne. rewrite Hframek; [| lia |].
        + subst h2. rewrite list_lookup_insert_ne by done.
          subst h1. by apply lookup_app_l.
        + intros Hin. apply list_elem_of_singleton in Hin. subst a. lia. }
    exists h', (ts ++ [t']). split_and!; [done | done | | | lia |].
    + simpl findOrCreate_spec. rewrite (enter_missing _ _ _ Hfind).
      rewrite map_app. f_equal. subst t'. simpl. by rewrite Hek.
    + apply well_tagged_app. split; [done|]. apply well_tagged_cons.
      split_and!; [done | done | constructor].
    + intros r0 Hr0 Hout. rewrite Hframek; [| lia |].
      * subst h2. rewrite list_lookup_insert_ne.
        -- subst h1. by apply lookup_app_l.
        -- intros <-. apply Hout. left.
      * intros Hin. apply list_elem_of_singleton in Hin. subst a. lia.
Qed.

Lemma place_ok parts fileName c : place_spec parts fileName c.
Proof.
  induction parts as [|part rest IH]; [apply place_leaf | by apply place_step].
Qed.

(** ** The copy has the tags of the original *)

Lemma well_tagged_like h ts1 :
  Forall (tagged_like h) ts1 ->
  Forall (repr h) ts1 ->
  forall ts, map erase ts1 = map erase ts -> well_tagged ts -> well_tagged ts1.
Proof.
  induction 1 as [|t1 ts1 Ht1 Hts1 IH]; intros Hr ts He Hwt; [constructor|].
  destruct ts as [|t ts]; [done|]. simpl in He. injection He as He1 He2.
  apply Forall_cons_1 in Hr as [Hr1 Hr2].
  apply well_tagged_cons in Hwt as (Htag & Hwk & Hwt).
  destruct (Ht1 Hr1 t He1 Htag Hwk) as [Htag1 Hwk1].
  apply well_tagged_cons. split_and!; [done | done | by apply (IH Hr2 ts)].
Qed.

Lemma tagged_like_all h t1 : tagged_like h t1.
Proof.
  induction t1 as [a1 n1 ks1 IH] using tree_ind'.
  intros Hr [a n ks] He Htag Hwk. simpl in *.
  pose proof (repr_kids _ _ Hr) as Hk. simpl in Hk.
  injection He as Hn Hty Hc Hch. unfold tagged in *. simpl in *.
  destruct (children n1) as [c1|], (children n) as [c0|]; try done.
  - injection Hch as Hch. rewrite Hty.
    split; [split; [intros H; by apply Htag in H | done] |].
    destruct Hk as [_ Hk]. by apply (well_tagged_like h ks1 IH Hk ks).
  - rewrite Hty. split; [done|]. subst ks1. constructor.
Qed.

Lemma well_tagged_erase h ts1 ts :
  Forall (repr h) ts1 -> map erase ts1 = map erase ts ->
  well_tagged ts -> well_tagged ts1.
Proof.
  intros Hr He Hwt. eapply well_tagged_like; [|done|done|done].
  apply Forall_forall. intros t _. apply tagged_like_all.
Qed.

(** ** [findOrCreateFile] *)

Lemma pop_Some {A} (l p : list A) (x : A) : pop l = Some (p, x) -> l = p ++ [x].
Proof.
  unfold pop. destruct (rev l) as [|y r] eqn:Hrev; [done|].
  intros [= <- <-]. rewrite <- (rev_involutive l), Hrev. done.
Qed.

Lemma pop_app {A} (p : list A) (x : A) : pop (p ++ [x]) = Some (p, x).
Proof. unfold pop. rewrite rev_app_distr. simpl. by rewrite rev_involutive. Qed.

Lemma parts_of_truthy path : Forall (fun s => truthy s = true) (parts_of path).
Proof.
  unfold parts_of. apply Forall_forall. intros s Hs.
  by apply filter_In in Hs as [_ Hs].
Qed.

Lemma findOrCreateFile_spec fuel (h : heap) nodes ts path c :
  repr_list h nodes ts ->
  well_tagged ts ->
  heights ts < fuel ->
  exists newNodes h' ts',
    findOrCreateFile fuel nodes path c h = Ok (newNodes, h')
    /\ preserved h h'
    /\ h !! newNodes = None
    /\ repr_list h' newNodes ts'
    /\ well_tagged ts'
    /\ map erase ts' = findOrCreate_value (parts_of path) c (map erase ts).
Proof.
  intros Hr Hwt Hfuel. unfold findOrCreateFile, findOrCreate_value.
  run_step (JSON_stringify_repr fuel h nodes ts Hr Hfuel).
  destruct (JSON_parse_spec (map erase ts) h) as (arr & ts1 & k & Hrun & Hr1 & He1 & Hfp).
  run_step Hrun.
  assert (well_tagged ts1) as Hwt1.
  { destruct Hr1 as [_ Hr1]. by apply (well_tagged_erase (h ++ k) ts1 ts). }
  assert (forall r : ref, r ∈ fp_list arr ts1 -> length h <= r) as Hfresh.
  { intros r Hin. rewrite Hfp in Hin. apply elem_of_seq in Hin. lia. }
  assert (h !! arr = None) as Harr.
  { apply lookup_ge_None, Hfresh. left. }
  destruct (pop (parts_of path)) as [[folders fileName]|] eqn:Hpop.
  2:{ exists arr, (h ++ k), ts1.
      split_and!; [done | apply preserved_app | done | done | done | done]. }
  assert (truthy fileName = true) as Hfn.
  { pose proof (parts_of_truthy path) as Hall. rewrite (pop_Some _ _ _ Hpop) in Hall.
    apply Forall_app in Hall as [_ Hall]. by apply Forall_cons_1 in Hall as [? _]. }
  rewrite Hfn.
  destruct (place_ok folders fileName c (h ++ k) arr ts1 Hr1) as
    (h' & ts' & Hplace & Hr' & He' & Hwt' & Hlen & Hframe); [|done|].
  { rewrite Hfp. apply NoDup_seq. }
  change (negb true) with false. cbv iota.
  run_step Hplace.
  exists arr, h', ts'. split_and!; [done | | done | done | done | by rewrite He', He1].
  intros r o Hro. pose proof (lookup_lt_Some _ _ _ Hro) as Hlt.
  rewrite Hframe.
  - by apply lookup_app_l_Some.
  - rewrite length_app. lia.
  - intros Hin. apply Hfresh in Hin. lia.
Qed.

(** ** Values *)

Lemma value_of_repr h nodes ts :
  repr_list h nodes ts -> value_of h nodes (map erase ts).
Proof.
  intros Hr. exists (S (heights ts)). intros fuel Hfuel.
  apply JSON_stringify_repr; [done | lia].
Qed.

Lemma value_of_unique h nodes js1 js2 :
  value_of h nodes js1 -> value_of h nodes js2 -> js1 = js2.
Proof.
  intros [N1 H1] [N2 H2].
  specialize (H1 (Nat.max N1 N2) ltac:(lia)). specialize (H2 (Nat.max N1 N2) ltac:(lia)).
  congruence.
Qed.

(** ** What [findOrCreate_spec] does to a value *)

Lemma put_file_spec_idem f c js :
  put_file_spec f c (put_file_spec f c js) = put_file_spec f c js.
Proof.
  induction js as [|j js IH]; simpl.
  - by rewrite !bool_decide_eq_true_2.
  - destruct (bool_decide (jname_of j = f) && bool_decide (jtype_of j = file)) eqn:Hj;
      simpl; rewrite Hj; [done | by rewrite IH].
Qed.

Lemma enter_idem d inside js :
  (forall js, inside (inside js) = inside js) ->
  enter d inside (enter d inside js) = enter d inside js.
Proof.
  intros Hin. induction js as [|j js IH]; simpl.
  - rewrite !bool_decide_eq_true_2 by done. simpl. by rewrite Hin.
  - destruct (bool_decide (jname_of j = d) && bool_decide (jtype_of j = folder)) eqn:Hj;
      simpl; rewrite Hj; [simpl; by rewrite Hin | by rewrite IH].
Qed.

Lemma findOrCreate_spec_idem folders f c js :
  findOrCreate_spec folders f c (findOrCreate_spec folders f c js)
  = findOrCreate_spec folders f c js.
Proof.
  revert js. induction folders as [|d rest IH]; intros js; simpl.
  - apply put_file_spec_idem.
  - by apply enter_idem.
Qed.

Lemma findOrCreate_value_idem parts c js :
  findOrCreate_value parts c (findOrCreate_value parts c js)
  = findOrCreate_value parts c js.
Proof.
  unfold findOrCreate_value. destruct (pop parts) as [[folders f]|]; [|done].
  apply findOrCreate_spec_idem.
Qed.

Lemma jtagged_erase t : tagged t -> well_tagged (kids t) -> jtagged (erase t).
Proof.
  induction t as [a n ks IH] using tree_ind'. unfold tagged. simpl.
  intros Htag Hwk. destruct (children n) as [ch|] eqn:Hch.
  - destruct (type n) eqn:Hty; [by pose proof (proj1 Htag eq_refl)|].
    constructor. apply Forall_forall. intros j Hj.
    apply in_map_iff in Hj as (k & <- & Hk).
    rewrite Forall_forall in IH.
    destruct (well_tagged_elem ks k Hwk (proj2 (list_elem_of_In _ _) Hk)).
    by apply IH.
  - rewrite (proj2 Htag eq_refl). constructor.
Qed.

Lemma jtagged_map_erase ts : well_tagged ts -> Forall jtagged (map erase ts).
Proof.
  intros Hwt. apply Forall_forall. intros j Hj.
  apply in_map_iff in Hj as (k & <- & Hk).
  destruct (well_tagged_elem ts k Hwt (proj2 (list_elem_of_In _ _) Hk)).
  by apply jtagged_erase.
Qed.

(** ** Nothing is deleted *)

Lemma kept_refl j : kept j j.
Proof.
  induction j as [n t c | n t c js IH] using Json_ind'; [by constructor|].
  rewrite <- (app_nil_r js) at 2. constructor; [done|].
  induction IH; by constructor.
Qed.

Lemma Forall2_kept_refl js : Forall2 kept js js.
Proof. induction js; constructor; [apply kept_refl | done]. Qed.

Lemma kept_list_refl js : kept_list js js.
Proof. exists js, []. split; [by rewrite app_nil_r | apply Forall2_kept_refl]. Qed.

Lemma kept_list_cons j j' js js' :
  kept j j' -> kept_list js js' -> kept_list (j :: js) (j' :: js').
Proof.
  intros Hj (js1 & extra & -> & Hjs). exists (j' :: js1), extra.
  split; [done | by constructor].
Qed.

Lemma kept_set_content j c :
  jtype_of j = file ->
  kept j (JNode (jname_of j) (jtype_of j) (Some c) (jchildren_of j)).
Proof.
  destruct j as [n t c0 [js|]]; simpl; intros ->.
  - rewrite <- (app_nil_r js) at 2. constructor; [done | apply Forall2_kept_refl].
  - by constructor.
Qed.

Lemma kept_put_file f c js : kept_list js (put_file_spec f c js).
Proof.
  induction js as [|j js IH]; simpl.
  - exists [], [JNode f file (Some c) None]. split; [done | constructor].
  - destruct (bool_decide (jname_of j = f)); simpl;
      [|apply kept_list_cons; [apply kept_refl | done]].
    destruct (bool_decide (jtype_of j = file)) eqn:Hty; simpl;
      [|apply kept_list_cons; [apply kept_refl | done]].
    apply bool_decide_eq_true in Hty.
    apply kept_list_cons; [by apply kept_set_content | apply kept_list_refl].
Qed.

Lemma kept_enter d inside js :
  Forall jtagged js ->
  (forall js, Forall jtagged js -> kept_list js (inside js)) ->
  kept_list js (enter d inside js).
Proof.
  intros Hjs Hin. induction Hjs as [|j js Hj Hjs IH]; simpl.
  - exists [], [JNode d folder None (Some (inside []))]. split; [done | constructor].
  - destruct (bool_decide (jname_of j = d)); simpl;
      [|apply kept_list_cons; [apply kept_refl | done]].
    destruct (bool_decide (jtype_of j = folder)) eqn:Hty; simpl;
      [|apply kept_list_cons; [apply kept_refl | done]].
    apply bool_decide_eq_true in Hty.
    apply kept_list_cons; [|apply kept_list_refl].
    destruct Hj as [n c|n c cs Hcs]; [done|]. simpl.
    destruct (Hin cs Hcs) as (cs1 & extra & -> & Hk). by constructor.
Qed.

Lemma kept_findOrCreate_spec folders f c js :
  Forall jtagged js -> kept_list js (findOrCreate_spec folders f c js).
Proof.
  revert js. induction folders as [|d rest IH]; intros js Hjs; simpl.
  - apply kept_put_file.
  - by apply kept_enter.
Qed.

Lemma kept_findOrCreate_value parts c js :
  Forall jtagged js -> kept_list js (findOrCreate_value parts c js).
Proof.
  intros Hjs. unfold findOrCreate_value.
  destruct (pop parts) as [[folders f]|]; [|apply kept_list_refl].
  by apply kept_findOrCreate_spec.
Qed.

Lemma kept_updated c path ts f ts' f' :
  updated c path ts f ts' f' -> Forall2 kept (map erase ts) (map erase ts').
Proof.
  intros Hupd; induction_updated Hupd; simpl.
  - apply Forall2_kept_refl.
  - constructor.
  - constructor; [|done]. destruct t as [a n ks]. simpl in *.
    destruct (children n).
    + rewrite <- (app_nil_r (map erase ks)) at 2.
      constructor; [congruence | apply Forall2_kept_refl].
    + constructor. congruence.
  - constructor; [|done]. destruct t as [a n ks]. simpl in *. rewrite Hch.
    rewrite <- (app_nil_r (map erase ks')). by constructor.
  - constructor; [apply kept_refl | done].
Qed.

(** ** Missing folders are created in order, after the siblings *)

Lemma findOrCreate_spec_nil folders f c :
  findOrCreate_spec folders f c [] = [fresh_chain folders f c].
Proof. induction folders as [|d rest IH]; simpl; [done | by rewrite IH]. Qed.

Lemma enter_no_folder d inside js :
  no_folder d js ->
  enter d inside js = js ++ [JNode d folder None (Some (inside []))].
Proof.
  induction 1 as [|j js Hj Hjs IH]; simpl; [done|].
  destruct (decide (jname_of j = d)) as [Hn|Hn];
    [|rewrite bool_decide_eq_false_2 by done; simpl; by rewrite IH].
  destruct (decide (jtype_of j = folder)) as [Ht|Ht]; [by destruct Hj|].
  rewrite (bool_decide_eq_false_2 (jtype_of j = folder)) by done.
  rewrite andb_false_r. by rewrite IH.
Qed.

Lemma folder_children_enter p inside js ch :
  folder_children p js = Some ch ->
  folder_children p (enter p inside js) = Some (inside ch).
Proof.
  induction js as [|j js IH]; simpl; [done|].
  destruct (bool_decide (jname_of j = p) && bool_decide (jtype_of j = folder)) eqn:Hj;
    simpl; rewrite Hj; [|done].
  intros ->. done.
Qed.

Lemma level_at_missing pre d rest f c js L :
  level_at pre js = Some L ->
  no_folder d L ->
  level_at pre (findOrCreate_spec (pre ++ d :: rest) f c js)
  = Some (L ++ [fresh_chain (d :: rest) f c]).
Proof.
  revert js. induction pre as [|p pre IH]; intros js; simpl.
  - intros [= ->] Hno. rewrite (enter_no_folder _ _ _ Hno).
    by rewrite findOrCreate_spec_nil.
  - destruct (folder_children p js) as [ch|] eqn:Hch; [|done].
    intros HL Hno. rewrite (folder_children_enter _ _ _ _ Hch). by apply IH.
Qed.

Lemma findOrCreateFile_level fuel (h : heap) nodes ts path c pre d rest f L :
  repr_list h nodes ts ->
  well_tagged ts ->
  heights ts < fuel ->
  parts_of path = pre ++ d :: rest ++ [f] ->
  level_at pre (map erase ts) = Some L ->
  no_folder d L ->
  exists newNodes h' js',
    findOrCreateFile fuel nodes path c h = Ok (newNodes, h')
    /\ value_of h' newNodes js'
    /\ level_at pre js' = Some (L ++ [fresh_chain (d :: rest) f c]).
Proof.
  intros Hr Hwt Hfuel Hparts HL Hno.
  destruct (findOrCreateFile_spec fuel h nodes ts path c Hr Hwt Hfuel)
    as (newNodes & h' & ts' & Hrun & _ & _ & Hr' & _ & He).
  exists newNodes, h', (map erase ts').
  split_and!; [done | by apply value_of_repr |].
  rewrite He, Hparts. unfold findOrCreate_value.
  replace (pre ++ d :: rest ++ [f]) with ((pre ++ d :: rest) ++ [f])
    by by rewrite <- app_assoc.
  rewrite pop_app. by apply level_at_missing.
Qed.

Lemma findOrCreateFile_described h nodes ts path c fuel :
  repr_list h nodes ts ->
  well_tagged ts ->
  heights ts < fuel ->
  exists newNodes h' js',
    findOrCreateFile fuel nodes path c h = Ok (newNodes, h')
    /\ value_of h' newNodes js'
    /\ js' = findOrCreate_value (parts_of path) c (map erase ts)
    /\ creates_missing (parts_of path) c (map erase ts) js'.
Proof.
  intros Hr Hwt Hfuel.
  destruct (findOrCreateFile_spec fuel h nodes ts path c Hr Hwt Hfuel)
    as (newNodes & h' & ts' & Hrun & _ & _ & Hr' & _ & He).
  exists newNodes, h', (map erase ts').
  split_and!; [done | by apply value_of_repr | done |].
  intros pre d rest f L Hparts HL Hno.
  destruct (findOrCreateFile_level fuel h nodes ts path c pre d rest f L
              Hr Hwt Hfuel Hparts HL Hno) as (n2 & h2 & js2 & Hrun2 & Hv2 & Hl2).
  rewrite Hrun in Hrun2. injection Hrun2 as <- <-.
  by rewrite (value_of_unique _ _ _ _ (value_of_repr _ _ _ Hr') Hv2).
Qed.

Lemma initial_erase : map erase initial_tree = INITIAL_FILE_STRUCTURE.
Proof. reflexivity. Qed.

Lemma initial_valid_names : valid_names initial_tree.
Proof. unfold valid_names. simpl. by repeat constructor. Qed.

Lemma initial_heights : heights initial_tree < 3.
Proof. vm_compute. lia. Qed.

Lemma NoDup_map_inj {A B} (f : A -> B) (l : list A) x y :
  NoDup (map f l) -> x ∈ l -> y ∈ l -> f x = f y -> x = y.
Proof.
  induction l as [|a l IH]; intros Hnd Hx Hy Hf; [by inversion Hx|].
  simpl in Hnd. pose proof (NoDup_cons_1_1 _ _ Hnd) as Ha.
  apply NoDup_cons_1_2 in Hnd.
  apply elem_of_cons in Hx as [->|Hx]; apply elem_of_cons in Hy as [->|Hy].
  - done.
  - destruct Ha. rewrite Hf. by apply (list_elem_of_fmap_2 f).
  - destruct Ha. rewrite <- Hf. by apply (list_elem_of_fmap_2 f).
  - by apply IH.
Qed.

Lemma no_folder_beside_file d L j :
  NoDup (map jname_of L) -> j ∈ L -> jname_of j = d -> jtype_of j = file ->
  no_folder d L.
Proof.
  intros Hnd Hj Hn Ht. apply Forall_forall. intros j' Hj' [Hn' Ht'].
  apply list_elem_of_In in Hj'.
  assert (j' = j) as -> by (apply (NoDup_map_inj jname_of L); congruence).
  congruence.
Qed.

(** ** The update and the first match *)

Lemma lookup_spec_cons hd tl ts :
  lookup_spec (hd :: tl) ts
  = match find_tree (named hd) ts with
    | None => Miss
    | Some t =>
        match tl with
        | [] => Hit t
        | _ :: _ =>
            match type (node t) with
            | folder => lookup_spec tl (kids t)
            | file => FileInside t
            end
        end
    end.
Proof. done. Qed.

Lemma lookup_spec_nil parts : lookup_spec parts [] = Miss.
Proof. by destruct parts. Qed.

Lemma lookup_spec_at_path path ts t0 :
  lookup_spec path ts = Hit t0 -> at_path path ts t0.
Proof.
  revert ts. induction path as [|hd tl IH]; intros ts; [done|].
  rewrite lookup_spec_cons.
  destruct (find_tree (named hd) ts) as [t|] eqn:Hf; [|done].
  apply find_tree_Some in Hf as [Hin Hn]. apply bool_decide_eq_true in Hn.
  intros Hw. apply at_path_inv. exists t. split_and!; [done | done |].
  destruct tl as [|hd' tl']; [left; by injection Hw as -> | right].
  destruct (type (node t)) eqn:Hty; [done|]. split_and!; [done | done | by apply IH].
Qed.

(** The node the lookup of the specification reaches is replaced by a node
    that the walk of [findAndSelectFile] reaches in the new tree. *)
Lemma updated_first_match c path ts f ts' f' :
  updated c path ts f ts' f' ->
  forall h t0 last,
    Forall (repr h) ts ->
    lookup_spec path ts = Hit t0 -> type (node t0) = file ->
    List.last path empty_string = last ->
    exists a',
      select_tree last path (Some ts')
      = Some (TNode a' (set_content c (node t0)) (kids t0)).
Proof.
  intros Hupd; induction_updated Hupd;
    intros h t0 last Hr Hw Hfile Hlast.
  - done.
  - by rewrite lookup_spec_nil in Hw.
  - rewrite lookup_spec_cons in Hw. simpl in Hw. unfold named in Hw.
    rewrite bool_decide_eq_true_2 in Hw by done. injection Hw as <-.
    simpl in Hlast. subst last. exists a'.
    rewrite select_tree_cons. simpl. unfold named, is_file. simpl.
    by rewrite !bool_decide_eq_true_2.
  - rewrite lookup_spec_cons in Hw. simpl in Hw. unfold named in Hw.
    rewrite bool_decide_eq_true_2 in Hw by done.
    destruct tl as [|hd' tl']; [injection Hw as <-; congruence|].
    rewrite Hty in Hw. rewrite last_cons_cons in Hlast.
    apply Forall_cons_1 in Hr as [Hrt _].
    pose proof (repr_kids h t Hrt) as Hrk. rewrite Hch in Hrk. destruct Hrk as [_ Hrk].
    destruct (IHk h t0 last Hrk Hw Hfile Hlast) as (a0 & Hsel).
    exists a0. rewrite select_tree_cons. simpl. unfold named, is_file. simpl.
    rewrite (bool_decide_eq_true_2 (name (node t) = hd)) by done.
    rewrite (bool_decide_eq_false_2 (type (node t) = file)) by congruence.
    simpl. exact Hsel.
  - apply Forall_cons_1 in Hr as [Hrt Hrts].
    rewrite lookup_spec_cons in Hw. simpl in Hw. unfold named in Hw.
    destruct (decide (name (node t) = hd)) as [Hnt|Hnt].
    + exfalso. rewrite bool_decide_eq_true_2 in Hw by done.
      destruct Hskip as [Hs|[[Hs1 Hs2]|[Hs1 Hs2]]]; [done| |].
      * destruct tl; [done|]. by rewrite Hs1 in Hw.
      * destruct tl as [|hd' tl']; [injection Hw as <-; congruence|].
        rewrite Hs1 in Hw. pose proof (repr_kids h t Hrt) as Hrk.
        rewrite Hs2 in Hrk. rewrite Hrk in Hw. by rewrite lookup_spec_nil in Hw.
    + rewrite bool_decide_eq_false_2 in Hw by done.
      destruct (IH h t0 last Hrts) as (a0 & Hsel); [by rewrite lookup_spec_cons | done..|].
      exists a0. rewrite select_tree_cons in *. simpl. unfold named at 1.
      by rewrite bool_decide_eq_false_2.
Qed.

(** * The handlers and compositions of the tree operations *)

Lemma bind_inv {A B} (m : M A) (k : A -> M B) h b h' :
  bind m k h = Ok (b, h') -> exists a h1, m h = Ok (a, h1) /\ k a h1 = Ok (b, h').
Proof.
  unfold bind. destruct (m h) as [[a h1]|e]; [|done]. intros H. by exists a, h1.
Qed.

(** ** Looking up what [findOrCreateFile] has placed *)

Lemma find_named_put_file f c ts' js :
  map erase ts' = put_file_spec f c js ->
  Forall (fun j => jname_of j = f -> jtype_of j = file) js ->
  exists t, find_tree (named f) ts' = Some t
            /\ name (node t) = f /\ type (node t) = file /\ content (node t) = Some c.
Proof.
  revert ts'. induction js as [|j js IH]; intros ts' He Hk; simpl in He.
  - destruct ts' as [|t [|]]; try done. injection He as He.
    exists t. pose proof (jname_erase t) as Hn. pose proof (jtype_erase t) as Ht.
    pose proof (jcontent_erase t) as Hc. rewrite He in Hn, Ht, Hc. simpl in *.
    split_and!; try done. simpl. unfold named. by rewrite bool_decide_eq_true_2.
  - apply Forall_cons_1 in Hk as [Hj Hk].
    destruct ts' as [|t ts']; [by destruct (_ && _)|].
    pose proof (jname_erase t) as Hn. pose proof (jtype_erase t) as Ht.
    pose proof (jcontent_erase t) as Hc.
    destruct (bool_decide (jname_of j = f) && bool_decide (jtype_of j = file)) eqn:Htest.
    + injection He as He _. rewrite He in Hn, Ht, Hc. simpl in *.
      apply andb_true_iff in Htest as [Hnf Htf].
      apply bool_decide_eq_true_1 in Hnf. apply bool_decide_eq_true_1 in Htf.
      exists t. split_and!; try congruence.
      unfold named. rewrite bool_decide_eq_true_2; [done | congruence].
    + injection He as He He'. rewrite He in Hn, Ht.
      assert (named f (node t) = false) as Hnot.
      { unfold named. apply bool_decide_eq_false_2. intros Heq.
        rewrite <- Hn in Heq. specialize (Hj Heq).
        rewrite bool_decide_eq_true_2 in Htest by done.
        by rewrite bool_decide_eq_true_2 in Htest. }
      simpl. rewrite Hnot. by apply IH.
Qed.

Lemma find_named_enter d inside ts' js :
  map erase ts' = enter d inside js ->
  Forall (fun j => jname_of j = d -> jtype_of j = folder) js ->
  exists t ch, find_tree (named d) ts' = Some t
            /\ type (node t) = folder /\ children (node t) = Some ch
            /\ map erase (kids t) = inside (default [] (folder_children d js)).
Proof.
  revert ts'. induction js as [|j js IH]; intros ts' He Hk; simpl in He.
  - destruct ts' as [|t [|]]; try done. injection He as He.
    pose proof (jname_erase t) as Hn. pose proof (jtype_erase t) as Ht.
    pose proof (jchildren_erase t) as Hc. rewrite He in Hn, Ht, Hc. simpl in *.
    destruct (children (node t)) as [ch|] eqn:Hch; [|done].
    exists t, ch. split_and!; try done; [|congruence].
    simpl. unfold named. by rewrite bool_decide_eq_true_2.
  - apply Forall_cons_1 in Hk as [Hj Hk].
    destruct ts' as [|t ts']; [by destruct (_ && _)|].
    pose proof (jname_erase t) as Hn. pose proof (jtype_erase t) as Ht.
    pose proof (jchildren_erase t) as Hc.
    simpl. destruct (bool_decide (jname_of j = d) && bool_decide (jtype_of j = folder))
      eqn:Htest.
    + injection He as He _. rewrite He in Hn, Ht, Hc. simpl in *.
      apply andb_true_iff in Htest as [Hnf Htf].
      apply bool_decide_eq_true_1 in Hnf. apply bool_decide_eq_true_1 in Htf.
      destruct (children (node t)) as [ch|] eqn:Hch; [|done].
      exists t, ch. split_and!; try congruence.
      unfold named. rewrite bool_decide_eq_true_2; [done | congruence].
    + injection He as He He'. rewrite He in Hn, Ht.
      assert (named d (node t) = false) as Hnot.
      { unfold named. apply bool_decide_eq_false_2. intros Heq.
        rewrite <- Hn in Heq. specialize (Hj Heq).
        rewrite bool_decide_eq_true_2 in Htest by done.
        by rewrite bool_decide_eq_true_2 in Htest. }
      rewrite Hnot. by apply IH.
Qed.

Lemma last_snoc {A} (l : list A) (x d : A) : List.last (l ++ [x]) d = x.
Proof. induction l as [|a [|b l] IH]; try done. Qed.

Lemma select_tree_placed folders f c :
  forall ts' js,
    map erase ts' = findOrCreate_spec folders f c js ->
    kinds_fit (folders ++ [f]) js ->
    exists t, select_tree f (folders ++ [f]) (Some ts') = Some t
              /\ name (node t) = f /\ type (node t) = file
              /\ content (node t) = Some c.
Proof.
  induction folders as [|d rest IH]; intros ts' js He Hk.
  - simpl in He, Hk. destruct (find_named_put_file f c ts' js He Hk)
      as (t & Hfind & Hn & Hty & Hc).
    exists t. split_and!; try done.
    change ([] ++ [f]) with [f]. rewrite select_tree_cons, Hfind.
    unfold is_file. rewrite !bool_decide_eq_true_2; done.
  - change ((d :: rest) ++ [f]) with (d :: (rest ++ [f])) in *.
    simpl in He. simpl in Hk.
    assert (exists x l, rest ++ [f] = x :: l) as (x & l & Hrest).
    { destruct rest; simpl; eauto. }
    rewrite Hrest in Hk. destruct Hk as [Hkd Hk]. rewrite <- Hrest in Hk.
    destruct (find_named_enter d _ ts' js He Hkd) as (t & ch & Hfind & Hty & Hch & Hkids).
    destruct (IH (kids t) _ Hkids Hk) as (t0 & Hsel & Hprops).
    exists t0. split; [|done].
    rewrite select_tree_cons, Hfind.
    unfold is_file. rewrite bool_decide_eq_false_2 by congruence. simpl.
    unfold level_of. by rewrite Hch.
Qed.

(** ** Paths without a file name *)

Lemma split_only_slashes s :
  only_slashes s = true -> Forall (fun x => truthy x = false) (split slash s).
Proof.
  induction s as [|ch s IH]; simpl; intros H.
  - by repeat constructor.
  - apply andb_true_iff in H as [Hc Hs]. rewrite Hc. constructor; [done | by apply IH].
Qed.

Lemma parts_of_only_slashes s : only_slashes s = true -> parts_of s = [].
Proof.
  intros H. unfold parts_of. pose proof (split_only_slashes s H) as Hall.
  induction Hall as [|x l Hx _ IH]; [done|]. simpl. by rewrite Hx.
Qed.

(** ** A folder without [children] on the way *)

Lemma find_tree_first_folder d ts :
  first_folder d (map erase ts) = erase <$> find_tree (folder_named d) ts.
Proof.
  induction ts as [|t ts IH]; [done|]. simpl.
  rewrite jname_erase, jtype_erase. unfold folder_named, named, is_folder.
  by destruct (bool_decide (name (node t) = d) && bool_decide (type (node t) = folder)).
Qed.

Lemma place_undefined parts f c h : place parts f c None h = Err TypeError.
Proof. by destruct parts. Qed.

Lemma place_childless f c folders :
  forall h cur ts,
    repr_list h cur ts ->
    childless_on_path folders (map erase ts) ->
    place folders f c (Some cur) h = Err TypeError.
Proof.
  induction folders as [|d rest IH]; intros h cur ts Hr Hc; [done|].
  simpl in Hc. rewrite find_tree_first_folder in Hc.
  rewrite place_cons. run_step (read_array_repr h cur ts Hr).
  destruct Hr as [_ Hts].
  run_step (find_node_repr (folder_named d) h ts Hts).
  destruct (find_tree (folder_named d) ts) as [t|] eqn:Hfind; [|done].
  simpl in Hc |- *. rewrite jchildren_erase in Hc.
  apply find_tree_Some in Hfind as [Hin _].
  assert (repr h t) as Ht by (by eapply (proj1 (list.Forall_forall _ _) Hts)).
  pose proof (repr_kids h t Ht) as Hk.
  unfold bind at 1. unfold ret at 1.
  destruct (children (node t)) as [ch|].
  - by apply (IH h ch (kids t)).
  - apply place_undefined.
Qed.

(** ** The value of the tree [updateFileByPath] returns *)

Lemma updated_value c path ts f ts' f' :
  updated c path ts f ts' f' ->
  map erase ts' = update_value c path (map erase ts).
Proof.
  intros H. induction_updated H.
  - done.
  - done.
  - destruct t as [a n ks]. simpl in *. subst hd. rewrite Hty.
    rewrite !bool_decide_eq_true_2 by done. simpl. by rewrite IH.
  - destruct t as [a n ks]. simpl in *. subst hd. rewrite Hty, Hch.
    rewrite bool_decide_eq_true_2 by done.
    rewrite (bool_decide_eq_false_2 (folder = file)) by done.
    rewrite andb_false_r. by rewrite IHk, IH.
  - destruct t as [a n ks].
    change (map erase (TNode a n ks :: ts'))
      with (erase (TNode a n ks) :: map erase ts').
    rewrite IH. destruct tl; simpl in *;
      (f_equal;
       destruct Hskip as [Hne | [[Hf Htl] | [Hf Hch]]];
       [ by rewrite bool_decide_eq_false_2
       | try done; rewrite Hf; by destruct (bool_decide _), (children n)
       | rewrite Hf, Hch; by destruct (bool_decide _) ]).
Qed.

Lemma update_value_cons c hd tl j js :
  update_value c (hd :: tl) (j :: js)
  = update_json c hd tl (update_value c tl) j :: update_value c (hd :: tl) js.
Proof. done. Qed.

(** The later content wins. *)
Lemma update_value_again c1 c2 path :
  forall js, update_value c2 path (update_value c1 path js) = update_value c2 path js.
Proof.
  induction path as [|hd tl IH]; intros js; [done|].
  induction js as [|j js IHjs]; [done|].
  rewrite !update_value_cons, IHjs. f_equal.
  destruct j as [n t co ch].
  destruct t, ch as [ks|]; simpl;
    destruct (bool_decide (n = hd)) eqn:Hn, (bool_decide (tl = [])) eqn:Htl;
    simpl; rewrite ?Hn, ?Htl; simpl; rewrite ?IH; done.
Qed.

(** Updates along different paths do not see each other. *)
Lemma update_value_commute c1 c2 p :
  forall q js,
    p <> q ->
    update_value c1 p (update_value c2 q js)
    = update_value c2 q (update_value c1 p js).
Proof.
  induction p as [|hp tp IH]; intros q js Hne; [done|].
  destruct q as [|hq tq]; [done|].
  induction js as [|j js IHjs]; [done|].
  rewrite !update_value_cons, IHjs. f_equal.
  destruct j as [n t co ch].
  destruct (decide (tp = tq)) as [Heq|Htl].
  { assert (hp <> hq) as Hh by congruence.
    destruct t, ch as [ks|]; simpl;
      destruct (bool_decide (n = hp)) eqn:Hp, (bool_decide (n = hq)) eqn:Hq,
               (bool_decide (tp = [])) eqn:Htp, (bool_decide (tq = [])) eqn:Htq;
      simpl; rewrite ?Hp, ?Hq, ?Htp, ?Htq; simpl; try done;
      apply bool_decide_eq_true_1 in Hp; apply bool_decide_eq_true_1 in Hq;
      exfalso; apply Hh; by rewrite <- Hp. }
  destruct t, ch as [ks|]; simpl;
    destruct (bool_decide (n = hp)) eqn:Hp, (bool_decide (n = hq)) eqn:Hq,
             (bool_decide (tp = [])) eqn:Htp, (bool_decide (tq = [])) eqn:Htq;
    simpl; rewrite ?Hp, ?Hq, ?Htp, ?Htq; simpl; rewrite ?(IH tq ks Htl); try done;
    apply bool_decide_eq_true_1 in Htp; apply bool_decide_eq_true_1 in Htq;
    exfalso; apply Htl; by rewrite Htp.
Qed.

Lemma updateFileByPath_repr c h nodes ts path :
  repr_list h nodes ts ->
  exists updatedNodes foundFile h' ts',
    updateFileByPath c nodes path h = Ok ((updatedNodes, foundFile), h')
    /\ preserved h h'
    /\ repr_list h' updatedNodes ts'
    /\ map erase ts' = update_value c (pathParts path) (map erase ts).
Proof.
  intros Hr.
  destruct (recursiveUpdate_spec c (pathParts path) h nodes ts None Hr)
    as (arr' & f' & h' & ts' & Hrun & Hp & Hr' & Hu & _).
  exists arr', f', h', ts'. split_and!; [done.. |].
  by apply (updated_value _ _ _ _ _ _ Hu).
Qed.

(** [split] loses nothing: joining the segments gives the path back. *)
Lemma join_split s : join (split slash s) = s.
Proof.
  induction s as [|ch s IH]; [done|]. simpl.
  destruct (Ascii.eqb ch slash) eqn:Hc.
  - apply Ascii.eqb_eq in Hc. subst ch.
    pose proof (split_nonempty slash s) as Hne.
    simpl. destruct (split slash s) as [|x l]; [done|]. by rewrite IH.
  - destruct (split slash s) as [|seg segs] eqn:Hs; [by destruct (split_nonempty slash s)|].
    rewrite <- IH. destruct segs as [|x l]; [done|].
    change (join (String ch seg :: x :: l))
      with (String ch seg +:+ "/" +:+ join (x :: l)).
    change (join (seg :: x :: l)) with (seg +:+ "/" +:+ join (x :: l)).
    reflexivity.
Qed.

Lemma pathParts_inj p q : pathParts p = pathParts q -> p = q.
Proof.
  unfold pathParts. intros H. by rewrite <- (join_split p), <- (join_split q), H.
Qed.

(** ** Shapes *)

Lemma shape_refl t : shape t t.
Proof.
  induction t as [a n ks IH] using tree_ind'. constructor; try done.
  induction IH; by constructor.
Qed.

Lemma Forall2_shape_refl ts : Forall2 shape ts ts.
Proof. induction ts; constructor; [apply shape_refl | done]. Qed.

Lemma updated_shape c path ts f ts' f' :
  updated c path ts f ts' f' -> Forall2 shape ts ts'.
Proof.
  intros H. induction_updated H.
  - apply Forall2_shape_refl.
  - constructor.
  - constructor; [|done]. destruct t as [a n ks]. simpl.
    constructor; try done. apply Forall2_shape_refl.
  - constructor; [|done]. destruct t as [a n ks]. simpl in *.
    constructor; try done. rewrite Hch. split; intros [=].
  - constructor; [apply shape_refl | done].
Qed.

Lemma shape_names ts ts' : Forall2 shape ts ts' -> map tname ts' = map tname ts.
Proof.
  induction 1 as [|t t' ts ts' Hs _ IH]; [done|]. simpl. rewrite IH.
  f_equal. by destruct Hs.
Qed.

Lemma unique_names_iff ts :
  unique_names ts <-> NoDup (map tname ts) /\ Forall (fun t => unique_names (kids t)) ts.
Proof.
  unfold unique_names, levels. rewrite list.Forall_cons.
  apply and_iff_compat_l.
  induction ts as [|t ts IH]; simpl.
  - split; constructor.
  - rewrite list.Forall_app, list.Forall_cons, IH, levels_below_unfold. tauto.
Qed.

Lemma valid_names_iff ts :
  valid_names ts <-> Forall (fun t => valid_name (tname t) /\ valid_names (kids t)) ts.
Proof.
  unfold valid_names.
  induction ts as [|t ts IH]; simpl.
  - split; constructor.
  - rewrite list.Forall_app, list.Forall_cons, IH, subtrees_unfold, list.Forall_cons.
    tauto.
Qed.

Lemma shape_well_tagged ts :
  forall ts', Forall2 shape ts ts' -> well_tagged ts -> well_tagged ts'.
Proof.
  induction ts as [|t ts IHts]; intros ts' Hs Hwt.
  - inversion Hs. by subst.
  - inversion Hs as [|? t' ? ts1 Ht Hrest]; subst.
    apply well_tagged_cons in Hwt as (Htag & Hk & Hwt).
    apply well_tagged_cons. split_and!; [| |by apply IHts].
    + destruct Ht as [a n ks a' n' ks' Hn Hty Hch _]. unfold tagged in *. simpl in *.
      rewrite <- Hty, <- Hch. exact Htag.
    + clear IHts Hs Hrest Htag Hwt. revert t' Ht Hk.
      induction t as [a n ks IH] using tree_ind'. intros t' Ht Hk.
      inversion Ht as [? ? ? a' n' ks' Hn Hty Hch Hks]; subst. simpl in *.
      clear Ht. revert ks' Hks.
      induction IH as [|k ks Hk1 _ IHks]; intros ks' Hks.
      * inversion Hks. by subst.
      * inversion Hks as [|? k' ? ks1 Hkk Hrest]; subst.
        apply well_tagged_cons in Hk as (Htag & Hkk' & Hk).
        apply well_tagged_cons. split_and!.
        -- destruct Hkk as [? ? ? ? ? ? _ Hty' Hch' _]. unfold tagged in *. simpl in *.
           rewrite <- Hty', <- Hch'. exact Htag.
        -- by apply Hk1.
        -- by apply IHks.
Qed.

Lemma shape_unique_names ts :
  forall ts', Forall2 shape ts ts' -> unique_names ts -> unique_names ts'.
Proof.
  assert (forall t, forall t', shape t t' -> unique_names (kids t) ->
                               unique_names (kids t')) as Hnode.
  { induction t as [a n ks IH] using tree_ind'. intros t' Ht Hu.
    inversion Ht as [? ? ? a' n' ks' Hn Hty Hch Hks]; subst. simpl in *.
    apply unique_names_iff in Hu as [Hnd Hk]. apply unique_names_iff.
    split; [by rewrite (shape_names _ _ Hks)|].
    clear Ht Hnd. revert ks' Hks Hk.
    induction IH as [|k ks Hk1 _ IHks]; intros ks' Hks Hk.
    - inversion Hks. subst. constructor.
    - inversion Hks as [|? k' ? ks1 Hkk Hrest]; subst.
      apply Forall_cons_1 in Hk as [Hk0 Hk]. constructor; [by apply Hk1 | by apply IHks]. }
  intros ts' Hs Hu.
  apply unique_names_iff in Hu as [Hnd Hk]. apply unique_names_iff.
  split; [by rewrite (shape_names _ _ Hs)|].
  clear Hnd. induction Hs as [|t t' ts ts' Ht _ IH]; [constructor|].
  apply Forall_cons_1 in Hk as [Hk0 Hk]. constructor; [by eapply Hnode | by apply IH].
Qed.

Lemma shape_valid_names ts :
  forall ts', Forall2 shape ts ts' -> valid_names ts -> valid_names ts'.
Proof.
  assert (forall t, forall t', shape t t' -> valid_names (kids t) ->
                               valid_names (kids t')) as Hnode.
  { induction t as [a n ks IH] using tree_ind'. intros t' Ht Hu.
    inversion Ht as [? ? ? a' n' ks' Hn Hty Hch Hks]; subst. simpl in *.
    apply valid_names_iff in Hu. apply valid_names_iff.
    clear Ht. revert ks' Hks Hu.
    induction IH as [|k ks Hk1 _ IHks]; intros ks' Hks Hu.
    - inversion Hks. subst. constructor.
    - inversion Hks as [|? k' ? ks1 Hkk Hrest]; subst.
      apply Forall_cons_1 in Hu as [[Hv Hk0] Hu].
      constructor; [|by apply IHks].
      split; [|by apply Hk1].
      destruct Hkk as [? ? ? ? ? ? Hn' _ _ _]. unfold tname in *. simpl in *.
      by rewrite <- Hn'. }
  intros ts' Hs Hu.
  apply valid_names_iff in Hu. apply valid_names_iff.
  induction Hs as [|t t' ts ts' Ht _ IH]; [constructor|].
  apply Forall_cons_1 in Hu as [[Hv Hk0] Hu]. constructor; [|by apply IH].
  split; [|by eapply Hnode].
  destruct Ht as [? ? ? ? ? ? Hn' _ _ _]. unfold tname in *. simpl in *.
  by rewrite <- Hn'.
Qed.

Lemma shape_heights ts :
  forall ts', Forall2 shape ts ts' -> heights ts' = heights ts.
Proof.
  assert (forall t, forall t', shape t t' -> height t' = height t) as Hnode.
  { induction t as [a n ks IH] using tree_ind'. intros t' Ht.
    inversion Ht as [? ? ? a' n' ks' Hn Hty Hch Hks]; subst. simpl. f_equal.
    clear Ht. revert ks' Hks.
    induction IH as [|k ks Hk1 _ IHks]; intros ks' Hks.
    - inversion Hks. by subst.
    - inversion Hks as [|? k' ? ks1 Hkk Hrest]; subst. simpl.
      by rewrite (Hk1 _ Hkk), (IHks _ Hrest). }
  intros ts' Hs. induction Hs as [|t t' ts ts' Ht _ IH]; [done|].
  by rewrite !heights_cons, IH, (Hnode _ _ Ht).
Qed.

(** ** What [findPath] and [findAndSelectFile] return is in the tree *)

Lemma select_tree_subtree last parts :
  forall ts t, select_tree last parts (Some ts) = Some t -> t ∈ flat_map subtrees ts.
Proof.
  induction parts as [|part rest IH]; intros ts t Hsel; [done|].
  rewrite select_tree_cons in Hsel.
  destruct (find_tree (named part) ts) as [t1|] eqn:Hfind; [|done].
  apply find_tree_Some in Hfind as [Hin _].
  apply subtrees_elem. exists t1. split; [done|].
  destruct (is_file (node t1) && bool_decide (part = last)).
  - left. congruence.
  - right. unfold level_of in Hsel. destruct (children (node t1)); [|by destruct rest].
    by apply IH.
Qed.

Lemma findPath_absent fuel h arr ts target cp :
  repr_list h arr ts ->
  heights ts < fuel ->
  (forall t, t ∈ flat_map subtrees ts -> addr t <> target) ->
  findPath fuel arr target cp h = Ok (None, h).
Proof.
  intros Hr Hfuel Habs. rewrite (findPath_repr fuel h arr ts target cp Hr Hfuel).
  destruct (first_some (visit target cp) ts) as [p|] eqn:Hv; [|done].
  destruct (first_some_visit_sound target ts) with (cp := cp) (p := p)
    as (names & t0 & _ & Hat & Haddr); [|done|].
  - apply list.Forall_forall. intros t _. apply visit_sound.
  - destruct (Habs t0); [by eapply at_path_subtree | done].
Qed.

(** ** The objects of a copy refer to objects of the copy *)

Lemma closed_from_alloc n (h : heap) o :
  closed_from n h -> Forall (fun r => n <= r) (refs_of o) -> closed_from n (h ++ [o]).
Proof.
  intros Hc Ho a o' Ha Hl.
  destruct (decide (a < length h)) as [Hlt|Hge].
  - rewrite lookup_app_l in Hl by done. by apply (Hc a).
  - rewrite lookup_app_r in Hl by lia.
    destruct (a - length h) as [|k]; simpl in Hl; [|done]. by injection Hl as <-.
Qed.

Lemma closed_from_insert n (h : heap) r o :
  closed_from n h -> Forall (fun r => n <= r) (refs_of o) -> closed_from n (<[r := o]> h).
Proof.
  intros Hc Ho a o' Ha Hl.
  destruct (decide (a = r)) as [->|Hne].
  - apply list_lookup_insert_Some in Hl as [(_ & <- & _)|[? _]]; done.
  - rewrite list_lookup_insert_ne in Hl by done. by apply (Hc a).
Qed.

Lemma find_node_inv p elems h found h1 :
  find_node p elems h = Ok (found, h1) ->
  h1 = h /\ match found with
            | Some (r, nd) => r ∈ elems /\ h !! r = Some (ONode nd)
            | None => True
            end.
Proof.
  revert found. induction elems as [|r rest IH]; intros found H; simpl in H.
  - injection H as <- <-. done.
  - apply bind_inv in H as (nd & h2 & Hread & H).
    unfold read_node in Hread. destruct (h !! r) as [[nd'|]|] eqn:Hr; try done.
    injection Hread as <- <-.
    destruct (p nd').
    + injection H as <- <-. split; [done|]. split; [left | done].
    + apply IH in H as [-> H]. split; [done|].
      destruct found as [[r' nd]|]; [|done]. destruct H. split; [by right | done].
Qed.

Lemma findIndex_from_inv p elems h : forall i res h1,
  findIndex_from i p elems h = Ok (res, h1) -> h1 = h.
Proof.
  induction elems as [|r rest IH]; intros i res h1 H; simpl in H.
  - by injection H as <- <-.
  - apply bind_inv in H as (nd & h2 & Hread & H).
    unfold read_node in Hread. destruct (h !! r) as [[nd'|]|] eqn:Hr; try done.
    injection Hread as <- <-.
    destruct (p nd'); [by injection H as <- <- | by eapply IH].
Qed.

Lemma read_array_inv r h elems h1 :
  read_array r h = Ok (elems, h1) -> h1 = h /\ h !! r = Some (OArray elems).
Proof.
  unfold read_array. destruct (h !! r) as [[|l]|]; try done. by intros [= <- <-].
Qed.

Lemma read_node_inv r h nd h1 :
  read_node r h = Ok (nd, h1) -> h1 = h /\ h !! r = Some (ONode nd).
Proof.
  unfold read_node. destruct (h !! r) as [[n|]|]; try done. by intros [= <- <-].
Qed.

Lemma write_inv r o h u h1 :
  write r o h = Ok (u, h1) -> h1 = <[r := o]> h.
Proof. unfold write. destruct (decide _); [|done]. by intros [= <- <-]. Qed.

Lemma push_closed n arr r h u h1 :
  closed_from n h -> n <= arr -> n <= r ->
  push arr r h = Ok (u, h1) -> closed_from n h1.
Proof.
  intros Hc Harr Hr H. unfold push in H.
  apply bind_inv in H as (elems & h2 & Hread & H).
  apply read_array_inv in Hread as [-> Hl]. apply write_inv in H as ->.
  apply closed_from_insert; [done|]. simpl.
  apply Forall_app. split; [by apply (Hc arr _ Harr Hl) | by constructor].
Qed.

Lemma put_file_closed n f c cur h h' :
  closed_from n h -> n <= cur ->
  put_file (Some cur) f c h = Ok (tt, h') -> closed_from n h'.
Proof.
  intros Hc Hcur H. unfold put_file in H. simpl in H.
  apply bind_inv in H as (a0 & h0 & Hdef & H). injection Hdef as <- <-.
  apply bind_inv in H as (elems & h1 & Hread & H).
  apply read_array_inv in Hread as [-> Hl].
  apply bind_inv in H as (idx & h1 & Hidx & H).
  apply findIndex_from_inv in Hidx as ->.
  destruct idx as [i|].
  - apply bind_inv in H as (r & h1 & Hdef & H).
    destruct (elems !! i) as [r'|] eqn:Hi; [|done]. injection Hdef as <- <-.
    apply bind_inv in H as (nd & h1 & Hread & H).
    apply read_node_inv in Hread as [-> Hr]. apply write_inv in H as ->.
    apply closed_from_insert; [done|].
    assert (n <= r') as Hge.
    { pose proof (Hc cur _ Hcur Hl) as Hall. simpl in Hall.
      eapply (proj1 (list.Forall_forall _ _) Hall). by eapply list_elem_of_lookup_2. }
    exact (Hc r' _ Hge Hr).
  - apply bind_inv in H as (r & h1 & Halloc & H).
    unfold alloc in Halloc. injection Halloc as <- <-.
    apply (push_closed n cur (length h) _ _ _) in H; try done.
    + apply closed_from_alloc; [done | constructor].
    + apply lookup_lt_Some in Hl. lia.
Qed.

Lemma place_closed n f c parts :
  forall cur h h',
    closed_from n h -> n <= cur ->
    place parts f c (Some cur) h = Ok (tt, h') -> closed_from n h'.
Proof.
  induction parts as [|d rest IH]; intros cur h h' Hc Hcur H.
  - by apply (put_file_closed n f c cur h h').
  - rewrite place_cons in H.
    apply bind_inv in H as (elems & h1 & Hread & H).
    apply read_array_inv in Hread as [-> Hl].
    apply bind_inv in H as (found & h1 & Hfind & H).
    apply find_node_inv in Hfind as [-> Hfound].
    apply bind_inv in H as (next & h1 & Hnext & H).
    destruct found as [[r nd]|].
    + injection Hnext as <- <-. destruct Hfound as [Hin Hr].
      destruct (children nd) as [ch|] eqn:Hch; [|by rewrite place_undefined in H].
      assert (n <= r) as Hge.
      { pose proof (Hc cur _ Hcur Hl) as Hall. simpl in Hall.
        by eapply (proj1 (list.Forall_forall _ _) Hall). }
      pose proof (Hc r _ Hge Hr) as Hall. simpl in Hall. rewrite Hch in Hall.
      apply Forall_cons_1 in Hall as [Hch' _].
      by apply (IH ch h h').
    + apply bind_inv in Hnext as (ch & h2 & Ha1 & Hnext).
      unfold alloc in Ha1. injection Ha1 as <- <-.
      apply bind_inv in Hnext as (r & h2 & Ha2 & Hnext).
      unfold alloc in Ha2. injection Ha2 as <- <-.
      apply bind_inv in Hnext as (u & h2 & Hpush & Hnext).
      injection Hnext as <- <-.
      pose proof (lookup_lt_Some _ _ _ Hl) as Hlt.
      apply (push_closed n) in Hpush; try done.
      * apply (IH (length h) h2 h'); [done | lia | done].
      * apply closed_from_alloc; [apply closed_from_alloc; [done | constructor]|].
        simpl. constructor; [lia | constructor].
      * rewrite length_app. simpl. lia.
Qed.

Lemma fp_refs h t :
  repr h t ->
  forall a o, a ∈ fp t -> h !! a = Some o -> Forall (fun r => r ∈ fp t) (refs_of o).
Proof.
  induction t as [a0 n ks IH] using tree_ind'. intros Hr a o Hin Hl.
  inversion Hr as [? ? ? Ha Hc Hks]; subst.
  rewrite fp_unfold in *. simpl in *.
  apply elem_of_cons in Hin as [->|Hin].
  - rewrite Ha in Hl. injection Hl as <-. simpl.
    destruct (children n); [|constructor].
    constructor; [|constructor]. right. left.
  - destruct (children n) as [arr|]; [|by inversion Hin].
    apply elem_of_cons in Hin as [->|Hin].
    + rewrite Hc in Hl. injection Hl as <-. simpl.
      apply list.Forall_forall. intros r Hr'.
      apply list_elem_of_fmap in Hr' as (k & -> & Hk).
      right. right. apply (elem_of_flat_map_fp _ k); [done|].
      rewrite fp_unfold. left.
    + apply list_elem_of_In, in_flat_map in Hin as (k & Hk & Hin).
      apply list_elem_of_In in Hk, Hin.
      pose proof (proj1 (list.Forall_forall _ _) IH k Hk
                    (proj1 (list.Forall_forall _ _) Hks k Hk) a o Hin Hl) as Hall.
      eapply Forall_impl; [|exact Hall]. intros r Hr'.
      right. right. by apply (elem_of_flat_map_fp _ k).
Qed.

Lemma fp_list_refs h arr ts :
  repr_list h arr ts ->
  forall a o, a ∈ fp_list arr ts -> h !! a = Some o ->
    Forall (fun r => r ∈ fp_list arr ts) (refs_of o).
Proof.
  intros [Ha Hts] a o Hin Hl. unfold fp_list in *.
  apply elem_of_cons in Hin as [->|Hin].
  - rewrite Ha in Hl. injection Hl as <-. simpl.
    apply list.Forall_forall. intros r Hr'.
    apply list_elem_of_fmap in Hr' as (k & -> & Hk).
    right. apply (elem_of_flat_map_fp _ k); [done|]. rewrite fp_unfold. left.
  - apply list_elem_of_In, in_flat_map in Hin as (k & Hk & Hin).
    apply list_elem_of_In in Hk, Hin.
    pose proof (fp_refs h k (proj1 (list.Forall_forall _ _) Hts k Hk) a o Hin Hl) as Hall.
    eapply Forall_impl; [|exact Hall]. intros r Hr'.
    right. by apply (elem_of_flat_map_fp _ k).
Qed.

Lemma closed_from_subtrees n h t :
  closed_from n h -> repr h t -> n <= addr t ->
  forall t', t' ∈ subtrees t -> n <= addr t'.
Proof.
  intros Hc. induction t as [a nd ks IH] using tree_ind'. intros Hr Ha t' Hin.
  inversion Hr as [? ? ? Hl Hch Hks]; subst. simpl in *.
  apply elem_of_cons in Hin as [->|Hin]; [done|].
  apply list_elem_of_In, in_flat_map in Hin as (k & Hk & Hin).
  apply list_elem_of_In in Hk, Hin.
  pose proof (Hc a _ Ha Hl) as Hall. simpl in Hall.
  destruct (children nd) as [arr|]; [|subst; by inversion Hk].
  apply Forall_cons_1 in Hall as [Harr _].
  pose proof (Hc arr _ Harr Hch) as Hall. simpl in Hall.
  apply (proj1 (list.Forall_forall _ _) IH k Hk); [| |done].
  - by apply (proj1 (list.Forall_forall _ _) Hks).
  - apply (proj1 (list.Forall_forall _ _) Hall). by apply list_elem_of_fmap_2.
Qed.

Lemma closed_from_repr_list n h arr ts :
  closed_from n h -> repr_list h arr ts -> n <= arr ->
  forall t, t ∈ flat_map subtrees ts -> n <= addr t.
Proof.
  intros Hc [Hl Hts] Harr t Hin.
  apply list_elem_of_In, in_flat_map in Hin as (k & Hk & Hin).
  apply list_elem_of_In in Hk, Hin.
  pose proof (Hc arr _ Harr Hl) as Hall. simpl in Hall.
  apply (closed_from_subtrees n h k); [done | | | done].
  - by apply (proj1 (list.Forall_forall _ _) Hts).
  - apply (proj1 (list.Forall_forall _ _) Hall). by apply list_elem_of_fmap_2.
Qed.

(** [findOrCreateFile] with the tree it returns: every object of it is
    new. *)
Lemma findOrCreateFile_fresh fuel (h : heap) nodes ts path c :
  repr_list h nodes ts ->
  well_tagged ts ->
  heights ts < fuel ->
  exists newNodes h' ts',
    findOrCreateFile fuel nodes path c h = Ok (newNodes, h')
    /\ preserved h h'
    /\ repr_list h' newNodes ts'
    /\ well_tagged ts'
    /\ map erase ts' = findOrCreate_value (parts_of path) c (map erase ts)
    /\ forall t, t ∈ flat_map subtrees ts' -> length h <= addr t.
Proof.
  intros Hr Hwt Hfuel.
  destruct (findOrCreateFile_spec fuel h nodes ts path c Hr Hwt Hfuel)
    as (newNodes & h' & ts' & Hrun & Hp & Hnew & Hr' & Hwt' & He).
  exists newNodes, h', ts'. split_and!; try done.
  apply (closed_from_repr_list (length h) h' newNodes ts'); [|done|].
  2:{ apply lookup_ge_None in Hnew. lia. }
  unfold findOrCreateFile in Hrun.
  rewrite (bind_Ok _ _ _ _ _ (JSON_stringify_repr fuel h nodes ts Hr Hfuel)) in Hrun.
  destruct (JSON_parse_spec (map erase ts) h) as (arr & ts1 & k & Hparse & Hr1 & He1 & Hfp).
  rewrite (bind_Ok _ _ _ _ _ Hparse) in Hrun.
  assert (closed_from (length h) (h ++ k)) as Hc1.
  { intros a o Ha Hl. pose proof (lookup_lt_Some _ _ _ Hl) as Hlt.
    rewrite length_app in Hlt.
    assert (a ∈ fp_list arr ts1) as Hin.
    { rewrite Hfp. apply elem_of_seq. lia. }
    pose proof (fp_list_refs _ _ _ Hr1 a o Hin Hl) as Hall.
    eapply Forall_impl; [|exact Hall]. intros r Hr2. simpl in Hr2.
    rewrite Hfp in Hr2. apply elem_of_seq in Hr2. lia. }
  assert (length h <= arr) as Harr.
  { assert (arr ∈ seq (length h) (length k)) as Hin by (rewrite <- Hfp; left).
    apply elem_of_seq in Hin. lia. }
  destruct (pop (parts_of path)) as [[folders fileName]|].
  2:{ injection Hrun as <- <-. done. }
  destruct (negb (truthy fileName)); [by injection Hrun as <- <-|].
  apply bind_inv in Hrun as ([] & h2 & Hplace & Hrun). injection Hrun as <- <-.
  by apply (place_closed (length h) fileName c folders arr (h ++ k) h2).
Qed.

Lemma join_truthy names :
  names <> [] -> Forall valid_name names -> truthy (join names) = true.
Proof.
  intros Hne Hv. destruct names as [|n rest]; [done|].
  apply Forall_cons_1 in Hv as [[Hn _] _].
  destruct rest; [done|]. by apply truthy_append.
Qed.

Lemma at_path_unique names :
  forall ts t1 t2,
    unique_names ts -> at_path names ts t1 -> at_path names ts t2 -> t1 = t2.
Proof.
  induction names as [|n rest IH]; intros ts t1 t2 Hu H1 H2; [done|].
  apply at_path_inv in H1 as (x1 & Hx1 & Hn1 & H1).
  apply at_path_inv in H2 as (x2 & Hx2 & Hn2 & H2).
  assert (x1 = x2) as <-.
  { apply (NoDup_map_inj tname ts); [by apply unique_names_top | done | done |].
    congruence. }
  destruct H1 as [[Hr ->]|(Hr & _ & H1)], H2 as [[Hr' ->]|(Hr' & _ & H2)]; try done.
  apply (IH (kids x1)); [by apply (unique_names_elem ts) | done | done].
Qed.

(** What [findPath] returns is the joined names of a path to the target. *)
Lemma findPath_sound fuel h nodes ts target p :
  repr_list h nodes ts ->
  valid_names ts ->
  heights ts < fuel ->
  findPath fuel nodes target empty_string h = Ok (Some p, h) ->
  exists names t0, p = join names /\ at_path names ts t0 /\ addr t0 = target
                   /\ Forall valid_name names.
Proof.
  intros Hr Hv Hfuel Hrun.
  rewrite (findPath_repr fuel h nodes ts target empty_string Hr Hfuel) in Hrun.
  injection Hrun as Hp.
  destruct (first_some_visit_sound target ts
              (proj2 (Forall_forall _ _) (fun x _ => visit_sound target x)) _ _ Hp)
    as (names & t0 & -> & Hat & Ha).
  pose proof (at_path_valid _ _ _ Hat Hv) as Hnames.
  exists names, t0. by rewrite foldl_extend_join.
Qed.

(** ** Slashes that separate nothing *)

Lemma split_app a b :
  split slash (a +:+ "/" +:+ b) = split slash a ++ split slash b.
Proof.
  induction a as [|ch a IH].
  - done.
  - change (String ch a +:+ "/" +:+ b) with (String ch (a +:+ "/" +:+ b)).
    simpl. rewrite IH. destruct (Ascii.eqb ch slash); [done|].
    destruct (split slash a) as [|seg segs] eqn:Hs; [by destruct (split_nonempty slash a)|].
    done.
Qed.

Lemma parts_of_app a b : parts_of (a +:+ "/" +:+ b) = parts_of a ++ parts_of b.
Proof. unfold parts_of. by rewrite split_app, filter_app. Qed.

Lemma parts_of_leading_slash p : parts_of ("/" +:+ p) = parts_of p.
Proof. apply (parts_of_app empty_string p). Qed.

Lemma parts_of_trailing_slash p : parts_of (p +:+ "/") = parts_of p.
Proof.
  change (p +:+ "/") with (p +:+ "/" +:+ empty_string).
  rewrite (parts_of_app p empty_string). apply app_nil_r.
Qed.

Lemma parts_of_double_slash a b :
  parts_of (a +:+ "//" +:+ b) = parts_of (a +:+ "/" +:+ b).
Proof.
  change (a +:+ "//" +:+ b) with (a +:+ "/" +:+ ("/" +:+ b)).
  by rewrite !parts_of_app, parts_of_leading_slash.
Qed.

(** ** A second [findOrCreateFile] on the same path *)

Lemma put_file_spec_again f c1 c2 js :
  put_file_spec f c2 (put_file_spec f c1 js) = put_file_spec f c2 js.
Proof.
  induction js as [|j js IH]; simpl.
  - by rewrite !bool_decide_eq_true_2.
  - destruct (bool_decide (jname_of j = f) && bool_decide (jtype_of j = file)) eqn:Hj;
      simpl; rewrite Hj; [done | by rewrite IH].
Qed.

Lemma enter_enter d inside1 inside2 js :
  enter d inside2 (enter d inside1 js) = enter d (fun x => inside2 (inside1 x)) js.
Proof.
  induction js as [|j js IH]; simpl.
  - by rewrite !bool_decide_eq_true_2.
  - destruct (bool_decide (jname_of j = d) && bool_decide (jtype_of j = folder)) eqn:Hj;
      simpl; rewrite Hj; [done | by rewrite IH].
Qed.

Lemma enter_ext d inside1 inside2 js :
  (forall x, inside1 x = inside2 x) -> enter d inside1 js = enter d inside2 js.
Proof.
  intros Hext. induction js as [|j js IH]; simpl.
  - by rewrite Hext.
  - destruct (bool_decide (jname_of j = d) && bool_decide (jtype_of j = folder));
      [by rewrite Hext | by rewrite IH].
Qed.

Lemma findOrCreate_spec_again folders f c1 c2 js :
  findOrCreate_spec folders f c2 (findOrCreate_spec folders f c1 js)
  = findOrCreate_spec folders f c2 js.
Proof.
  revert js. induction folders as [|d rest IH]; intros js; simpl.
  - apply put_file_spec_again.
  - rewrite enter_enter. by apply enter_ext.
Qed.

Lemma findOrCreate_value_again parts c1 c2 js :
  findOrCreate_value parts c2 (findOrCreate_value parts c1 js)
  = findOrCreate_value parts c2 js.
Proof.
  unfold findOrCreate_value. destruct (pop parts) as [[folders f]|]; [|done].
  apply findOrCreate_spec_again.
Qed.

(** ** [findOrCreateFile] and [updateFileByPath] on a file that is there *)

Lemma update_json_skip c hd tl below ts :
  Forall (fun t => tname t <> hd) ts ->
  map (update_json c hd tl below) (map erase ts) = map erase ts.
Proof.
  induction 1 as [|t ts Ht _ IH]; [done|]. simpl. rewrite IH. f_equal.
  destruct t as [a n ks]. unfold tname in Ht. simpl in *.
  by rewrite bool_decide_eq_false_2.
Qed.

Lemma NoDup_names_others t ts :
  NoDup (map tname (t :: ts)) -> Forall (fun x => tname x <> tname t) ts.
Proof.
  intros Hnd. simpl in Hnd. pose proof (NoDup_cons_1_1 _ _ Hnd) as Hnot.
  apply list.Forall_forall. intros x Hx Heq. apply Hnot. rewrite <- Heq.
  by apply (list_elem_of_fmap_2 tname).
Qed.

Lemma put_file_is_update f c ts t0 :
  NoDup (map tname ts) -> t0 ∈ ts -> tname t0 = f -> type (node t0) = file ->
  put_file_spec f c (map erase ts) = update_value c [f] (map erase ts).
Proof.
  induction ts as [|t ts IH]; intros Hnd Hin Hn Hty; [by inversion Hin|].
  simpl. rewrite jname_erase, jtype_erase.
  destruct (decide (tname t = f)) as [Heq|Hne].
  - assert (t = t0) as ->.
    { apply (NoDup_map_inj tname (t :: ts)); [done | left | done | congruence]. }
    pose proof (NoDup_names_others _ _ Hnd) as Hothers. rewrite Hn in Hothers.
    rewrite (update_json_skip _ _ _ _ _ Hothers).
    destruct t0 as [a n ks]. unfold tname in *. simpl in *.
    by rewrite Hty, !bool_decide_eq_true_2.
  - apply elem_of_cons in Hin as [->|Hin]; [done|].
    unfold tname in Hne. rewrite (bool_decide_eq_false_2 _ Hne). simpl.
    rewrite (IH (NoDup_cons_1_2 _ _ Hnd) Hin Hn Hty). f_equal.
    destruct t as [a n ks]. simpl in *. by rewrite bool_decide_eq_false_2.
Qed.

Lemma enter_is_update d inside c tl ts t :
  NoDup (map tname ts) -> t ∈ ts -> tname t = d -> type (node t) = folder ->
  tagged t -> tl <> [] ->
  inside (map erase (kids t)) = update_value c tl (map erase (kids t)) ->
  enter d inside (map erase ts) = update_value c (d :: tl) (map erase ts).
Proof.
  induction ts as [|x ts IH]; intros Hnd Hin Hn Hty Htag Htl Hinside; [by inversion Hin|].
  simpl. rewrite jname_erase, jtype_erase.
  destruct (decide (tname x = d)) as [Heq|Hne].
  - assert (x = t) as ->.
    { apply (NoDup_map_inj tname (x :: ts)); [done | left | done | congruence]. }
    pose proof (NoDup_names_others _ _ Hnd) as Hothers. rewrite Hn in Hothers.
    rewrite (update_json_skip _ _ _ _ _ Hothers).
    destruct t as [a n ks]. unfold tname, tagged in *. simpl in *.
    destruct (children n) as [ch|] eqn:Hch.
    2:{ pose proof (proj2 Htag eq_refl). congruence. }
    rewrite Hty, !bool_decide_eq_true_2 by done. simpl.
    rewrite (bool_decide_eq_false_2 (tl = [])) by done. simpl.
    by rewrite Hinside.
  - apply elem_of_cons in Hin as [->|Hin]; [done|].
    unfold tname in Hne. rewrite (bool_decide_eq_false_2 _ Hne). simpl.
    rewrite (IH (NoDup_cons_1_2 _ _ Hnd) Hin Hn Hty Htag Htl Hinside). f_equal.
    destruct x as [a n ks]. simpl in *. by rewrite bool_decide_eq_false_2.
Qed.

Lemma findOrCreate_spec_is_update f c t0 folders :
  forall ts,
    unique_names ts -> well_tagged ts ->
    at_path (folders ++ [f]) ts t0 -> type (node t0) = file ->
    findOrCreate_spec folders f c (map erase ts)
    = update_value c (folders ++ [f]) (map erase ts).
Proof.
  induction folders as [|d rest IH]; intros ts Hu Hwt Hat Hty.
  - apply at_path_inv in Hat as (t & Hin & Hn & [[_ Heq]|[? _]]); [subst t0|done].
    by apply (put_file_is_update f c ts t); [apply unique_names_top | ..].
  - change ((d :: rest) ++ [f]) with (d :: (rest ++ [f])) in *.
    apply at_path_inv in Hat as (t & Hin & Hn & [[Hnil _]|(Hne & Hfolder & Hat)]);
      [by destruct rest|].
    destruct (well_tagged_elem ts t Hwt Hin) as [Htag Hwk].
    apply (enter_is_update d _ c (rest ++ [f]) ts t); try done.
    + by apply unique_names_top.
    + apply IH; try done. by apply (unique_names_elem ts).
Qed.

(** * The handlers of [App] *)

(** ** What a handler keeps *)

Lemma preserves_ret {A} P (a : A) : preserves P (task_ret a).
Proof. intros st h r st' h' HP [= <- <- <-]. exact HP. Qed.

Lemma preserves_bind {A B} P (m : Task A) (k : A -> Task B) :
  preserves P m -> (forall a, preserves P (k a)) -> preserves P (task_bind m k).
Proof.
  intros Hm Hk st h r st' h' HP H. unfold task_bind in H.
  destruct (m st h) as [[[[a|e] st1] h1]|] eqn:Hrun; [| |done].
  - eapply Hk; [|exact H]. eapply Hm; [exact HP | exact Hrun].
  - injection H as <- <- <-. eapply Hm; [exact HP | exact Hrun].
Qed.

Lemma preserves_set_state P f :
  (forall st, P st -> P (f st)) -> preserves P (set_state f).
Proof. intros Hf st h r st' h' HP [= <- <- <-]. by apply Hf. Qed.

Lemma preserves_await_call {A} P (c : geminiService.completion A) :
  preserves P (await_call c).
Proof. intros st h r st' h' HP [= <- <- <-]. exact HP. Qed.

Lemma preserves_tree_op {A} P (m : M A) : preserves P (tree_op m).
Proof.
  intros st h r st' h' HP H. unfold tree_op in H.
  destruct (m h) as [[a h1]|[]]; try done; by injection H as <- <- <-.
Qed.

Lemma preserves_try_catch_finally P body handler finalizer :
  preserves P body -> (forall e, preserves P (handler e)) -> preserves P finalizer ->
  preserves P (try_catch_finally body handler finalizer).
Proof.
  intros Hb Hh Hf st h r st' h' HP H. unfold try_catch_finally in H.
  destruct (body st h) as [[[[a|e] st1] h1]|] eqn:Hbody; [| |done].
  - eapply Hf; [|exact H]. eapply Hb; [exact HP | exact Hbody].
  - pose proof (Hb _ _ _ _ _ HP Hbody) as HP1.
    destruct (handler e st1 h1) as [[[[a|e'] st2] h2]|] eqn:Hhandler; [| |done].
    + eapply Hf; [|exact H]. eapply Hh; [exact HP1 | exact Hhandler].
    + pose proof (Hh _ _ _ _ _ _ HP1 Hhandler) as HP2.
      destruct (finalizer st2 h2) as [[[[a|e''] st3] h3]|] eqn:Hfin; [| |done].
      * injection H as <- <- <-. eapply Hf; [exact HP2 | exact Hfin].
      * injection H as <- <- <-. eapply Hf; [exact HP2 | exact Hfin].
Qed.

(** [keeps]: the handler at the head of the goal keeps [P], step by step. *)
Ltac keeps Hst :=
  repeat first
    [ apply preserves_ret
    | apply preserves_await_call
    | apply preserves_tree_op
    | apply preserves_set_state; intros ? ?; by apply Hst
    | apply preserves_bind; [|intros ?]
    | apply preserves_try_catch_finally; [|intros ?|]
    | match goal with
      | |- preserves _ (match ?x with _ => _ end) => destruct x
      end ].

Lemma stable_foldl_status clock P (agents : list Agent.t) status :
  stable clock P ->
  forall st, P st ->
    P (foldl (fun s agent => updateAgentStatus (Agent.role agent) status s) st agents).
Proof.
  intros Hst. induction agents as [|a agents IH]; intros st HP; [done|].
  simpl. apply IH. by apply Hst.
Qed.

Lemma handleStartTask_preserves is_space clock names_json message_of
    generatePlan generateCode generateTests generateDocumentation generateSpeech
    fuel P :
  stable clock P ->
  preserves P (handleStartTask is_space clock names_json message_of generatePlan
                 generateCode generateTests generateDocumentation generateSpeech fuel).
Proof.
  intros Hst st h r st' h' HP. unfold handleStartTask.
  destruct (negb _ || _); [by intros [= <- <- <-]|].
  intros Hrun.
  match type of Hrun with
  | ?t st h = _ => assert (preserves P t) as Hbody
  end; [|by eapply Hbody].
  clear Hrun. keeps Hst.
Qed.

Lemma handleCommit_preserves is_space toLowerCase clock generateSpeech P :
  stable clock P ->
  preserves P (handleCommit is_space toLowerCase clock generateSpeech).
Proof.
  intros Hst st h r st' h' HP. unfold handleCommit.
  intros Hrun.
  match type of Hrun with
  | ?t st h = _ => assert (preserves P t) as Hbody
  end; [|by eapply Hbody].
  clear Hrun. keeps Hst.
  apply preserves_set_state. intros st1 HP1. by apply (stable_foldl_status clock).
Qed.

Lemma log_ids_fresh_stable clock : stable clock log_ids_fresh.
Proof.
  unfold stable, log_ids_fresh. split_and!; try (intros; simpl; done).
  - intros st _. simpl. split; constructor.
  - intros st ty msg role [Hlt Hnd]. simpl. split.
    + apply Forall_app. split.
      * eapply Forall_impl; [|exact Hlt]. intros e He. simpl in He. lia.
      * constructor; [simpl; lia | constructor].
    + rewrite map_app. simpl. apply list.NoDup_app. split_and!; [done | | ].
      * intros x Hx Hx'. apply list_elem_of_fmap in Hx as (e & -> & He).
        apply (proj1 (list.Forall_forall _ _) Hlt) in He.
        apply list_elem_of_singleton in Hx'. lia.
      * apply NoDup_singleton.
Qed.

(** ** Running a handler *)


Lemma root_names_repr h nodes ts :
  repr_list h nodes ts -> root_names nodes h = Ok (map tname ts, h).
Proof.
  intros Hr. unfold root_names. run_step (read_array_repr h nodes ts Hr).
  destruct Hr as [_ Hts].
  apply (mapM_pure _ addr tname).
  eapply Forall_impl; [|exact Hts]. intros t Ht. simpl.
  by run_step (read_node_repr h t Ht).
Qed.



Lemma foldl_status_agents status (agents : list Agent.t) :
  forall st,
    Project.agents
      (project (foldl (fun s agent => updateAgentStatus (Agent.role agent) status s)
                  st agents))
    = foldl (fun l agent => map (set_status (Agent.role agent) status) l)
            (Project.agents (project st)) agents.
Proof. induction agents as [|a agents IH]; intros st; [done|]. simpl. by rewrite IH. Qed.

Lemma foldl_status_map status (todo : list Agent.t) :
  forall l : list Agent.t,
    foldl (fun l agent => map (set_status (Agent.role agent) status) l) l todo
    = map (fun a => foldl (fun a b => set_status (Agent.role b) status a) a todo) l.
Proof.
  induction todo as [|b todo IH]; intros l; simpl.
  - by rewrite map_id.
  - by rewrite IH, map_map.
Qed.

Lemma settle_role status (todo : list Agent.t) :
  forall a, Agent.role (foldl (fun a b => set_status (Agent.role b) status a) a todo)
            = Agent.role a.
Proof.
  induction todo as [|b todo IH]; intros a; [done|]. simpl. rewrite IH.
  unfold set_status. by destruct (decide _).
Qed.

Lemma settle_keeps status (todo : list Agent.t) :
  forall a, Agent.status a = status ->
    Agent.status (foldl (fun a b => set_status (Agent.role b) status a) a todo) = status.
Proof.
  induction todo as [|b todo IH]; intros a Ha; [done|]. simpl. apply IH.
  unfold set_status. by destruct (decide _).
Qed.

(** After an update for every role of [todo], an agent with one of these
    roles has the status. *)
Lemma settle_all status (todo : list Agent.t) :
  forall a b, b ∈ todo -> Agent.role b = Agent.role a ->
    Agent.status (foldl (fun a b => set_status (Agent.role b) status a) a todo) = status.
Proof.
  induction todo as [|b0 todo IH]; intros a b Hb Hrole; [by inversion Hb|].
  simpl. apply elem_of_cons in Hb as [->|Hb].
  - apply settle_keeps. unfold set_status.
    by rewrite decide_True.
  - apply (IH _ b Hb). rewrite Hrole. unfold set_status. by destruct (decide _).
Qed.

Lemma task_bind_set_state {B} f (k : unit -> Task B) st h :
  task_bind (set_state f) k st h = k tt (f st) h.
Proof. done. Qed.

Lemma task_bind_await_call {A B} (c : geminiService.completion A) (k : A -> Task B)
    a st h :
  c = geminiService.Returned a -> task_bind (await_call c) k st h = k a st h.
Proof. by intros ->. Qed.

Lemma task_bind_tree_op {A B} (m : M A) (k : A -> Task B) a st h h' :
  m h = Ok (a, h') -> task_bind (tree_op m) k st h = k a st h'.
Proof. intros H. unfold task_bind, tree_op. by rewrite H. Qed.

Lemma task_bind_tree_op_TypeError {A B} (m : M A) (k : A -> Task B) st h :
  m h = Err TypeError ->
  task_bind (tree_op m) k st h
  = Some (geminiService.Thrown geminiService.TypeError, st, h).
Proof. intros H. unfold task_bind, tree_op. by rewrite H. Qed.


(** ** The name of the branch *)

Lemma replace_runs_no_space is_space s :
  is_space "-"%char = false ->
  forall in_run, has_space is_space (replace_runs is_space in_run s) = false.
Proof.
  intros Hh. induction s as [|c s IH]; intros in_run; [done|]. simpl.
  destruct (is_space c) eqn:Hc.
  - destruct in_run; [apply IH|]. simpl. by rewrite Hh, IH.
  - simpl. by rewrite Hc, IH.
Qed.

Lemma slice0_no_space is_space n :
  forall s, has_space is_space s = false -> has_space is_space (slice0 n s) = false.
Proof.
  induction n as [|n IH]; intros s Hs; [done|]. destruct s as [|c s]; [done|].
  simpl in *. apply orb_false_iff in Hs as [Hc Hs]. by rewrite Hc, IH.
Qed.

Lemma slice0_length n : forall s, String.length (slice0 n s) <= n.
Proof.
  induction n as [|n IH]; intros s; [done|]. destruct s as [|c s]; simpl; [lia|].
  specialize (IH s). lia.
Qed.

Lemma foldl_status_logs status (agents : list Agent.t) :
  forall st,
    logs (foldl (fun s agent => updateAgentStatus (Agent.role agent) status s) st agents)
    = logs st.
Proof. induction agents as [|a agents IH]; intros st; [done|]. simpl. by rewrite IH. Qed.


Lemma try_catch_finally_caught body handler f e st h st1 h1 st2 h2 :
  body st h = Some (geminiService.Thrown e, st1, h1) ->
  handler e st1 h1 = Some (geminiService.Returned tt, st2, h2) ->
  try_catch_finally body handler (set_state f) st h
  = Some (geminiService.Returned tt, f st2, h2).
Proof. intros H1 H2. unfold try_catch_finally. by rewrite H1, H2. Qed.

Lemma task_bind_assoc {A B C} (m : Task A) (k1 : A -> Task B) (k2 : B -> Task C) st h :
  task_bind (task_bind m k1) k2 st h
  = task_bind m (fun a => task_bind (k1 a) k2) st h.
Proof.
  unfold task_bind. by destruct (m st h) as [[[[a|e] st1] h1]|].
Qed.

Lemma task_bind_ret {A B} (a : A) (k : A -> Task B) st h :
  task_bind (task_ret a) k st h = k a st h.
Proof. done. Qed.

(** [run_task]: one statement of the handler at the head of the goal. *)
Ltac run_task :=
  first [ rewrite task_bind_assoc
        | rewrite task_bind_ret
        | rewrite task_bind_set_state
        | erewrite task_bind_await_call by eassumption
        | erewrite task_bind_tree_op by eassumption ];
  cbv beta iota.

Lemma findOrCreateFile_TypeError h nodes ts path c fuel folders f :
  repr_list h nodes ts ->
  heights ts < fuel ->
  parts_of path = folders ++ [f] ->
  childless_on_path folders (map erase ts) ->
  findOrCreateFile fuel nodes path c h = Err TypeError.
Proof.
  intros Hr Hfuel Hparts Hc. unfold findOrCreateFile.
  run_step (JSON_stringify_repr fuel h nodes ts Hr Hfuel).
  destruct (JSON_parse_spec (map erase ts) h)
    as (arr & ts1 & k & Hrun & Hr1 & He1 & Hfp).
  run_step Hrun. rewrite Hparts, pop_app.
  assert (truthy f = true) as Hf.
  { pose proof (parts_of_truthy path) as Hall. rewrite Hparts in Hall.
    apply Forall_app in Hall as [_ Hall]. by apply Forall_cons_1 in Hall as [? _]. }
  rewrite Hf. simpl. rewrite <- He1 in Hc.
  unfold bind. by rewrite (place_childless f c folders _ arr ts1 Hr1 Hc).
Qed.

Lemma stuck_coding_agents (agents : list Agent.t) :
  map (set_status AgentRole.Coder AgentStatus.Coding)
    (map (set_status AgentRole.Planner AgentStatus.Done)
       (map (set_status AgentRole.Planner AgentStatus.Thinking) agents))
  = map stuck_coding agents.
Proof.
  rewrite !map_map. apply map_ext. intros [i r s d]. by destruct r.
Qed.

(** * [extractJson] *)

Lemma prefix_append pat s : String.prefix pat (pat +:+ s) = true.
Proof.
  induction pat as [|c pat IH]; [by destruct s|].
  change (String c pat +:+ s) with (String c (pat +:+ s)). simpl.
  destruct (ascii_dec c c); [exact IH | done].
Qed.

Lemma drop_string_append pat s :
  geminiService.drop_string (String.length pat) (pat +:+ s) = s.
Proof. induction pat as [|c pat IH]; [by destruct s | exact IH]. Qed.

Lemma find_sub_here pat s :
  geminiService.find_sub pat (pat +:+ s) = Some (EmptyString, s).
Proof.
  destruct pat as [|c pat]; [by destruct s|].
  change (String c pat +:+ s) with (String c (pat +:+ s)).
  unfold geminiService.find_sub; fold geminiService.find_sub.
  change (String c (pat +:+ s)) with (String c pat +:+ s).
  by rewrite prefix_append, drop_string_append.
Qed.

Lemma prefix_cons a s1 b s2 :
  String.prefix (String a s1) (String b s2)
  = if ascii_dec a b then String.prefix s1 s2 else false.
Proof. done. Qed.

Lemma fence_open_head :
  geminiService.fence_open = String "`"%char ("``json" +:+ nl).
Proof. done. Qed.

Lemma fence_close_head :
  geminiService.fence_close = String "010"%char (String "`"%char "``").
Proof. done. Qed.

Lemma prefix_fence_open c s :
  c <> "`"%char -> String.prefix geminiService.fence_open (String c s) = false.
Proof.
  intros Hc. rewrite fence_open_head, prefix_cons.
  destruct (ascii_dec "`" c) as [Heq|]; [by destruct Hc|done].
Qed.

Lemma find_open_skip pre s :
  no_backquote pre = true ->
  geminiService.find_sub geminiService.fence_open (pre +:+ s)
  = match geminiService.find_sub geminiService.fence_open s with
    | Some (before, after) => Some (pre +:+ before, after)
    | None => None
    end.
Proof.
  induction pre as [|c pre IH]; intros Hpre.
  - change (EmptyString +:+ s) with s.
    by destruct (geminiService.find_sub geminiService.fence_open s) as [[b a]|].
  - simpl in Hpre. apply andb_true_iff in Hpre as [Hc Hpre].
    apply negb_true_iff, Ascii.eqb_neq in Hc.
    change (String c pre +:+ s) with (String c (pre +:+ s)).
    unfold geminiService.find_sub; fold geminiService.find_sub.
    rewrite (prefix_fence_open c _ Hc), (IH Hpre).
    by destruct (geminiService.find_sub geminiService.fence_open s) as [[b a]|].
Qed.

Lemma find_close_first body suf :
  no_backquote body = true ->
  geminiService.find_sub geminiService.fence_close
    (body +:+ geminiService.fence_close +:+ suf)
  = Some (body, suf).
Proof.
  induction body as [|c body IH]; intros Hbody.
  - apply (find_sub_here geminiService.fence_close suf).
  - simpl in Hbody. apply andb_true_iff in Hbody as [Hc Hbody].
    change (String c body +:+ geminiService.fence_close +:+ suf)
      with (String c (body +:+ geminiService.fence_close +:+ suf)).
    unfold geminiService.find_sub; fold geminiService.find_sub.
    assert (String.prefix geminiService.fence_close
              (String c (body +:+ geminiService.fence_close +:+ suf)) = false) as ->.
    { rewrite fence_close_head at 1. rewrite prefix_cons.
      destruct (ascii_dec "010" c); [|done].
      destruct body as [|c' body'].
      - change (EmptyString +:+ geminiService.fence_close +:+ suf)
          with (String "010"%char (String "`"%char "``" +:+ suf)).
        rewrite prefix_cons. by destruct (ascii_dec "`" "010").
      - simpl in Hbody. apply andb_true_iff in Hbody as [Hc' _].
        apply negb_true_iff, Ascii.eqb_neq in Hc'.
        change (String c' body' +:+ geminiService.fence_close +:+ suf)
          with (String c' (body' +:+ geminiService.fence_close +:+ suf)).
        rewrite prefix_cons.
        destruct (ascii_dec "`" c') as [Heq|]; [by destruct Hc'|done]. }
    by rewrite (IH Hbody).
Qed.

Lemma find_open_none s :
  no_backquote s = true ->
  geminiService.find_sub geminiService.fence_open s = None.
Proof.
  induction s as [|c s IH]; intros Hs; [done|].
  simpl in Hs. apply andb_true_iff in Hs as [Hc Hs].
  apply negb_true_iff, Ascii.eqb_neq in Hc.
  unfold geminiService.find_sub; fold geminiService.find_sub.
  by rewrite (prefix_fence_open c _ Hc), (IH Hs).
Qed.

(** * What a write leaves alone *)

Lemma first_named_erase s ts :
  first_named s (map erase ts) = erase <$> find_tree (named s) ts.
Proof.
  induction ts as [|t ts IH]; [done|]. simpl. rewrite jname_erase.
  unfold named. by destruct (bool_decide (name (node t) = s)).
Qed.

Lemma lookup_json_cons s rest js :
  lookup_json (s :: rest) js
  = match first_named s js with
    | None => None
    | Some j =>
        match rest with
        | [] => Some j
        | _ :: _ =>
            match jtype_of j with
            | folder => lookup_json rest (default [] (jchildren_of j))
            | file => None
            end
        end
    end.
Proof. done. Qed.

Lemma lookup_spec_json h parts :
  forall ts, Forall (repr h) ts ->
    lookup_json parts (map erase ts)
    = match lookup_spec parts ts with
      | Hit t => Some (erase t)
      | _ => None
      end.
Proof.
  induction parts as [|s rest IH]; intros ts Hts; [done|].
  rewrite lookup_json_cons, lookup_spec_cons, first_named_erase.
  destruct (find_tree (named s) ts) as [t|] eqn:Hfind; [|done]. simpl.
  destruct rest as [|s' rest']; [done|].
  rewrite jtype_erase, jchildren_erase.
  destruct (type (node t)); [done|].
  apply find_tree_Some in Hfind as [Hin _].
  pose proof (proj1 (list.Forall_forall _ _) Hts t Hin) as Ht.
  pose proof (repr_kids h t Ht) as Hk.
  destruct (children (node t)).
  - simpl. apply IH. by destruct Hk.
  - by rewrite Hk.
Qed.

(** The first node of a name after a change that keeps all names and only
    appends. *)
Lemma first_named_put_file_other s f c js :
  s <> f -> first_named s (put_file_spec f c js) = first_named s js.
Proof.
  intros Hne. induction js as [|j js IH]; simpl.
  - by rewrite bool_decide_eq_false_2.
  - destruct (bool_decide (jname_of j = f) && bool_decide (jtype_of j = file)) eqn:Htest;
      simpl.
    + apply andb_true_iff in Htest as [Hn _]. apply bool_decide_eq_true_1 in Hn.
      by rewrite !(bool_decide_eq_false_2 (jname_of j = s)) by congruence.
    + by rewrite IH.
Qed.

Lemma first_named_put_file_same f c js j :
  first_named f js = Some j ->
  first_named f (put_file_spec f c js)
  = Some (if bool_decide (jtype_of j = file)
          then JNode (jname_of j) (jtype_of j) (Some c) (jchildren_of j)
          else j).
Proof.
  induction js as [|x js IH]; intros Hfind; [done|]. simpl in *.
  destruct (bool_decide (jname_of x = f)) eqn:Hn.
  - injection Hfind as ->. simpl.
    destruct (bool_decide (jtype_of j = file)); simpl; by rewrite Hn.
  - simpl. rewrite Hn. by apply IH.
Qed.

Lemma first_named_enter_other s d inside js :
  s <> d -> first_named s (enter d inside js) = first_named s js.
Proof.
  intros Hne. induction js as [|j js IH]; simpl.
  - by rewrite bool_decide_eq_false_2.
  - destruct (bool_decide (jname_of j = d) && bool_decide (jtype_of j = folder))
      eqn:Htest; simpl.
    + apply andb_true_iff in Htest as [Hn _]. apply bool_decide_eq_true_1 in Hn.
      by rewrite !(bool_decide_eq_false_2 (jname_of j = s)) by congruence.
    + by rewrite IH.
Qed.

Lemma first_named_enter_same d inside js j :
  first_named d js = Some j ->
  first_named d (enter d inside js)
  = Some (if bool_decide (jtype_of j = folder)
          then JNode (jname_of j) (jtype_of j) (jcontent_of j)
                     (Some (inside (default [] (jchildren_of j))))
          else j).
Proof.
  induction js as [|x js IH]; intros Hfind; [done|]. simpl in *.
  destruct (bool_decide (jname_of x = d)) eqn:Hn.
  - injection Hfind as ->. simpl.
    destruct (bool_decide (jtype_of j = folder)); simpl; by rewrite Hn.
  - simpl. rewrite Hn. by apply IH.
Qed.

(** A path other than the one written is looked up as before. *)
Lemma lookup_json_findOrCreate_other f c q :
  forall folders js j,
    lookup_json q js = Some j ->
    jtype_of j = file ->
    q <> folders ++ [f] ->
    exists j', lookup_json q (findOrCreate_spec folders f c js) = Some j'
               /\ is_file_with (jname_of j) (jcontent_of j) j'.
Proof.
  induction q as [|s rest IH]; intros folders js j Hl Hfile Hne; [done|].
  rewrite lookup_json_cons in Hl.
  destruct (first_named s js) as [x|] eqn:Hx; [|done].
  destruct folders as [|d folders'].
  - (* the file is written among [js] *)
    change (findOrCreate_spec [] f c js) with (put_file_spec f c js).
    rewrite lookup_json_cons.
    destruct (decide (s = f)) as [->|Hsf].
    + destruct rest as [|s' rest']; [done|].
      rewrite (first_named_put_file_same f c js x Hx).
      destruct (jtype_of x) eqn:Hty; [done|].
      rewrite bool_decide_eq_false_2 by congruence. rewrite Hty.
      exists j. by split.
    + rewrite (first_named_put_file_other s f c js Hsf), Hx.
      destruct rest as [|s' rest'].
      * injection Hl as <-. exists x. by split.
      * destruct (jtype_of x); [done|]. exists j. by split.
  - change (findOrCreate_spec (d :: folders') f c js)
      with (enter d (findOrCreate_spec folders' f c) js).
    rewrite lookup_json_cons.
    destruct (decide (s = d)) as [->|Hsd].
    + rewrite (first_named_enter_same d _ js x Hx).
      destruct rest as [|s' rest'].
      * injection Hl as <-. rewrite bool_decide_eq_false_2 by congruence.
        exists x. by split.
      * destruct (jtype_of x) eqn:Hty; [done|].
        rewrite bool_decide_eq_true_2 by done. simpl.
        apply (IH folders' _ j Hl Hfile). intros Heq. apply Hne. simpl. by rewrite Heq.
    + rewrite (first_named_enter_other s d _ js Hsd), Hx.
      destruct rest as [|s' rest'].
      * injection Hl as <-. exists x. by split.
      * destruct (jtype_of x); [done|]. exists j. by split.
Qed.

Lemma first_named_update c hd tl js :
  first_named hd (update_value c (hd :: tl) js)
  = update_json c hd tl (update_value c tl) <$> first_named hd js.
Proof.
  induction js as [|[n t co ch] js IH]; [done|].
  rewrite update_value_cons. simpl.
  destruct (bool_decide (n = hd)) eqn:Hn; simpl.
  - destruct (bool_decide (tl = []) && bool_decide (t = file)); simpl.
    + by rewrite Hn.
    + destruct t; simpl; [by rewrite Hn|]. destruct ch; simpl; by rewrite Hn.
  - rewrite Hn. exact IH.
Qed.

Lemma first_named_update_other c s hd tl js :
  s <> hd ->
  first_named s (update_value c (hd :: tl) js) = first_named s js.
Proof.
  intros Hne. induction js as [|[n t co ch] js IH]; [done|].
  rewrite update_value_cons. simpl.
  destruct (bool_decide (n = hd)) eqn:Hn; simpl.
  - apply bool_decide_eq_true_1 in Hn. subst n.
    destruct (bool_decide (tl = []) && bool_decide (t = file)); simpl.
    + rewrite bool_decide_eq_false_2 by congruence. exact IH.
    + destruct t; simpl; [rewrite bool_decide_eq_false_2 by congruence; exact IH|].
      destruct ch; simpl; rewrite bool_decide_eq_false_2 by congruence; exact IH.
  - destruct (bool_decide (n = s)); [done | exact IH].
Qed.

Lemma lookup_json_update_other c q :
  forall p js j,
    lookup_json q js = Some j ->
    jtype_of j = file ->
    q <> p ->
    exists j', lookup_json q (update_value c p js) = Some j'
               /\ is_file_with (jname_of j) (jcontent_of j) j'.
Proof.
  induction q as [|s rest IH]; intros p js j Hl Hfile Hne; [done|].
  destruct p as [|hd tl].
  { exists j. by split. }
  rewrite lookup_json_cons in Hl. rewrite lookup_json_cons.
  destruct (first_named s js) as [x|] eqn:Hx; [|done].
  destruct (decide (s = hd)) as [->|Hsh].
  - rewrite first_named_update, Hx. simpl.
    destruct x as [n t co ch]. simpl in *.
    destruct rest as [|s' rest'].
    + injection Hl as <-. simpl in *. subst t.
      assert (tl <> []) as Htl by (intros ->; done).
      destruct (bool_decide (n = hd)); simpl;
        rewrite ?(bool_decide_eq_false_2 (tl = [])) by done; simpl;
        eexists; (split; [reflexivity | done]).
    + destruct t; [done|].
      destruct (bool_decide (n = hd)); simpl; rewrite ?andb_false_r.
      * destruct ch as [ks|]; simpl in *; [|by destruct rest'].
        apply (IH tl ks j Hl Hfile). congruence.
      * exists j. by split.
  - rewrite (first_named_update_other c s hd tl js Hsh), Hx.
    destruct rest as [|s' rest'].
    + injection Hl as <-. exists x. by split.
    + destruct (jtype_of x); [done|]. exists j. by split.
Qed.

Lemma lookup_json_file_found h q ts' j' n c :
  Forall (repr h) ts' -> well_tagged ts' ->
  lookup_json q (map erase ts') = Some j' ->
  is_file_with n c j' ->
  exists t', select_tree (List.last q empty_string) q (Some ts') = Some t'
             /\ name (node t') = n /\ type (node t') = file /\ content (node t') = c.
Proof.
  intros Hts Hwt Hl (Hn & Hty & Hc).
  rewrite (lookup_spec_json h q ts' Hts) in Hl.
  pose proof (select_tree_walk (List.last q empty_string) q ts' Hwt eq_refl) as Hwalk.
  destruct (lookup_spec q ts') as [t'| |]; try done.
  injection Hl as <-. rewrite jname_erase in Hn. rewrite jtype_erase in Hty.
  rewrite jcontent_erase in Hc.
  exists t'. split_and!; try done.
  rewrite Hwalk. unfold is_file. by rewrite bool_decide_eq_true_2.
Qed.

(** The file [updateFileByPath] reports is a file of the tree it returns. *)
Lemma updated_found c path ts f ts' f' :
  updated c path ts f ts' f' ->
  f' = f
  \/ exists t', t' ∈ flat_map subtrees ts' /\ f' = Some (addr t')
                /\ type (node t') = file.
Proof.
  intros H. induction_updated H.
  - by left.
  - by left.
  - right. destruct IH as [->|(t' & Hin & -> & Hfile)].
    + exists (TNode a' (set_content c (node t)) (kids t)).
      split_and!; [simpl; left | done | done].
    + exists t'. split_and!; try done.
      change (?x :: ts') with ([x] ++ ts'). rewrite flat_map_app.
      apply elem_of_app. by right.
  - destruct IH as [->|(t' & Hin & -> & Hfile)].
    + destruct IHk as [->|(t' & Hin & -> & Hfile)]; [by left|].
      right. exists t'. split_and!; try done.
      simpl. right. apply elem_of_app. by left.
    + right. exists t'. split_and!; try done.
      change (?x :: ts') with ([x] ++ ts'). rewrite flat_map_app.
      apply elem_of_app. by right.
  - destruct IH as [->|(t' & Hin & -> & Hfile)]; [by left|].
    right. exists t'. split_and!; try done.
    change (t :: ts') with ([t] ++ ts'). rewrite flat_map_app.
    apply elem_of_app. by right.
Qed.

(** * The components *)


(** * The data model after [findOrCreateFile] *)

Lemma split_slash_free_all s : Forall (fun x => slash_free x = true) (split slash s).
Proof.
  induction s as [|ch s IH]; simpl; [by repeat constructor|].
  destruct (Ascii.eqb ch slash) eqn:Hc; [by constructor|].
  destruct (split slash s) as [|seg segs]; [by repeat constructor; simpl; rewrite Hc|].
  apply Forall_cons_1 in IH as [Hseg Hsegs]. constructor; [|done].
  simpl. by rewrite Hc.
Qed.

Lemma parts_of_valid path : Forall valid_name (parts_of path).
Proof.
  unfold parts_of. pose proof (split_slash_free_all path) as Hall.
  induction Hall as [|x l Hx _ IH]; [constructor|]. simpl.
  destruct (truthy x) eqn:Ht; [|done]. constructor; [by split | done].
Qed.

Lemma jvalid_erase_list ts : valid_names ts -> Forall jvalid (map erase ts).
Proof.
  assert (forall t, valid_name (tname t) -> valid_names (kids t) -> jvalid (erase t))
    as Hnode.
  { induction t as [a n ks IH] using tree_ind'. intros Hn Hk. simpl in *.
    destruct (children n); [|by constructor].
    constructor; [done|]. apply valid_names_iff in Hk.
    clear Hn. induction IH as [|k ks Hk1 _ IHks]; [constructor|].
    apply Forall_cons_1 in Hk as [[Hv Hkk] Hk]. constructor; [by apply Hk1 | by apply IHks]. }
  intros Hv. apply valid_names_iff in Hv.
  induction Hv as [|t ts [Hn Hk] _ IH]; constructor; [by apply Hnode | done].
Qed.

Lemma valid_names_erase h ts :
  Forall (repr h) ts -> Forall jvalid (map erase ts) -> valid_names ts.
Proof.
  assert (forall t, repr h t -> jvalid (erase t) ->
                    valid_name (tname t) /\ valid_names (kids t)) as Hnode.
  { induction t as [a n ks IH] using tree_ind'. intros Hr Hj.
    pose proof (repr_kids h _ Hr) as Hk. simpl in *.
    destruct (children n) as [arr|].
    - inversion Hj as [|? ? ? js Hn Hjs]; subst. split; [done|].
      apply valid_names_iff. destruct Hk as [_ Hks]. clear Hj Hr Hn.
      induction IH as [|k ks Hk1 _ IHks]; [constructor|].
      apply Forall_cons_1 in Hks as [Hrk Hks]. simpl in Hjs.
      apply Forall_cons_1 in Hjs as [Hjk Hjs].
      constructor; [by apply Hk1 | by apply IHks].
    - inversion Hj; subst. split; [done|]. apply valid_names_iff. constructor. }
  intros Hts Hj. apply valid_names_iff.
  induction Hts as [|t ts Ht _ IH]; [constructor|]. simpl in Hj.
  apply Forall_cons_1 in Hj as [Hjt Hj]. constructor; [by apply Hnode | by apply IH].
Qed.

Lemma shape_names_erase ts : map jname_of (map erase ts) = map tname ts.
Proof. rewrite map_map. apply map_ext. intros t. apply jname_erase. Qed.

Lemma junique_erase_list ts : unique_names ts -> junique_list (map erase ts).
Proof.
  assert (forall t, unique_names (kids t) -> junique (erase t)) as Hnode.
  { induction t as [a n ks IH] using tree_ind'. intros Hu. simpl in *.
    destruct (children n); [|by constructor].
    apply unique_names_iff in Hu as [Hnd Hk].
    constructor; [by rewrite shape_names_erase|].
    clear Hnd. induction IH as [|k ks Hk1 _ IHks]; [constructor|].
    apply Forall_cons_1 in Hk as [Hkk Hk]. constructor; [by apply Hk1 | by apply IHks]. }
  intros Hu. apply unique_names_iff in Hu as [Hnd Hk].
  split; [by rewrite shape_names_erase|].
  clear Hnd. induction Hk as [|t ts Ht _ IH]; constructor; [by apply Hnode | done].
Qed.

Lemma unique_names_erase h ts :
  Forall (repr h) ts -> junique_list (map erase ts) -> unique_names ts.
Proof.
  assert (forall t, repr h t -> junique (erase t) -> unique_names (kids t)) as Hnode.
  { induction t as [a n ks IH] using tree_ind'. intros Hr Hj.
    pose proof (repr_kids h _ Hr) as Hk. simpl in *.
    destruct (children n) as [arr|].
    - inversion Hj as [|? ? ? js Hnd Hjs]; subst.
      apply unique_names_iff. split; [by rewrite <- shape_names_erase|].
      destruct Hk as [_ Hks]. clear Hj Hr Hnd.
      induction IH as [|k ks Hk1 _ IHks]; [constructor|].
      apply Forall_cons_1 in Hks as [Hrk Hks]. simpl in Hjs.
      apply Forall_cons_1 in Hjs as [Hjk Hjs].
      constructor; [by apply Hk1 | by apply IHks].
    - rewrite Hk. apply unique_names_iff. split; constructor. }
  intros Hts [Hnd Hj]. apply unique_names_iff.
  split; [by rewrite <- shape_names_erase|].
  clear Hnd. induction Hts as [|t ts Ht _ IH]; [constructor|]. simpl in Hj.
  apply Forall_cons_1 in Hj as [Hjt Hj]. constructor; [by apply Hnode | by apply IH].
Qed.

Lemma jvalid_put_file f c js :
  valid_name f -> Forall jvalid js -> Forall jvalid (put_file_spec f c js).
Proof.
  intros Hf. induction 1 as [|j js Hj Hjs IH]; simpl.
  - constructor; [by constructor | constructor].
  - destruct (_ && _); [|by constructor].
    constructor; [|done]. destruct Hj; simpl; by constructor.
Qed.

Lemma jvalid_enter d inside js :
  valid_name d ->
  (forall js, Forall jvalid js -> Forall jvalid (inside js)) ->
  Forall jvalid js -> Forall jvalid (enter d inside js).
Proof.
  intros Hd Hin. induction 1 as [|j js Hj Hjs IH]; simpl.
  - constructor; [|constructor]. constructor; [done|]. apply Hin. constructor.
  - destruct (_ && _); [|by constructor].
    constructor; [|done]. destruct Hj; simpl.
    + constructor; [done|]. apply Hin. constructor.
    + constructor; [done|]. by apply Hin.
Qed.

Lemma jvalid_findOrCreate_spec folders f c :
  Forall valid_name folders -> valid_name f ->
  forall js, Forall jvalid js -> Forall jvalid (findOrCreate_spec folders f c js).
Proof.
  intros Hfs Hf. induction Hfs as [|d rest Hd _ IH]; intros js Hjs; simpl.
  - by apply jvalid_put_file.
  - by apply jvalid_enter.
Qed.

Lemma names_put_file_found f c js :
  (exists j, j ∈ js /\ jname_of j = f /\ jtype_of j = file) ->
  map jname_of (put_file_spec f c js) = map jname_of js.
Proof.
  induction js as [|x js IH]; intros (j & Hin & Hn & Hty); [by inversion Hin|].
  simpl. destruct (bool_decide (jname_of x = f) && bool_decide (jtype_of x = file))
    eqn:Htest; [done|].
  simpl. f_equal. apply IH. apply elem_of_cons in Hin as [->|Hin]; [|by exists j].
  by rewrite !bool_decide_eq_true_2 in Htest.
Qed.

Lemma put_file_missing_json f c js :
  Forall (fun j => ~ (jname_of j = f /\ jtype_of j = file)) js ->
  put_file_spec f c js = js ++ [JNode f file (Some c) None].
Proof.
  induction 1 as [|x js Hx _ IH]; [done|]. simpl.
  destruct (bool_decide (jname_of x = f) && bool_decide (jtype_of x = file)) eqn:Htest.
  - apply andb_true_iff in Htest as [H1 H2].
    apply bool_decide_eq_true_1 in H1. apply bool_decide_eq_true_1 in H2. by destruct Hx.
  - by rewrite IH.
Qed.

Lemma put_file_cases f js :
  (exists j, j ∈ js /\ jname_of j = f /\ jtype_of j = file)
  \/ Forall (fun j => ~ (jname_of j = f /\ jtype_of j = file)) js.
Proof.
  induction js as [|x js [(j & Hin & H)|IH]].
  - right. constructor.
  - left. exists j. split; [by right | done].
  - destruct (decide (jname_of x = f /\ jtype_of x = file)) as [Hx|Hx].
    + left. exists x. split; [left | done].
    + right. by constructor.
Qed.

Lemma junique_put_file f c js :
  Forall (fun j => jname_of j = f -> jtype_of j = file) js ->
  junique_list js -> junique_list (put_file_spec f c js).
Proof.
  intros Hk [Hnd Hj].
  destruct (put_file_cases f js) as [Hfound|Hmissing].
  - split; [by rewrite names_put_file_found|].
    clear Hnd Hk Hfound. induction Hj as [|x js Hx Hxs IH]; simpl.
    + constructor; [constructor | constructor].
    + destruct (_ && _); [|by constructor].
      constructor; [|done]. destruct Hx; simpl; by constructor.
  - rewrite (put_file_missing_json f c js Hmissing). split.
    + rewrite map_app. apply list.NoDup_app. split_and!; [done | | apply NoDup_singleton].
      intros n Hn Hn'. simpl in Hn'. apply list_elem_of_singleton in Hn'. subst n.
      apply list_elem_of_fmap in Hn as (j & Hjn & Hin).
      pose proof (proj1 (list.Forall_forall _ _) Hk j Hin (eq_sym Hjn)) as Hty.
      by apply (proj1 (list.Forall_forall _ _) Hmissing j Hin).
    + apply Forall_app. split; [done|]. constructor; [constructor | constructor].
Qed.

Lemma names_enter_found d inside js :
  (exists j, j ∈ js /\ jname_of j = d /\ jtype_of j = folder) ->
  map jname_of (enter d inside js) = map jname_of js.
Proof.
  induction js as [|x js IH]; intros (j & Hin & Hn & Hty); [by inversion Hin|].
  simpl. destruct (bool_decide (jname_of x = d) && bool_decide (jtype_of x = folder))
    eqn:Htest; [done|].
  simpl. f_equal. apply IH. apply elem_of_cons in Hin as [->|Hin]; [|by exists j].
  by rewrite !bool_decide_eq_true_2 in Htest.
Qed.

Lemma enter_cases d js :
  (exists j, j ∈ js /\ jname_of j = d /\ jtype_of j = folder)
  \/ no_folder d js.
Proof.
  induction js as [|x js [(j & Hin & H)|IH]].
  - right. constructor.
  - left. exists j. split; [by right | done].
  - destruct (decide (jname_of x = d /\ jtype_of x = folder)) as [Hx|Hx].
    + left. exists x. split; [left | done].
    + right. by constructor.
Qed.

Lemma folder_children_no_folder d js : no_folder d js -> folder_children d js = None.
Proof.
  induction 1 as [|x js Hx _ IH]; [done|]. simpl.
  destruct (bool_decide (jname_of x = d) && bool_decide (jtype_of x = folder)) eqn:Htest;
    [|done].
  apply andb_true_iff in Htest as [H1 H2].
  apply bool_decide_eq_true_1 in H1. apply bool_decide_eq_true_1 in H2. by destruct Hx.
Qed.

Lemma junique_enter d inside js :
  Forall (fun j => jname_of j = d -> jtype_of j = folder) js ->
  (junique_list (default [] (folder_children d js)) ->
   junique_list (inside (default [] (folder_children d js)))) ->
  junique_list js -> junique_list (enter d inside js).
Proof.
  intros Hk Hin [Hnd Hj].
  destruct (enter_cases d js) as [Hfound|Hmissing].
  - split; [by rewrite names_enter_found|].
    clear Hnd Hk Hfound. induction Hj as [|x js Hx Hxs IH]; simpl in *.
    + constructor; [|constructor]. destruct Hin as [Hnd' Hj']; [split; constructor|].
      by constructor.
    + destruct (bool_decide (jname_of x = d) && bool_decide (jtype_of x = folder)).
      * constructor; [|done]. destruct Hx as [n t c|n t c ks Hnd' Hks]; simpl in *.
        -- destruct Hin as [Hnd'' Hj']; [split; constructor|]. by constructor.
        -- destruct Hin as [Hnd'' Hj']; [by split|]. by constructor.
      * constructor; [done|]. by apply IH.
  - rewrite (enter_no_folder d inside js Hmissing).
    rewrite (folder_children_no_folder d js Hmissing) in Hin. simpl in Hin.
    destruct Hin as [Hnd' Hj']; [split; constructor|]. split.
    + rewrite map_app. apply list.NoDup_app. split_and!; [done | | apply NoDup_singleton].
      intros n Hn Hn'. simpl in Hn'. apply list_elem_of_singleton in Hn'. subst n.
      apply list_elem_of_fmap in Hn as (j & Hjn & Hjin).
      pose proof (proj1 (list.Forall_forall _ _) Hk j Hjin (eq_sym Hjn)) as Hty.
      by apply (proj1 (list.Forall_forall _ _) Hmissing j Hjin).
    + apply Forall_app. split; [done|]. constructor; [by constructor | constructor].
Qed.

Lemma junique_findOrCreate_spec f c folders :
  forall js,
    kinds_fit (folders ++ [f]) js ->
    junique_list js -> junique_list (findOrCreate_spec folders f c js).
Proof.
  induction folders as [|d rest IH]; intros js Hk Hu.
  - by apply junique_put_file.
  - change ((d :: rest) ++ [f]) with (d :: (rest ++ [f])) in Hk. simpl in Hk.
    assert (exists x l, rest ++ [f] = x :: l) as (x & l & Hrest).
    { destruct rest; simpl; eauto. }
    rewrite Hrest in Hk. destruct Hk as [Hkd Hk]. rewrite <- Hrest in Hk.
    simpl. apply junique_enter; [done | by apply IH | done].
Qed.

Lemma jvalid_findOrCreate_value path c js :
  Forall jvalid js -> Forall jvalid (findOrCreate_value (parts_of path) c js).
Proof.
  intros Hjs. unfold findOrCreate_value.
  destruct (pop (parts_of path)) as [[folders f]|] eqn:Hpop; [|done].
  apply pop_Some in Hpop. pose proof (parts_of_valid path) as Hv.
  rewrite Hpop in Hv. apply Forall_app in Hv as [Hfs Hf].
  apply Forall_cons_1 in Hf as [Hf _]. by apply jvalid_findOrCreate_spec.
Qed.

Lemma junique_findOrCreate_value parts c js :
  kinds_fit parts js -> junique_list js -> junique_list (findOrCreate_value parts c js).
Proof.
  intros Hk Hjs. unfold findOrCreate_value.
  destruct (pop parts) as [[folders f]|] eqn:Hpop; [|done].
  apply pop_Some in Hpop. subst parts. by apply junique_findOrCreate_spec.
Qed.
(** * The claims *)

(** C1 (amended).  When the path has no empty segment and the lookup of the
    specification (first match at every segment, folders inside) reaches a
    file, [updateFileByPath] returns a new root array, and the caller's
    objects are untouched; looking the path up from the new root returns a
    node that is the old file with the content replaced by [c].  When the
    sibling names of the tree are unique, that node is the one returned as
    the updated file, and at every level along the path the siblings that are
    not on the path are the objects they were. *)
Theorem updateFileByPath_found h nodes ts path c t0 :
  repr_list h nodes ts ->
  Forall (fun s => truthy s = true) (pathParts path) ->
  lookup_spec (pathParts path) ts = Hit t0 ->
  type (node t0) = file ->
  exists newRoot foundFile r h' ts',
    updateFileByPath c nodes path h = Ok ((newRoot, foundFile), h')
    /\ h !! newRoot = None
    /\ preserved h h'
    /\ repr_list h' newRoot ts'
    /\ findAndSelectFile newRoot path h' = Ok (Some r, h')
    /\ h' !! r = Some (ONode (set_content c (node t0)))
    /\ (unique_names ts ->
        foundFile = Some r /\ shared_off_path (pathParts path) ts ts').
Proof.
  intros Hr Hsegs Hw Hfile. unfold updateFileByPath.
  destruct (recursiveUpdate_spec c (pathParts path) h nodes ts None Hr)
    as (arr' & f' & h' & ts' & Hrun & Hp & Hr' & Hupd & Hfresh & _).
  destruct Hr as [_ Hts].
  destruct (updated_first_match _ _ _ _ _ _ Hupd h t0 _ Hts Hw Hfile eq_refl)
    as (a' & Hsel).
  exists arr', f', a', h', ts'. split_and!; [done | | done | done | | |].
  - apply lookup_ge_None. apply Hfresh, split_nonempty.
  - rewrite (findAndSelectFile_repr h' arr' ts' path Hr').
    unfold parts_of. fold (pathParts path).
    rewrite (filter_truthy_all _ Hsegs). by rewrite Hsel.
  - destruct Hr' as [_ Hts'].
    apply (repr_node h' _ (select_tree_repr h' _ _ ts' _ Hts' Hsel)).
  - intros Hu.
    destruct (updated_on_path _ _ _ _ _ _ Hupd h t0 _ Hts Hu
                (lookup_spec_at_path _ _ _ Hw) Hfile eq_refl)
      as (a0 & Hsel0 & -> & Hsh).
    split; [|done]. rewrite Hsel in Hsel0. by injection Hsel0 as ->.
Qed.

Lemma updateFileByPath_found_witness :
  exists newRoot foundFile r h' ts',
    updateFileByPath "x" initial_files "src/App.tsx" initial_heap
    = Ok ((newRoot, foundFile), h')
    /\ initial_heap !! newRoot = None
    /\ preserved initial_heap h'
    /\ repr_list h' newRoot ts'
    /\ findAndSelectFile newRoot "src/App.tsx" h' = Ok (Some r, h')
    /\ h' !! r = Some (ONode (set_content "x" (node App_tsx_tree)))
    /\ (unique_names initial_tree ->
        foundFile = Some r
        /\ shared_off_path (pathParts "src/App.tsx") initial_tree ts').
Proof.
  apply (updateFileByPath_found initial_heap initial_files initial_tree
           "src/App.tsx" "x" App_tsx_tree initial_repr).
  - by repeat constructor.
  - reflexivity.
  - reflexivity.
Defined.

(** C1 as the specification states it fails where a file and a folder have
    the same name: the path [a] leads to the file (object 0), and the folder
    beside it (object 3), which is not on the way to the file, is replaced
    by a new object. *)
Lemma updateFileByPath_rebuilds_namesake :
  findAndSelectFile twin_files "a" twin_heap = Ok (Some 0, twin_heap)
  /\ forall newRoot foundFile h',
       updateFileByPath "y" twin_files "a" twin_heap = Ok ((newRoot, foundFile), h') ->
       ~ root_siblings_shared twin_heap twin_files h' newRoot 0.
Proof.
  split; [reflexivity|].
  intros newRoot foundFile h' Hrun. vm_compute in Hrun.
  injection Hrun as <- <- <-.
  intros (olds & news & Hold & Hnew & Hshared).
  vm_compute in Hold, Hnew. injection Hold as <-. injection Hnew as <-.
  specialize (Hshared 1 3 eq_refl ltac:(lia)). discriminate Hshared.
Qed.

(** C2 (amended).  In a tree of the data model whose names are path segments
    and unique among siblings, [findPath] returns a path for every file node
    of the tree, and [findAndSelectFile] on that path returns the very same
    object. *)
Theorem findPath_findAndSelectFile h nodes ts t fuel :
  repr_list h nodes ts ->
  well_tagged ts -> unique_names ts -> valid_names ts ->
  t ∈ flat_map subtrees ts ->
  type (node t) = file ->
  heights ts < fuel ->
  exists p,
    findPath fuel nodes (addr t) empty_string h = Ok (Some p, h)
    /\ findAndSelectFile nodes p h = Ok (Some (addr t), h).
Proof.
  intros Hr Hwt Hu Hv Hin Hfile Hfuel.
  rewrite (findPath_repr fuel h nodes ts (addr t) empty_string Hr Hfuel).
  destruct Hr as [Harr Hts].
  destruct (first_some_visit_complete h (addr t) ts
              (proj2 (Forall_forall _ _) (fun x _ => visit_complete h (addr t) x))
              Hts Hwt Hv (ex_intro _ t (conj Hin eq_refl)) empty_string) as [p Hp].
  destruct (first_some_visit_sound (addr t) ts
              (proj2 (Forall_forall _ _) (fun x _ => visit_sound (addr t) x)) _ _ Hp)
    as (names & t0 & -> & Hat & Ha).
  pose proof (at_path_valid _ _ _ Hat Hv) as Hnames.
  pose proof (at_path_nonempty _ _ _ Hat) as Hne.
  rewrite foldl_extend_join in * by done.
  exists (join names). split; [by rewrite Hp|].
  rewrite (findAndSelectFile_repr h nodes ts (join names) (conj Harr Hts)).
  rewrite parts_of_join by done.
  assert (node t0 = node t) as Hnode.
  { pose proof (repr_node h t0 (repr_subtrees h ts t0 Hts (at_path_subtree _ _ _ Hat))).
    pose proof (repr_node h t (repr_subtrees h ts t Hts Hin)). congruence. }
  rewrite (select_tree_at_path _ names ts t0 Hat Hu Hwt); [| congruence | done].
  simpl. by rewrite Ha.
Qed.

Lemma findPath_findAndSelectFile_witness :
  exists p,
    findPath 3 initial_files (addr App_tsx_tree) empty_string initial_heap
    = Ok (Some p, initial_heap)
    /\ findAndSelectFile initial_files p initial_heap
       = Ok (Some (addr App_tsx_tree), initial_heap).
Proof.
  apply (findPath_findAndSelectFile initial_heap initial_files initial_tree
           App_tsx_tree 3 initial_repr initial_well_tagged initial_unique_names
           initial_valid_names).
  - simpl. do 2 right. left.
  - reflexivity.
  - exact initial_heights.
Defined.

(** C2 as the specification states it fails for a folder: [findPath] gives
    the path [src] for the folder [src] of the seed tree, and
    [findAndSelectFile] returns [null] for it. *)
Lemma findPath_of_folder_not_selected :
  initial_heap !! 5 = Some (ONode (node src_tree))
  /\ ~ exists p,
        findPath 3 initial_files 5 empty_string initial_heap
        = Ok (Some p, initial_heap)
        /\ findAndSelectFile initial_files p initial_heap
           = Ok (Some 5, initial_heap).
Proof.
  split; [reflexivity|]. intros (p & Hp & Hs).
  vm_compute in Hp. injection Hp as <-. vm_compute in Hs. discriminate Hs.
Qed.

(** C3 (amended).  On a tree of the data model, [findAndSelectFile] takes at
    every segment of the filtered path the first node of that name and
    descends into folders; it returns the node matched by the final segment
    when that node is a file, and [null] when a segment matches nothing,
    when the final segment matches a folder, and when an interior segment
    matches a file whose name is not the final segment. *)
Theorem findAndSelectFile_walk h nodes ts path :
  repr_list h nodes ts ->
  well_tagged ts ->
  match lookup_spec (parts_of path) ts with
  | Hit t =>
      findAndSelectFile nodes path h
      = Ok ((if is_file (node t) then Some (addr t) else None), h)
  | Miss => findAndSelectFile nodes path h = Ok (None, h)
  | FileInside t =>
      tname t <> List.last (parts_of path) empty_string ->
      findAndSelectFile nodes path h = Ok (None, h)
  end.
Proof.
  intros Hr Hwt. rewrite (findAndSelectFile_repr h nodes ts path Hr).
  pose proof (select_tree_walk _ (parts_of path) ts Hwt eq_refl) as H.
  destruct (lookup_spec (parts_of path) ts) as [t| |t].
  - rewrite H. by destruct (is_file (node t)).
  - by rewrite H.
  - intros Hne. by rewrite (H Hne).
Qed.

Lemma findAndSelectFile_walk_witness :
  findAndSelectFile initial_files "src/App.tsx" initial_heap
  = Ok (Some 2, initial_heap).
Proof.
  exact (findAndSelectFile_walk initial_heap initial_files initial_tree
           "src/App.tsx" initial_repr initial_well_tagged).
Defined.

(** C3 as the specification states it fails when the final segment matches
    a folder: [src] is the first node of that name in the seed tree, and the
    result for the path [src] is [null], not that node. *)
Lemma findAndSelectFile_folder_null :
  find_node (named "src") [5; 6; 7] initial_heap
  = Ok (Some (5, node src_tree), initial_heap)
  /\ findAndSelectFile initial_files "src" initial_heap <> Ok (Some 5, initial_heap).
Proof. split; [reflexivity | by vm_compute]. Qed.

(** An interior segment that matches a file with the name of the final
    segment ends the walk with that file. *)
Lemma findAndSelectFile_interior_namesake :
  findAndSelectFile twin_files "a/a" twin_heap = Ok (Some 0, twin_heap).
Proof. reflexivity. Qed.

(** C4 (amended).  When no chain of nodes named like the segments of the
    path ends at a file, [updateFileByPath] returns [null] for the file and
    a root array that is a new object, equal in value to the caller's; the
    objects of the caller's tree are left as they are. *)
Theorem updateFileByPath_absent h nodes ts path c :
  repr_list h nodes ts ->
  ~ present (pathParts path) ts ->
  exists updatedNodes h' js,
    updateFileByPath c nodes path h = Ok ((updatedNodes, None), h')
    /\ h !! updatedNodes = None
    /\ preserved h h'
    /\ value_of h nodes js
    /\ value_of h' updatedNodes js.
Proof.
  intros Hr Hnp. unfold updateFileByPath.
  destruct (recursiveUpdate_spec c (pathParts path) h nodes ts None Hr)
    as (arr' & f' & h' & ts' & Hrun & Hp & Hr' & Hu & Hfresh & _).
  destruct (updated_absent _ _ _ _ _ _ Hu Hnp) as [He ->].
  exists arr', h', (map erase ts).
  split_and!; [done | | done | by apply value_of_repr |].
  - apply lookup_ge_None. apply Hfresh, split_nonempty.
  - rewrite <- He. by apply value_of_repr.
Qed.

Lemma updateFileByPath_absent_witness :
  exists updatedNodes h' js,
    updateFileByPath "x" initial_files "missing.txt" initial_heap
    = Ok ((updatedNodes, None), h')
    /\ initial_heap !! updatedNodes = None
    /\ preserved initial_heap h'
    /\ value_of initial_heap initial_files js
    /\ value_of h' updatedNodes js.
Proof.
  apply (updateFileByPath_absent initial_heap initial_files initial_tree
           "missing.txt" "x" initial_repr).
  intros (t0 & [Hin Hn] & _).
  repeat (apply elem_of_cons in Hin as [->|Hin]; [discriminate Hn|]).
  by apply elem_of_nil in Hin.
Defined.

(** C4 as the specification states it fails on the seed tree: for a path
    that is not there the root returned is not the caller's array. *)
Lemma updateFileByPath_absent_new_root :
  ~ exists foundFile h',
      updateFileByPath "x" initial_files "missing.txt" initial_heap
      = Ok ((initial_files, foundFile), h').
Proof. intros (foundFile & h' & Hrun). vm_compute in Hrun. discriminate Hrun. Qed.

(** C5.  [findOrCreateFile] returns for every tree of the data model; it
    changes no object of the heap it is called in, so the caller's tree is
    afterwards the tree it was; and a second call with the same path and
    content on the result returns a tree of the same value. *)
Theorem findOrCreateFile_idempotent h nodes ts path c fuel :
  repr_list h nodes ts ->
  well_tagged ts ->
  heights ts < fuel ->
  exists once h1 js,
    findOrCreateFile fuel nodes path c h = Ok (once, h1)
    /\ preserved h h1
    /\ repr_list h1 nodes ts
    /\ value_of h1 once js
    /\ exists N, forall fuel', N <= fuel' ->
         exists twice h2,
           findOrCreateFile fuel' once path c h1 = Ok (twice, h2)
           /\ preserved h1 h2
           /\ value_of h2 twice js.
Proof.
  intros Hr Hwt Hfuel.
  destruct (findOrCreateFile_spec fuel h nodes ts path c Hr Hwt Hfuel)
    as (once & h1 & ts1 & Hrun1 & Hp1 & _ & Hr1 & Hwt1 & He1).
  exists once, h1, (map erase ts1).
  split_and!; [done | done | by eapply repr_list_preserved | by apply value_of_repr |].
  exists (S (heights ts1)). intros fuel' Hfuel'.
  destruct (findOrCreateFile_spec fuel' h1 once ts1 path c Hr1 Hwt1 ltac:(lia))
    as (twice & h2 & ts2 & Hrun2 & Hp2 & _ & Hr2 & _ & He2).
  exists twice, h2. split_and!; [done | done |].
  replace (map erase ts1) with (map erase ts2); [by apply value_of_repr|].
  rewrite He2, He1. apply findOrCreate_value_idem.
Qed.

Lemma findOrCreateFile_idempotent_witness :
  exists once h1 js,
    findOrCreateFile 3 initial_files "src/components/Login.tsx" "// code" initial_heap
    = Ok (once, h1)
    /\ preserved initial_heap h1
    /\ repr_list h1 initial_files initial_tree
    /\ value_of h1 once js
    /\ exists N, forall fuel', N <= fuel' ->
         exists twice h2,
           findOrCreateFile fuel' once "src/components/Login.tsx" "// code" h1
           = Ok (twice, h2)
           /\ preserved h1 h2
           /\ value_of h2 twice js.
Proof.
  exact (findOrCreateFile_idempotent initial_heap initial_files initial_tree
           "src/components/Login.tsx" "// code" 3
           initial_repr initial_well_tagged initial_heights).
Defined.

(** C6.  The tree [findOrCreateFile] returns has the value the
    specification describes: along the folder segments the first folder of
    the name is entered, or a new empty one appended and entered, and at the
    end the first file of the name gets the content, or a new file is
    appended.  Where the walk through existing folders [pre] first misses a
    folder [d], the siblings there are as they were, followed by one new
    folder [d] that holds the rest of the folders, one inside the other,
    around the new file.  On the seed tree the path
    [src/components/Login.tsx] puts [Login.tsx] into [src/components] and
    leaves every other node with its value. *)
Theorem findOrCreateFile_creates :
  (forall h nodes ts path c fuel,
     repr_list h nodes ts ->
     well_tagged ts ->
     heights ts < fuel ->
     exists newNodes h' js',
       findOrCreateFile fuel nodes path c h = Ok (newNodes, h')
       /\ value_of h' newNodes js'
       /\ js' = findOrCreate_value (parts_of path) c (map erase ts)
       /\ creates_missing (parts_of path) c (map erase ts) js')
  /\ (exists newNodes h',
        findOrCreateFile 3 initial_files "src/components/Login.tsx" "// code"
          initial_heap = Ok (newNodes, h')
        /\ value_of initial_heap initial_files INITIAL_FILE_STRUCTURE
        /\ value_of h' newNodes seed_with_login).
Proof.
  split; [apply findOrCreateFile_described|].
  destruct (findOrCreateFile_described initial_heap initial_files initial_tree
              "src/components/Login.tsx" "// code" 3
              initial_repr initial_well_tagged initial_heights)
    as (newNodes & h' & js' & Hrun & Hv & -> & _).
  exists newNodes, h'. split_and!; [done | | done].
  rewrite <- initial_erase. apply value_of_repr, initial_repr.
Qed.

Lemma findOrCreateFile_creates_witness :
  exists newNodes h' js',
    findOrCreateFile 3 initial_files "docs/api/notes.md" "# notes" initial_heap
    = Ok (newNodes, h')
    /\ value_of h' newNodes js'
    /\ js' = INITIAL_FILE_STRUCTURE
             ++ [fresh_chain ["docs"; "api"] "notes.md" "# notes"].
Proof.
  destruct (proj1 findOrCreateFile_creates initial_heap initial_files initial_tree
              "docs/api/notes.md" "# notes" 3
              initial_repr initial_well_tagged initial_heights)
    as (newNodes & h' & js' & Hrun & Hv & He & _).
  exists newNodes, h', js'. split; [exact Hrun|]. split; [exact Hv | exact He].
Defined.


(** C8.  Nothing is deleted: every node of the caller's tree is kept, at its
    place, in the tree [updateFileByPath] returns and in the tree
    [findOrCreateFile] returns; what changes is the content of files and
    nodes appended after their siblings. *)
Theorem nothing_deleted h nodes ts path c fuel :
  repr_list h nodes ts ->
  well_tagged ts ->
  heights ts < fuel ->
  exists js,
    value_of h nodes js
    /\ (exists updatedNodes foundFile h1 js1,
          updateFileByPath c nodes path h = Ok ((updatedNodes, foundFile), h1)
          /\ value_of h1 updatedNodes js1 /\ kept_list js js1)
    /\ (exists newNodes h2 js2,
          findOrCreateFile fuel nodes path c h = Ok (newNodes, h2)
          /\ value_of h2 newNodes js2 /\ kept_list js js2).
Proof.
  intros Hr Hwt Hfuel. exists (map erase ts).
  split_and!; [by apply value_of_repr | |].
  - destruct (recursiveUpdate_spec c (pathParts path) h nodes ts None Hr)
      as (arr' & f' & h' & ts' & Hrun & _ & Hr' & Hupd & _).
    exists arr', f', h', (map erase ts').
    split_and!; [done | by apply value_of_repr |].
    exists (map erase ts'), []. split; [by rewrite app_nil_r|].
    by eapply kept_updated.
  - destruct (findOrCreateFile_spec fuel h nodes ts path c Hr Hwt Hfuel)
      as (newNodes & h2 & ts2 & Hrun & _ & _ & Hr2 & _ & He).
    exists newNodes, h2, (map erase ts2).
    split_and!; [done | by apply value_of_repr |].
    rewrite He. by apply kept_findOrCreate_value, jtagged_map_erase.
Qed.

Lemma nothing_deleted_witness :
  exists js,
    value_of initial_heap initial_files js
    /\ (exists updatedNodes foundFile h1 js1,
          updateFileByPath "x" initial_files "src/App.tsx" initial_heap
          = Ok ((updatedNodes, foundFile), h1)
          /\ value_of h1 updatedNodes js1 /\ kept_list js js1)
    /\ (exists newNodes h2 js2,
          findOrCreateFile 3 initial_files "src/App.tsx" "x" initial_heap
          = Ok (newNodes, h2)
          /\ value_of h2 newNodes js2 /\ kept_list js js2).
Proof.
  exact (nothing_deleted initial_heap initial_files initial_tree "src/App.tsx" "x" 3
           initial_repr initial_well_tagged initial_heights).
Defined.



(** A response that is JSON but has no [subtasks] gives the other plan. *)
Lemma generatePlan_without_subtasks task :
  geminiService.generatePlan
    (fun _ _ => geminiService.Resolves (Some "{}"))
    (fun _ => Some (geminiService.JObject [])) task
  = geminiService.Returned geminiService.no_plan.
Proof. reflexivity. Qed.

(** C10.  [findOrCreateFile] looks for a folder segment among the folders
    only: where the siblings reached have unique names and one of them is a
    file named like the segment, a new folder of that name is appended after
    them, and the names of the siblings are no longer unique. *)
Theorem findOrCreateFile_folder_beside_file
    h nodes ts path c fuel pre d rest f L j :
  repr_list h nodes ts ->
  well_tagged ts ->
  heights ts < fuel ->
  parts_of path = pre ++ d :: rest ++ [f] ->
  level_at pre (map erase ts) = Some L ->
  NoDup (map jname_of L) ->
  j ∈ L -> jname_of j = d -> jtype_of j = file ->
  exists newNodes h' js' new_folder,
    findOrCreateFile fuel nodes path c h = Ok (newNodes, h')
    /\ value_of h' newNodes js'
    /\ level_at pre js' = Some (L ++ [new_folder])
    /\ jname_of new_folder = d /\ jtype_of new_folder = folder
    /\ ~ NoDup (map jname_of (L ++ [new_folder])).
Proof.
  intros Hr Hwt Hfuel Hparts HL Hnd Hj Hn Ht.
  pose proof (no_folder_beside_file d L j Hnd Hj Hn Ht) as Hno.
  destruct (findOrCreateFile_level fuel h nodes ts path c pre d rest f L
              Hr Hwt Hfuel Hparts HL Hno) as (newNodes & h' & js' & Hrun & Hv & Hl).
  exists newNodes, h', js', (fresh_chain (d :: rest) f c).
  split_and!; [done..|].
  rewrite map_app. intros Hnd'. apply list.NoDup_app in Hnd' as (_ & Hdisj & _).
  apply (Hdisj d).
  - rewrite <- Hn. by apply (list_elem_of_fmap_2 jname_of).
  - simpl. left.
Qed.

Lemma findOrCreateFile_folder_beside_file_witness :
  exists newNodes h' js' new_folder,
    findOrCreateFile 3 initial_files "README.md/notes.txt" "n" initial_heap
    = Ok (newNodes, h')
    /\ value_of h' newNodes js'
    /\ level_at [] js' = Some (INITIAL_FILE_STRUCTURE ++ [new_folder])
    /\ jname_of new_folder = "README.md" /\ jtype_of new_folder = folder
    /\ ~ NoDup (map jname_of (INITIAL_FILE_STRUCTURE ++ [new_folder])).
Proof.
  apply (findOrCreateFile_folder_beside_file initial_heap initial_files initial_tree
           "README.md/notes.txt" "n" 3 [] "README.md" [] "notes.txt"
           INITIAL_FILE_STRUCTURE README_json
           initial_repr initial_well_tagged initial_heights).
  - reflexivity.
  - reflexivity.
  - by apply (bool_decide_unpack _).
  - do 2 right. left.
  - reflexivity.
  - reflexivity.
Defined.
(** * Further properties of the tree operations and of the handlers *)

(** X1.  What [findOrCreateFile] has placed, [findAndSelectFile] finds: when
    the path has a file name and, along the walk of [findOrCreateFile], the
    nodes named like a folder segment are folders and the nodes named like
    the file name are files, the lookup of the same path in the returned
    tree gives a file node of that name whose content is the content
    passed. *)
Theorem findOrCreateFile_then_findAndSelectFile h nodes ts path c fuel :
  repr_list h nodes ts ->
  well_tagged ts ->
  heights ts < fuel ->
  parts_of path <> [] ->
  kinds_fit (parts_of path) (map erase ts) ->
  exists newNodes h' r n,
    findOrCreateFile fuel nodes path c h = Ok (newNodes, h')
    /\ findAndSelectFile newNodes path h' = Ok (Some r, h')
    /\ h' !! r = Some (ONode n)
    /\ name n = List.last (parts_of path) empty_string
    /\ type n = file
    /\ content n = Some c.
Proof.
  intros Hr Hwt Hfuel Hne Hk.
  destruct (findOrCreateFile_spec fuel h nodes ts path c Hr Hwt Hfuel)
    as (newNodes & h' & ts' & Hrun & _ & _ & Hr' & _ & He).
  unfold findOrCreate_value in He.
  destruct (pop (parts_of path)) as [[folders f]|] eqn:Hpop.
  2:{ unfold pop in Hpop. destruct (rev (parts_of path)) eqn:Hrev; [|done].
      apply (f_equal (@rev _)) in Hrev. by rewrite rev_involutive in Hrev. }
  apply pop_Some in Hpop. rewrite Hpop in Hk |- *.
  destruct (select_tree_placed folders f c ts' _ He Hk) as (t & Hsel & Hn & Hty & Hc).
  exists newNodes, h', (addr t), (node t).
  split_and!; try done.
  - rewrite (findAndSelectFile_repr h' newNodes ts' path Hr'), Hpop, last_snoc.
    by rewrite Hsel.
  - apply repr_node. destruct Hr' as [_ Hts]. by eapply select_tree_repr.
  - by rewrite last_snoc.
Qed.

Lemma findOrCreateFile_then_findAndSelectFile_witness :
  exists newNodes h' r n,
    findOrCreateFile 3 initial_files "src/components/Login.tsx" "// code" initial_heap
    = Ok (newNodes, h')
    /\ findAndSelectFile newNodes "src/components/Login.tsx" h' = Ok (Some r, h')
    /\ h' !! r = Some (ONode n)
    /\ name n = "Login.tsx"
    /\ type n = file
    /\ content n = Some "// code".
Proof.
  apply (findOrCreateFile_then_findAndSelectFile initial_heap initial_files initial_tree
           "src/components/Login.tsx" "// code" 3).
  - apply initial_repr.
  - apply initial_well_tagged.
  - apply initial_heights.
  - done.
  - vm_compute. repeat split; repeat constructor; intros; congruence.
Defined.

(** X2.  A path without a file name, that is the empty path or a path of
    slashes only, creates nothing: [findOrCreateFile] returns a copy of the
    tree, a new object of the same value, whatever the tree and the content
    are, and [findAndSelectFile] returns [null] for such a path. *)
Theorem findOrCreateFile_no_file_name h nodes ts path c fuel :
  repr_list h nodes ts ->
  heights ts < fuel ->
  only_slashes path = true ->
  exists newNodes h',
    findOrCreateFile fuel nodes path c h = Ok (newNodes, h')
    /\ h !! newNodes = None
    /\ preserved h h'
    /\ value_of h' newNodes (map erase ts)
    /\ findAndSelectFile newNodes path h' = Ok (None, h').
Proof.
  intros Hr Hfuel Hp. apply parts_of_only_slashes in Hp.
  unfold findOrCreateFile.
  run_step (JSON_stringify_repr fuel h nodes ts Hr Hfuel).
  destruct (JSON_parse_spec (map erase ts) h) as (arr & ts1 & k & Hrun & Hr1 & He1 & Hfp).
  run_step Hrun. rewrite Hp. simpl.
  exists arr, (h ++ k). split_and!.
  - done.
  - apply lookup_ge_None.
    assert (arr ∈ seq (length h) (length k)) as Hin by (rewrite <- Hfp; left).
    apply elem_of_seq in Hin. lia.
  - apply preserved_app.
  - rewrite <- He1. by apply value_of_repr.
  - rewrite (findAndSelectFile_repr _ _ _ _ Hr1). by rewrite Hp.
Qed.

Lemma findOrCreateFile_no_file_name_witness :
  exists newNodes h',
    findOrCreateFile 3 initial_files "//" "lost" initial_heap = Ok (newNodes, h')
    /\ initial_heap !! newNodes = None
    /\ preserved initial_heap h'
    /\ value_of h' newNodes (map erase initial_tree)
    /\ findAndSelectFile newNodes "//" h' = Ok (None, h').
Proof.
  apply (findOrCreateFile_no_file_name initial_heap initial_files initial_tree "//"
           "lost" 3).
  - apply initial_repr.
  - apply initial_heights.
  - reflexivity.
Defined.

(** X3.  [findOrCreateFile] throws a [TypeError] when its walk comes to a
    folder that has no [children] property, which the type [FileNode]
    allows: the next [find] or [findIndex] is called on [undefined].  On
    the same tree and path [findAndSelectFile] and [updateFileByPath]
    return. *)
Theorem findOrCreateFile_childless_folder h nodes ts path c fuel folders f :
  repr_list h nodes ts ->
  heights ts < fuel ->
  parts_of path = folders ++ [f] ->
  childless_on_path folders (map erase ts) ->
  findOrCreateFile fuel nodes path c h = Err TypeError
  /\ (exists found, findAndSelectFile nodes path h = Ok (found, h))
  /\ (exists updatedNodes foundFile h',
        updateFileByPath c nodes path h = Ok ((updatedNodes, foundFile), h')).
Proof.
  intros Hr Hfuel Hparts Hc. split_and!.
  - by apply (findOrCreateFile_TypeError h nodes ts path c fuel folders f).
  - eexists. by apply (findAndSelectFile_repr h nodes ts).
  - destruct (recursiveUpdate_spec c (pathParts path) h nodes ts None Hr)
      as (arr' & f' & h' & ts' & Hrun & _).
    by exists arr', f', h'.
Qed.

Lemma findOrCreateFile_childless_folder_witness :
  findOrCreateFile 2 bare_files "lib/util.ts" "// util" bare_heap = Err TypeError
  /\ (exists found, findAndSelectFile bare_files "lib/util.ts" bare_heap
                    = Ok (found, bare_heap))
  /\ (exists updatedNodes foundFile h',
        updateFileByPath "// util" bare_files "lib/util.ts" bare_heap
        = Ok ((updatedNodes, foundFile), h')).
Proof.
  apply (findOrCreateFile_childless_folder bare_heap bare_files bare_tree
           "lib/util.ts" "// util" 2 ["lib"] "util.ts").
  - split; [reflexivity|]. repeat constructor.
  - vm_compute. lia.
  - reflexivity.
  - exact I.
Defined.

(** X4.  Of two updates of the same path the later content wins: updating
    with [c1] and then with [c2] gives a tree of the same value as updating
    with [c2] alone, for every tree and every path. *)
Theorem updateFileByPath_later_content_wins h nodes ts path c1 c2 :
  repr_list h nodes ts ->
  exists r1 f1 h1 r2 f2 h2 r3 f3 h3 js,
    updateFileByPath c1 nodes path h = Ok ((r1, f1), h1)
    /\ updateFileByPath c2 r1 path h1 = Ok ((r2, f2), h2)
    /\ updateFileByPath c2 nodes path h = Ok ((r3, f3), h3)
    /\ value_of h2 r2 js
    /\ value_of h3 r3 js.
Proof.
  intros Hr.
  destruct (updateFileByPath_repr c1 h nodes ts path Hr)
    as (r1 & f1 & h1 & ts1 & Hrun1 & _ & Hr1 & He1).
  destruct (updateFileByPath_repr c2 h1 r1 ts1 path Hr1)
    as (r2 & f2 & h2 & ts2 & Hrun2 & _ & Hr2 & He2).
  destruct (updateFileByPath_repr c2 h nodes ts path Hr)
    as (r3 & f3 & h3 & ts3 & Hrun3 & _ & Hr3 & He3).
  exists r1, f1, h1, r2, f2, h2, r3, f3, h3, (map erase ts3).
  split_and!; try done; [|by apply value_of_repr].
  rewrite He3, <- (update_value_again c1 c2), <- He1, <- He2.
  by apply value_of_repr.
Qed.

Lemma updateFileByPath_later_content_wins_witness :
  exists r1 f1 h1 r2 f2 h2 r3 f3 h3 js,
    updateFileByPath "first" initial_files "README.md" initial_heap = Ok ((r1, f1), h1)
    /\ updateFileByPath "second" r1 "README.md" h1 = Ok ((r2, f2), h2)
    /\ updateFileByPath "second" initial_files "README.md" initial_heap
       = Ok ((r3, f3), h3)
    /\ value_of h2 r2 js
    /\ value_of h3 r3 js.
Proof.
  apply (updateFileByPath_later_content_wins initial_heap initial_files initial_tree).
  apply initial_repr.
Defined.

(** X5.  Updates of two different paths commute: in either order they give
    trees of the same value, for every tree. *)
Theorem updateFileByPath_commute h nodes ts p q c1 c2 :
  repr_list h nodes ts ->
  p <> q ->
  exists a1 f1 h1 a2 f2 h2 b1 g1 k1 b2 g2 k2 js,
    updateFileByPath c1 nodes p h = Ok ((a1, f1), h1)
    /\ updateFileByPath c2 a1 q h1 = Ok ((a2, f2), h2)
    /\ updateFileByPath c2 nodes q h = Ok ((b1, g1), k1)
    /\ updateFileByPath c1 b1 p k1 = Ok ((b2, g2), k2)
    /\ value_of h2 a2 js
    /\ value_of k2 b2 js.
Proof.
  intros Hr Hne.
  destruct (updateFileByPath_repr c1 h nodes ts p Hr)
    as (a1 & f1 & h1 & ts1 & Hrun1 & _ & Hr1 & He1).
  destruct (updateFileByPath_repr c2 h1 a1 ts1 q Hr1)
    as (a2 & f2 & h2 & ts2 & Hrun2 & _ & Hr2 & He2).
  destruct (updateFileByPath_repr c2 h nodes ts q Hr)
    as (b1 & g1 & k1 & us1 & Hrun3 & _ & Hs1 & Hf1).
  destruct (updateFileByPath_repr c1 k1 b1 us1 p Hs1)
    as (b2 & g2 & k2 & us2 & Hrun4 & _ & Hs2 & Hf2).
  exists a1, f1, h1, a2, f2, h2, b1, g1, k1, b2, g2, k2, (map erase us2).
  split_and!; try done; [|by apply value_of_repr].
  rewrite Hf2, Hf1, update_value_commute, <- He1, <- He2.
  - by apply value_of_repr.
  - intros Heq. by apply Hne, pathParts_inj.
Qed.

Lemma updateFileByPath_commute_witness :
  exists a1 f1 h1 a2 f2 h2 b1 g1 k1 b2 g2 k2 js,
    updateFileByPath "app" initial_files "src/App.tsx" initial_heap = Ok ((a1, f1), h1)
    /\ updateFileByPath "readme" a1 "README.md" h1 = Ok ((a2, f2), h2)
    /\ updateFileByPath "readme" initial_files "README.md" initial_heap
       = Ok ((b1, g1), k1)
    /\ updateFileByPath "app" b1 "src/App.tsx" k1 = Ok ((b2, g2), k2)
    /\ value_of h2 a2 js
    /\ value_of k2 b2 js.
Proof.
  apply (updateFileByPath_commute initial_heap initial_files initial_tree).
  - apply initial_repr.
  - done.
Defined.

(** X6.  An edit in the editor keeps the selection in step with the tree.
    In a tree of the data model with unique and valid names, when the
    selected object is a file of the tree, [handleFileContentChange] puts a
    new tree into [files] and selects in it the new node of the file, which
    is the old node with the new content; the caller's objects are
    untouched, and the new tree is again a tree of the data model with
    unique and valid names and of the same height, so that the next edit
    works in the same way. *)
Theorem handleFileContentChange_keeps_selection st h ts t c fuel :
  repr_list h (files st) ts ->
  well_tagged ts -> unique_names ts -> valid_names ts ->
  heights ts < fuel ->
  t ∈ flat_map subtrees ts ->
  type (node t) = file ->
  selectedFile st = Some (addr t) ->
  exists updatedFiles h' ts' t',
    handleFileContentChange fuel c st h
    = Ok (setSelectedFile (Some (addr t')) (setFiles updatedFiles st), h')
    /\ preserved h h'
    /\ repr_list h' updatedFiles ts'
    /\ well_tagged ts' /\ unique_names ts' /\ valid_names ts'
    /\ heights ts' < fuel
    /\ t' ∈ flat_map subtrees ts'
    /\ node t' = set_content c (node t).
Proof.
  intros Hr Hwt Hu Hv Hfuel Hin Hfile Hsel.
  unfold handleFileContentChange. rewrite Hsel.
  destruct Hr as [Harr Hts].
  destruct (first_some_visit_complete h (addr t) ts
              (proj2 (Forall_forall _ _) (fun x _ => visit_complete h (addr t) x))
              Hts Hwt Hv (ex_intro _ t (conj Hin eq_refl)) empty_string) as [p Hp].
  assert (findPath fuel (files st) (addr t) empty_string h = Ok (Some p, h)) as Hfind.
  { rewrite (findPath_repr fuel h _ ts (addr t) empty_string (conj Harr Hts) Hfuel).
    by rewrite Hp. }
  run_step Hfind.
  destruct (findPath_sound fuel h _ ts (addr t) p (conj Harr Hts) Hv Hfuel Hfind)
    as (names & t0 & -> & Hat & Ha & Hnames).
  pose proof (at_path_nonempty _ _ _ Hat) as Hne.
  rewrite (join_truthy names Hne Hnames).
  unfold updateFileByPath, pathParts. rewrite (split_join names Hne Hnames).
  destruct (recursiveUpdate_spec c names h (files st) ts None (conj Harr Hts))
    as (arr' & f' & h' & ts' & Hrun & Hp' & Hr' & Hupd & _).
  assert (node t0 = node t) as Hnode.
  { pose proof (repr_node h t0 (repr_subtrees h ts t0 Hts (at_path_subtree _ _ _ Hat))).
    pose proof (repr_node h t (repr_subtrees h ts t Hts Hin)). congruence. }
  destruct (updated_on_path _ _ _ _ _ _ Hupd h t0 _ Hts Hu Hat
              ltac:(congruence) eq_refl) as (a' & Hsel' & -> & _).
  run_step Hrun. simpl.
  pose proof (updated_shape _ _ _ _ _ _ Hupd) as Hshape.
  exists arr', h', ts', (TNode a' (set_content c (node t0)) (kids t0)).
  split_and!; try done.
  - by apply (shape_well_tagged ts).
  - by apply (shape_unique_names ts).
  - by apply (shape_valid_names ts).
  - by rewrite (shape_heights ts).
  - by eapply select_tree_subtree.
  - simpl. by rewrite Hnode.
Qed.

Lemma handleFileContentChange_keeps_selection_witness :
  let st := mkAppState (Project.mk "p" "n" "r" ProjectStatus.Active [] "now") "task" []
              initial_files (Some (addr App_tsx_tree)) false false false editor 0 in
  exists updatedFiles h' ts' t',
    handleFileContentChange 3 "edited" st initial_heap
    = Ok (setSelectedFile (Some (addr t')) (setFiles updatedFiles st), h')
    /\ preserved initial_heap h'
    /\ repr_list h' updatedFiles ts'
    /\ well_tagged ts' /\ unique_names ts' /\ valid_names ts'
    /\ heights ts' < 3
    /\ t' ∈ flat_map subtrees ts'
    /\ node t' = set_content "edited" (node App_tsx_tree).
Proof.
  intros st.
  apply (handleFileContentChange_keeps_selection st initial_heap initial_tree
           App_tsx_tree "edited" 3).
  - apply initial_repr.
  - apply initial_well_tagged.
  - apply initial_unique_names.
  - apply initial_valid_names.
  - apply initial_heights.
  - by apply (list_elem_of_lookup_2 _ 2).
  - reflexivity.
  - reflexivity.
Defined.

(** X7.  After [findOrCreateFile] a selection made before is stale: the
    tree returned is made of new objects only, so [findPath] finds no
    object that existed before the call in it, and with the new tree in
    [files] and the old selection [handleFileContentChange] changes
    nothing, whatever the content typed is. *)
Theorem handleFileContentChange_after_findOrCreateFile st h ts path c fuel sel typed :
  repr_list h (files st) ts ->
  well_tagged ts ->
  heights ts < fuel ->
  selectedFile st = Some sel ->
  is_Some (h !! sel) ->
  exists newNodes h',
    findOrCreateFile fuel (files st) path c h = Ok (newNodes, h')
    /\ exists N, forall fuel', N <= fuel' ->
         findPath fuel' newNodes sel empty_string h' = Ok (None, h')
         /\ handleFileContentChange fuel' typed (setFiles newNodes st) h'
            = Ok (setFiles newNodes st, h').
Proof.
  intros Hr Hwt Hfuel Hsel Hold.
  destruct (findOrCreateFile_fresh fuel h (files st) ts path c Hr Hwt Hfuel)
    as (newNodes & h' & ts' & Hrun & _ & Hr' & _ & _ & Hfresh).
  exists newNodes, h'. split; [done|].
  exists (S (heights ts')). intros fuel' Hfuel'.
  assert (findPath fuel' newNodes sel empty_string h' = Ok (None, h')) as Hnone.
  { apply (findPath_absent fuel' h' newNodes ts'); [done | lia |].
    intros t Hin Heq. apply Hfresh in Hin.
    apply lookup_lt_is_Some_1 in Hold. lia. }
  split; [done|].
  unfold handleFileContentChange. simpl. rewrite Hsel. by run_step Hnone.
Qed.

Lemma handleFileContentChange_after_findOrCreateFile_witness :
  let st := mkAppState (Project.mk "p" "n" "r" ProjectStatus.Active [] "now") "task" []
              initial_files (Some (addr App_tsx_tree)) false false false editor 0 in
  exists newNodes h',
    findOrCreateFile 3 initial_files "src/App.tsx" "generated" initial_heap
    = Ok (newNodes, h')
    /\ exists N, forall fuel', N <= fuel' ->
         findPath fuel' newNodes (addr App_tsx_tree) empty_string h' = Ok (None, h')
         /\ handleFileContentChange fuel' "typed" (setFiles newNodes st) h'
            = Ok (setFiles newNodes st, h').
Proof.
  intros st.
  apply (handleFileContentChange_after_findOrCreateFile st initial_heap initial_tree
           "src/App.tsx" "generated" 3 (addr App_tsx_tree) "typed").
  - apply initial_repr.
  - apply initial_well_tagged.
  - apply initial_heights.
  - reflexivity.
  - by eexists.
Defined.

(** X8.  [findPath] tells the objects of a tree apart: in a tree with
    valid names that are unique among siblings, two searches that return
    the same path were searches for the same object. *)
Theorem findPath_injective h nodes ts fuel r1 r2 p :
  repr_list h nodes ts ->
  unique_names ts -> valid_names ts ->
  heights ts < fuel ->
  findPath fuel nodes r1 empty_string h = Ok (Some p, h) ->
  findPath fuel nodes r2 empty_string h = Ok (Some p, h) ->
  r1 = r2.
Proof.
  intros Hr Hu Hv Hfuel H1 H2.
  destruct (findPath_sound fuel h nodes ts r1 p Hr Hv Hfuel H1)
    as (names1 & t1 & Hp1 & Hat1 & <- & Hv1).
  destruct (findPath_sound fuel h nodes ts r2 p Hr Hv Hfuel H2)
    as (names2 & t2 & Hp2 & Hat2 & <- & Hv2).
  assert (names1 = names2) as <-.
  { rewrite <- (split_join names1), <- (split_join names2);
      try done; try by eapply at_path_nonempty.
    congruence. }
  f_equal. by apply (at_path_unique names1 ts).
Qed.

Lemma findPath_injective_witness :
  findPath 3 initial_files 2 empty_string initial_heap
  = Ok (Some "src/App.tsx", initial_heap)
  /\ addr App_tsx_tree = 2.
Proof.
  split; [reflexivity|].
  apply (findPath_injective initial_heap initial_files initial_tree 3
           (addr App_tsx_tree) 2 "src/App.tsx").
  - apply initial_repr.
  - apply initial_unique_names.
  - apply initial_valid_names.
  - apply initial_heights.
  - reflexivity.
  - reflexivity.
Defined.

(** X9.  Slashes that separate nothing are ignored by [findOrCreateFile]
    and by [findAndSelectFile]: a leading slash, a doubled slash and a
    trailing slash change neither the result nor the heap. *)
Theorem redundant_slashes_ignored fuel nodes a b c :
  findOrCreateFile fuel nodes ("/" +:+ a +:+ "//" +:+ b +:+ "/") c
  = findOrCreateFile fuel nodes (a +:+ "/" +:+ b) c
  /\ findAndSelectFile nodes ("/" +:+ a +:+ "//" +:+ b +:+ "/")
     = findAndSelectFile nodes (a +:+ "/" +:+ b).
Proof.
  assert (parts_of ("/" +:+ a +:+ "//" +:+ b +:+ "/") = parts_of (a +:+ "/" +:+ b))
    as Hparts.
  { rewrite parts_of_leading_slash, parts_of_double_slash, !parts_of_app.
    by rewrite parts_of_trailing_slash. }
  unfold findOrCreateFile, findAndSelectFile. by rewrite Hparts.
Qed.

(** X10.  Of two calls of [findOrCreateFile] with the same path the later
    content wins: creating with [c1] and then with [c2] gives a tree of the
    same value as creating with [c2] alone. *)
Theorem findOrCreateFile_later_content_wins h nodes ts path c1 c2 fuel :
  repr_list h nodes ts ->
  well_tagged ts ->
  heights ts < fuel ->
  exists once h1 direct h3 js,
    findOrCreateFile fuel nodes path c1 h = Ok (once, h1)
    /\ findOrCreateFile fuel nodes path c2 h = Ok (direct, h3)
    /\ value_of h3 direct js
    /\ exists N, forall fuel', N <= fuel' ->
         exists twice h2,
           findOrCreateFile fuel' once path c2 h1 = Ok (twice, h2)
           /\ value_of h2 twice js.
Proof.
  intros Hr Hwt Hfuel.
  destruct (findOrCreateFile_spec fuel h nodes ts path c1 Hr Hwt Hfuel)
    as (once & h1 & ts1 & Hrun1 & _ & _ & Hr1 & Hwt1 & He1).
  destruct (findOrCreateFile_spec fuel h nodes ts path c2 Hr Hwt Hfuel)
    as (direct & h3 & ts3 & Hrun3 & _ & _ & Hr3 & _ & He3).
  exists once, h1, direct, h3, (map erase ts3).
  split_and!; [done | done | by apply value_of_repr |].
  exists (S (heights ts1)). intros fuel' Hfuel'.
  destruct (findOrCreateFile_spec fuel' h1 once ts1 path c2 Hr1 Hwt1 ltac:(lia))
    as (twice & h2 & ts2 & Hrun2 & _ & _ & Hr2 & _ & He2).
  exists twice, h2. split; [done|].
  replace (map erase ts3) with (map erase ts2); [by apply value_of_repr|].
  rewrite He2, He1, He3. apply findOrCreate_value_again.
Qed.

Lemma findOrCreateFile_later_content_wins_witness :
  exists once h1 direct h3 js,
    findOrCreateFile 3 initial_files "src/Login.tsx" "draft" initial_heap = Ok (once, h1)
    /\ findOrCreateFile 3 initial_files "src/Login.tsx" "final" initial_heap
       = Ok (direct, h3)
    /\ value_of h3 direct js
    /\ exists N, forall fuel', N <= fuel' ->
         exists twice h2,
           findOrCreateFile fuel' once "src/Login.tsx" "final" h1 = Ok (twice, h2)
           /\ value_of h2 twice js.
Proof.
  apply (findOrCreateFile_later_content_wins initial_heap initial_files initial_tree).
  - apply initial_repr.
  - apply initial_well_tagged.
  - apply initial_heights.
Defined.

(** X11.  On a file that is there the two ways of writing agree: in a tree
    of the data model with unique sibling names, for a path without empty
    segments that leads to a file, [findOrCreateFile] and
    [updateFileByPath] return trees of the same value. *)
Theorem findOrCreateFile_agrees_with_updateFileByPath h nodes ts path c fuel t0 :
  repr_list h nodes ts ->
  well_tagged ts -> unique_names ts ->
  heights ts < fuel ->
  Forall (fun s => truthy s = true) (pathParts path) ->
  lookup_spec (pathParts path) ts = Hit t0 ->
  type (node t0) = file ->
  exists newNodes h1 updatedNodes foundFile h2 js,
    findOrCreateFile fuel nodes path c h = Ok (newNodes, h1)
    /\ updateFileByPath c nodes path h = Ok ((updatedNodes, foundFile), h2)
    /\ value_of h1 newNodes js
    /\ value_of h2 updatedNodes js.
Proof.
  intros Hr Hwt Hu Hfuel Hsegs Hhit Hfile.
  destruct (findOrCreateFile_spec fuel h nodes ts path c Hr Hwt Hfuel)
    as (newNodes & h1 & ts1 & Hrun1 & _ & _ & Hr1 & _ & He1).
  destruct (updateFileByPath_repr c h nodes ts path Hr)
    as (updatedNodes & foundFile & h2 & ts2 & Hrun2 & _ & Hr2 & He2).
  exists newNodes, h1, updatedNodes, foundFile, h2, (map erase ts1).
  split_and!; [done | done | by apply value_of_repr |].
  replace (map erase ts1) with (map erase ts2); [by apply value_of_repr|].
  rewrite He1, He2. unfold parts_of. fold (pathParts path).
  rewrite (filter_truthy_all _ Hsegs).
  pose proof (lookup_spec_at_path _ _ _ Hhit) as Hat.
  unfold findOrCreate_value.
  destruct (pop (pathParts path)) as [[folders f]|] eqn:Hpop.
  - apply pop_Some in Hpop. rewrite Hpop in Hat |- *.
    symmetry. by apply (findOrCreate_spec_is_update f c t0).
  - unfold pop in Hpop. destruct (rev (pathParts path)) eqn:Hrev; [|done].
    apply (f_equal (@rev _)) in Hrev. rewrite rev_involutive in Hrev.
    by destruct (at_path_nonempty _ _ _ Hat).
Qed.

Lemma findOrCreateFile_agrees_with_updateFileByPath_witness :
  exists newNodes h1 updatedNodes foundFile h2 js,
    findOrCreateFile 3 initial_files "src/App.tsx" "new" initial_heap
    = Ok (newNodes, h1)
    /\ updateFileByPath "new" initial_files "src/App.tsx" initial_heap
       = Ok ((updatedNodes, foundFile), h2)
    /\ value_of h1 newNodes js
    /\ value_of h2 updatedNodes js.
Proof.
  apply (findOrCreateFile_agrees_with_updateFileByPath initial_heap initial_files
           initial_tree "src/App.tsx" "new" 3 App_tsx_tree).
  - apply initial_repr.
  - apply initial_well_tagged.
  - apply initial_unique_names.
  - apply initial_heights.
  - by repeat constructor.
  - reflexivity.
  - reflexivity.
Defined.

(** X12.  The ids of the log entries are unique: whatever the services
    answer and whether the handlers return or throw, after
    [handleStartTask] and after [handleCommit] every entry of [logs] has an
    id of its own, below the counter, when that was so before.  The ids
    are the keys of the rendered entries. *)
Theorem log_ids_stay_unique is_space toLowerCase toLocaleTimeString
    JSON_stringify_names message_of generatePlan generateCode generateTests
    generateDocumentation generateSpeech fuel st h r st' h' :
  log_ids_fresh st ->
  handleStartTask is_space toLocaleTimeString JSON_stringify_names message_of
    generatePlan generateCode generateTests generateDocumentation generateSpeech
    fuel st h = Some (r, st', h')
  \/ handleCommit is_space toLowerCase toLocaleTimeString generateSpeech st h
     = Some (r, st', h') ->
  log_ids_fresh st'.
Proof.
  intros Hfresh [Hrun|Hrun].
  - eapply handleStartTask_preserves; [apply log_ids_fresh_stable | exact Hfresh | exact Hrun].
  - eapply handleCommit_preserves; [apply log_ids_fresh_stable | exact Hfresh | exact Hrun].
Qed.


Lemma log_ids_stay_unique_witness :
  exists r st' h',
    handleStartTask ascii_space (fun _ => "12:00:00") (fun _ => "[]") (fun _ => None)
      offline_plan offline_code offline_tests offline_documentation offline_speech
      3 initial_state initial_heap = Some (r, st', h')
    /\ log_ids_fresh st'.
Proof.
  destruct (handleStartTask ascii_space (fun _ => "12:00:00") (fun _ => "[]")
              (fun _ => None) offline_plan offline_code offline_tests
              offline_documentation offline_speech 3 initial_state initial_heap)
    as [[[r st'] h']|] eqn:Hrun.
  - exists r, st', h'. split; [reflexivity|].
    apply (log_ids_stay_unique ascii_space (fun s => s) (fun _ => "12:00:00")
             (fun _ => "[]") (fun _ => None) offline_plan offline_code offline_tests
             offline_documentation offline_speech 3 initial_state initial_heap
             r st' h').
    + split; constructor.
    + left. exact Hrun.
  - vm_compute in Hrun. discriminate.
Defined.


(** X14.  [handleCommit] puts every agent of the project back to [Idle],
    whatever the roles and the statuses are, and changes nothing else of
    the agents; it appends the commit entry and the success entry to the
    log.  When the speech request throws, the two entries are there and no
    agent is reset. *)
Theorem handleCommit_resets_agents is_space toLowerCase toLocaleTimeString
    generateSpeech st h :
  (forall audio,
     generateSpeech "Changes committed." = geminiService.Returned audio ->
     exists st',
       handleCommit is_space toLowerCase toLocaleTimeString generateSpeech st h
       = Some (geminiService.Returned tt, st', h)
       /\ Forall (fun a => Agent.status a = AgentStatus.Idle)
                 (Project.agents (project st'))
       /\ map (fun a => (Agent.id a, Agent.role a, Agent.description a))
              (Project.agents (project st'))
          = map (fun a => (Agent.id a, Agent.role a, Agent.description a))
                (Project.agents (project st))
       /\ map LogEntry.type (logs st')
          = map LogEntry.type (logs st)
            ++ [LogEntryType.Commit; LogEntryType.Success])
  /\ (forall e,
        generateSpeech "Changes committed." = geminiService.Thrown e ->
        exists st',
          handleCommit is_space toLowerCase toLocaleTimeString generateSpeech st h
          = Some (geminiService.Thrown e, st', h)
          /\ project st' = project st
          /\ map LogEntry.type (logs st')
             = map LogEntry.type (logs st)
               ++ [LogEntryType.Commit; LogEntryType.Success]).
Proof.
  split.
  - intros audio Hspeech. unfold handleCommit.
    rewrite !task_bind_set_state, (task_bind_await_call _ _ audio) by done.
    eexists. split; [reflexivity|].
    split_and!; [rewrite foldl_status_agents, foldl_status_map; simpl
                | rewrite foldl_status_agents, foldl_status_map; simpl |].
    + rewrite list.Forall_fmap. apply list.Forall_forall. intros a Ha. simpl.
      by apply (settle_all _ _ a a).
    + rewrite map_map. apply map_ext. intros a.
      assert (forall todo b,
                (Agent.id (foldl (fun a b => set_status (Agent.role b) AgentStatus.Idle a)
                             b todo),
                 Agent.description
                   (foldl (fun a b => set_status (Agent.role b) AgentStatus.Idle a)
                      b todo))
                = (Agent.id b, Agent.description b)) as Hsame.
      { induction todo as [|x todo IH]; intros b; [done|]. simpl. rewrite IH.
        unfold set_status. by destruct (decide _). }
      specialize (Hsame (Project.agents (project st)) a).
      injection Hsame as -> ->. by rewrite settle_role.
    + rewrite foldl_status_logs. simpl. by rewrite !map_app, <- app_assoc.
  - intros e Hspeech. unfold handleCommit.
    rewrite !task_bind_set_state. unfold task_bind, await_call. rewrite Hspeech.
    eexists. split; [reflexivity|]. simpl. split; [by destruct (project st)|].
    by rewrite !map_app, <- app_assoc.
Qed.

Lemma handleCommit_resets_agents_witness :
  exists st',
    handleCommit ascii_space (fun s => s) (fun _ => "12:00:00") offline_speech
      initial_state initial_heap
    = Some (geminiService.Returned tt, st', initial_heap)
    /\ Forall (fun a => Agent.status a = AgentStatus.Idle) (Project.agents (project st')).
Proof.
  destruct (proj1 (handleCommit_resets_agents ascii_space (fun s => s)
                     (fun _ => "12:00:00") offline_speech initial_state initial_heap)
              None eq_refl) as (st' & Hrun & Hidle & _).
  by exists st'.
Defined.

(** X15.  The branch named in the log of [handleCommit] has at most twenty
    code units after [feature/] and no white space, whatever the task is:
    the runs of white space left by [trim] are replaced by hyphens before
    the name is cut. *)
Theorem branch_name_short_without_spaces is_space toLowerCase task_arg :
  is_space "-"%char = false ->
  String.length (branch_name is_space toLowerCase task_arg) <= 20
  /\ has_space is_space (branch_name is_space toLowerCase task_arg) = false.
Proof.
  intros Hh. unfold branch_name. split.
  - apply slice0_length.
  - apply slice0_no_space. by apply replace_runs_no_space.
Qed.

Lemma branch_name_short_without_spaces_witness :
  String.length (branch_name ascii_space (fun s => s) first_task) <= 20
  /\ has_space ascii_space (branch_name ascii_space (fun s => s) first_task) = false.
Proof.
  apply (branch_name_short_without_spaces ascii_space (fun s => s) first_task).
  reflexivity.
Defined.



(** X17.  When the path the coder returns runs into a folder without
    [children], the run fails in the middle: the [TypeError] of
    [findOrCreateFile] is caught, the log ends with the entry of the
    failure, the flag is cleared, and the tree, the selection and the tab
    are as they were; the planner is left [Done] and the coder is left
    [Coding], no handler but [handleCommit] resets them. *)
Theorem handleStartTask_fails_on_childless_folder is_space toLocaleTimeString
    JSON_stringify_names message_of generatePlan generateCode generateTests
    generateDocumentation generateSpeech st h ts fuel plan filePath code folders f
    audio :
  truthy (trim is_space (task st)) = true ->
  isRunning st = false ->
  repr_list h (files st) ts ->
  heights ts < fuel ->
  generatePlan (task st) = geminiService.Returned plan ->
  generateCode (first_subtask plan (task st)) (JSON_stringify_names (map tname ts))
  = geminiService.Returned (filePath, code) ->
  parts_of filePath = folders ++ [f] ->
  childless_on_path folders (map erase ts) ->
  generateSpeech "An error occurred. Please review the logs."
  = geminiService.Returned audio ->
  exists st',
    handleStartTask is_space toLocaleTimeString JSON_stringify_names message_of
      generatePlan generateCode generateTests generateDocumentation generateSpeech
      fuel st h = Some (geminiService.Returned tt, st', h)
    /\ isRunning st' = false
    /\ files st' = files st
    /\ selectedFile st' = selectedFile st
    /\ activeTab st' = activeTab st
    /\ map LogEntry.type (logs st')
       = [ LogEntryType.UserAction; LogEntryType.AgentMessage; LogEntryType.Info;
           LogEntryType.AgentMessage; LogEntryType.Error ]
    /\ (exists entries e,
          logs st' = entries ++ [e]
          /\ LogEntry.message e
             = "Workflow failed: " +:+
               default "An unknown error occurred."
                       (message_of geminiService.TypeError))
    /\ Project.agents (project st') = map stuck_coding (Project.agents (project st)).
Proof.
  intros Htrim Hidle Hr Hfuel Hp Hc Hparts Hchildless Ha.
  pose proof (root_names_repr h _ ts Hr) as Hnames.
  pose proof (findOrCreateFile_TypeError h (files st) ts filePath code fuel folders f
                Hr Hfuel Hparts Hchildless) as Hthrow.
  unfold handleStartTask. rewrite Htrim, Hidle.
  change (negb true || false) with false. cbv iota.
  rewrite !task_bind_set_state.
  eexists. split.
  { eapply try_catch_finally_caught.
    - repeat run_task. by apply task_bind_tree_op_TypeError.
    - repeat run_task. reflexivity. }
  simpl. split_and!; try done.
  - eexists [_; _; _; _], _. split; reflexivity.
  - apply stuck_coding_agents.
Qed.

Lemma handleStartTask_fails_on_childless_folder_witness :
  let st := mkAppState first_project first_task [] bare_files None false false false
              explorer 0 in
  exists st',
    handleStartTask ascii_space (fun _ => "12:00:00") (fun _ => "[]") (fun _ => None)
      offline_plan (fun _ _ => geminiService.Returned ("lib/util.ts", "// util"))
      offline_tests offline_documentation offline_speech 2 st bare_heap
    = Some (geminiService.Returned tt, st', bare_heap)
    /\ isRunning st' = false
    /\ files st' = bare_files
    /\ map LogEntry.type (logs st')
       = [ LogEntryType.UserAction; LogEntryType.AgentMessage; LogEntryType.Info;
           LogEntryType.AgentMessage; LogEntryType.Error ]
    /\ Project.agents (project st') = map stuck_coding (Project.agents first_project).
Proof.
  intros st.
  destruct (handleStartTask_fails_on_childless_folder ascii_space
              (fun _ => "12:00:00") (fun _ => "[]") (fun _ => None) offline_plan
              (fun _ _ => geminiService.Returned ("lib/util.ts", "// util"))
              offline_tests offline_documentation offline_speech st bare_heap
              bare_tree 2
              [ "Analyze requirements"; "Implement feature"; "Write tests";
                "Update documentation" ]
              "lib/util.ts" "// util" ["lib"] "util.ts" None)
    as (st' & Hrun & Hflag & Hfiles & _ & _ & Hlogs & _ & Hagents);
    try reflexivity.
  - split; [reflexivity|]. repeat constructor.
  - vm_compute. lia.
  - by exists st'.
Defined.

(** X18.  The three other calls of the service never throw either.  When
    the request is rejected, [generateChatResponse] returns its apology
    without search results, [generateSpeech] returns [null], and
    [simulateLogin] returns the failed login of the unreachable server,
    which it also returns when the text of the response is not JSON;
    [generateSpeech] returns audio only when it is a non-empty string. *)
Theorem chat_speech_login_fall_back
    (send : geminiService.Request -> geminiService.reply)
    (JSON_parse : string -> option geminiService.JsonValue) :
  (forall prompt useSearch,
     (exists v, geminiService.generateChatResponse send prompt useSearch
                = geminiService.Returned v)
     /\ (send (geminiService.mkRequest "gemini-2.5-flash" prompt
                 (if useSearch then geminiService.GoogleSearch
                  else geminiService.NoConfig))
         = geminiService.Rejected ->
         geminiService.generateChatResponse send prompt useSearch
         = geminiService.Returned geminiService.chat_error))
  /\ (forall text,
        (exists v, geminiService.generateSpeech send text = geminiService.Returned v)
        /\ (send (geminiService.mkRequest "gemini-2.5-flash-preview-tts" text
                    geminiService.AudioKore)
            = geminiService.Rejected ->
            geminiService.generateSpeech send text = geminiService.Returned None)
        /\ (forall d,
              geminiService.generateSpeech send text = geminiService.Returned (Some d) ->
              truthy d = true))
  /\ (forall email password,
        (exists v, geminiService.simulateLogin send JSON_parse email password
                   = geminiService.Returned v)
        /\ (match send (geminiService.mkRequest "gemini-2.5-flash"
                          (geminiService.login_prompt email password)
                          geminiService.LoginSchema) with
            | geminiService.Rejected => True
            | geminiService.Replied response =>
                match geminiService.text response with
                | Some s => JSON_parse s = None
                | None => True
                end
            end ->
            geminiService.simulateLogin send JSON_parse email password
            = geminiService.Returned geminiService.login_unreachable)).
Proof.
  split_and!.
  - intros prompt useSearch. unfold geminiService.generateChatResponse.
    destruct (send _) as [|response]; simpl; split; eauto; done.
  - intros text. unfold geminiService.generateSpeech.
    destruct (send _) as [|response]; simpl.
    + split_and!; eauto; done.
    + destruct (geminiService.opt _ geminiService.data) as [d|]; simpl.
      * destruct (truthy d) eqn:Hd; simpl; split_and!; eauto; try done.
        intros d' [= <-]. done.
      * split_and!; eauto; done.
  - intros email password. unfold geminiService.simulateLogin.
    destruct (send _) as [|response]; simpl; [split; eauto|].
    unfold geminiService.parse_text.
    destruct (geminiService.text response) as [s|]; simpl; [|split; eauto].
    destruct (JSON_parse s) as [v|] eqn:Hs; simpl; split; eauto; done.
Qed.

Lemma chat_speech_login_fall_back_witness :
  geminiService.simulateLogin (fun _ => geminiService.Rejected) (fun _ => None)
    "you@example.com" "secret123"
  = geminiService.Returned geminiService.login_unreachable.
Proof.
  apply (chat_speech_login_fall_back (fun _ => geminiService.Rejected) (fun _ => None)).
  exact I.
Defined.

(** X19.  [extractJson] reads the fenced block: for a text with a block
    between the fences of [json], where neither the text before the block
    nor the block holds a backquote and the block is not empty, the result
    is what [JSON.parse] gives for the block alone, whatever comes before
    and after, and a block that is not JSON ends in the [SyntaxError] of
    [JSON.parse]; for a text without any backquote the whole text is
    parsed, and a text that is not JSON ends in the error of
    [extractJson]. *)
Theorem extractJson_reads_fenced_block
    (JSON_parse : string -> option geminiService.JsonValue) :
  (forall before block after,
     no_backquote before = true -> no_backquote block = true ->
     truthy block = true ->
     geminiService.extractJson JSON_parse
       (before +:+ geminiService.fence_open +:+ block +:+
        geminiService.fence_close +:+ after)
     = match JSON_parse block with
       | Some v => geminiService.Parsed v
       | None => geminiService.ParseError
       end)
  /\ (forall text,
        no_backquote text = true ->
        geminiService.extractJson JSON_parse text
        = match JSON_parse text with
          | Some v => geminiService.Parsed v
          | None => geminiService.InvalidResponse
          end).
Proof.
  split.
  - intros before block after Hbefore Hblock Hne.
    unfold geminiService.extractJson, geminiService.match_fence.
    rewrite (find_open_skip before _ Hbefore), find_sub_here.
    by rewrite (find_close_first block after Hblock), Hne.
  - intros text Htext.
    unfold geminiService.extractJson, geminiService.match_fence.
    by rewrite (find_open_none text Htext).
Qed.

Lemma extractJson_reads_fenced_block_witness :
  geminiService.extractJson (fun _ => Some (geminiService.JObject []))
    ("Here is the plan: " +:+ geminiService.fence_open +:+ "{}" +:+
     geminiService.fence_close +:+ " Done.")
  = geminiService.Parsed (geminiService.JObject []).
Proof.
  apply (proj1 (extractJson_reads_fenced_block
                  (fun _ => Some (geminiService.JObject [])))
           "Here is the plan: " "{}" " Done."); reflexivity.
Defined.

(** X20.  [findOrCreateFile] leaves the other files readable: when the
    lookup of the specification resolves a path to a file, and another path
    is written, [findAndSelectFile] on the tree returned finds for the first
    path a file of the same name with the same content. *)
Theorem findOrCreateFile_keeps_other_files h nodes ts p q c fuel t0 :
  repr_list h nodes ts ->
  well_tagged ts ->
  heights ts < fuel ->
  lookup_spec (parts_of q) ts = Hit t0 ->
  type (node t0) = file ->
  parts_of q <> parts_of p ->
  exists newNodes h' r n,
    findOrCreateFile fuel nodes p c h = Ok (newNodes, h')
    /\ findAndSelectFile newNodes q h' = Ok (Some r, h')
    /\ h' !! r = Some (ONode n)
    /\ name n = name (node t0) /\ type n = file /\ content n = content (node t0).
Proof.
  intros Hr Hwt Hfuel Hhit Hfile Hne.
  destruct (findOrCreateFile_spec fuel h nodes ts p c Hr Hwt Hfuel)
    as (newNodes & h' & ts' & Hrun & _ & _ & Hr' & Hwt' & He).
  pose proof (lookup_spec_json h (parts_of q) ts (proj2 Hr)) as Hl.
  rewrite Hhit in Hl.
  assert (exists j', lookup_json (parts_of q) (map erase ts') = Some j'
                     /\ is_file_with (name (node t0)) (content (node t0)) j')
    as (j' & Hl' & Hj').
  { rewrite He. unfold findOrCreate_value.
    destruct (pop (parts_of p)) as [[folders f]|] eqn:Hpop.
    - apply pop_Some in Hpop. rewrite Hpop in Hne.
      destruct (lookup_json_findOrCreate_other f c (parts_of q) folders _ _ Hl)
        as (j' & Hl' & Hj'); [by rewrite jtype_erase | done |].
      rewrite jname_erase, jcontent_erase in Hj'. by exists j'.
    - exists (erase t0). split; [done|].
      unfold is_file_with. by rewrite jname_erase, jtype_erase, jcontent_erase. }
  destruct (lookup_json_file_found h' _ ts' j' _ _ (proj2 Hr') Hwt' Hl' Hj')
    as (t' & Hsel & Hn & Hty & Hc).
  exists newNodes, h', (addr t'), (node t'). split_and!; try done.
  - rewrite (findAndSelectFile_repr h' newNodes ts' q Hr'). by rewrite Hsel.
  - apply repr_node. by eapply select_tree_repr; [apply Hr'|].
Qed.

Lemma findOrCreateFile_keeps_other_files_witness :
  exists newNodes h' r n,
    findOrCreateFile 3 initial_files "src/components/Login.tsx" "// code" initial_heap
    = Ok (newNodes, h')
    /\ findAndSelectFile newNodes "src/App.tsx" h' = Ok (Some r, h')
    /\ h' !! r = Some (ONode n)
    /\ name n = "App.tsx" /\ type n = file /\ content n = Some App_tsx_content.
Proof.
  apply (findOrCreateFile_keeps_other_files initial_heap initial_files initial_tree
           "src/components/Login.tsx" "src/App.tsx" "// code" 3 App_tsx_tree).
  - apply initial_repr.
  - apply initial_well_tagged.
  - apply initial_heights.
  - reflexivity.
  - reflexivity.
  - done.
Defined.

(** X21.  [updateFileByPath] leaves the other files as they are: when the
    lookup of the specification resolves a path to a file, and another path
    is updated, [findAndSelectFile] on the tree returned finds for the
    first path a file of the same name with the same content. *)
Theorem updateFileByPath_keeps_other_files h nodes ts p q c t0 :
  repr_list h nodes ts ->
  well_tagged ts ->
  lookup_spec (parts_of q) ts = Hit t0 ->
  type (node t0) = file ->
  parts_of q <> pathParts p ->
  exists updatedNodes foundFile h' r n,
    updateFileByPath c nodes p h = Ok ((updatedNodes, foundFile), h')
    /\ findAndSelectFile updatedNodes q h' = Ok (Some r, h')
    /\ h' !! r = Some (ONode n)
    /\ name n = name (node t0) /\ type n = file /\ content n = content (node t0).
Proof.
  intros Hr Hwt Hhit Hfile Hne.
  destruct (recursiveUpdate_spec c (pathParts p) h nodes ts None Hr)
    as (arr' & f' & h' & ts' & Hrun & _ & Hr' & Hupd & _).
  pose proof (shape_well_tagged ts ts' (updated_shape _ _ _ _ _ _ Hupd) Hwt) as Hwt'.
  pose proof (updated_value _ _ _ _ _ _ Hupd) as He.
  pose proof (lookup_spec_json h (parts_of q) ts (proj2 Hr)) as Hl.
  rewrite Hhit in Hl.
  destruct (lookup_json_update_other c (parts_of q) (pathParts p) _ _ Hl)
    as (j' & Hl' & Hj'); [by rewrite jtype_erase | done |].
  rewrite jname_erase, jcontent_erase, <- He in *.
  destruct (lookup_json_file_found h' _ ts' j' _ _ (proj2 Hr') Hwt' Hl' Hj')
    as (t' & Hsel & Hn & Hty & Hc).
  exists arr', f', h', (addr t'), (node t'). split_and!; try done.
  - rewrite (findAndSelectFile_repr h' arr' ts' q Hr'). by rewrite Hsel.
  - apply repr_node. by eapply select_tree_repr; [apply Hr'|].
Qed.

Lemma updateFileByPath_keeps_other_files_witness :
  exists updatedNodes foundFile h' r n,
    updateFileByPath "edited" initial_files "src/App.tsx" initial_heap
    = Ok ((updatedNodes, foundFile), h')
    /\ findAndSelectFile updatedNodes "README.md" h' = Ok (Some r, h')
    /\ h' !! r = Some (ONode n)
    /\ name n = "README.md" /\ type n = file /\ content n = Some README_content.
Proof.
  apply (updateFileByPath_keeps_other_files initial_heap initial_files initial_tree
           "src/App.tsx" "README.md" "edited"
           (TNode 7 (mkFileNode "README.md" file (Some README_content) None) [])).
  - apply initial_repr.
  - apply initial_well_tagged.
  - reflexivity.
  - reflexivity.
  - done.
Defined.

(** X22.  The selection is always a file: when the selected object, if
    there is one, is a node of type [file], it still is after
    [handleFileSelect], which ignores a click on a folder, and after
    [handleFileContentChange], which selects the updated file or keeps the
    selection. *)
Theorem selection_is_a_file :
  (forall f st h st' h',
     handleFileSelect f st h = Ok (st', h') ->
     selected_file h st -> selected_file h' st')
  /\ (forall fuel c st h ts st' h',
        repr_list h (files st) ts ->
        heights ts < fuel ->
        handleFileContentChange fuel c st h = Ok (st', h') ->
        selected_file h st -> selected_file h' st').
Proof.
  split.
  - intros f st h st' h' Hrun Hsel. unfold handleFileSelect in Hrun.
    apply bind_inv in Hrun as (n & h1 & Hread & Hrun).
    apply read_node_inv in Hread as [-> Hn].
    destruct (is_file n) eqn:Hfile; injection Hrun as <- <-; [|done].
    unfold selected_file. simpl. exists n. split; [done|].
    by apply bool_decide_eq_true_1 in Hfile.
  - intros fuel c st h ts st' h' Hr Hfuel Hrun Hsel.
    unfold handleFileContentChange in Hrun.
    destruct (selectedFile st) as [sel|] eqn:Hs; [|by injection Hrun as <- <-].
    rewrite (bind_Ok _ _ _ _ _ (findPath_repr fuel h _ ts sel empty_string Hr Hfuel))
      in Hrun.
    destruct (first_some (visit sel empty_string) ts) as [p|];
      [|by injection Hrun as <- <-].
    destruct (truthy p); [|by injection Hrun as <- <-].
    unfold updateFileByPath in Hrun.
    destruct (recursiveUpdate_spec c (pathParts p) h (files st) ts None Hr)
      as (arr' & f' & h1 & ts' & Hupd & Hp & Hr' & Hu & _).
    rewrite (bind_Ok _ _ _ _ _ Hupd) in Hrun.
    destruct (updated_found _ _ _ _ _ _ Hu) as [->|(t' & Hin & -> & Hfile)].
    + injection Hrun as <- <-. unfold selected_file in *. simpl. rewrite Hs in *.
      destruct Hsel as (n & Hn & Hty). exists n. split; [by apply Hp | done].
    + injection Hrun as <- <-. unfold selected_file. simpl.
      exists (node t'). split; [|done].
      apply repr_node. apply (repr_subtrees h1 ts'); [apply Hr' | done].
Qed.

Lemma selection_is_a_file_witness :
  selected_file initial_heap
    (setActiveTab editor (setSelectedFile (Some 2) initial_state)).
Proof.
  apply (proj1 selection_is_a_file 2 initial_state initial_heap).
  - reflexivity.
  - exact I.
Defined.







(** X26.  [updateFileByPath] changes contents only: for every tree and
    every path the tree returned has the shape of the caller's tree, node
    by node the same names, the same types and [children] where there were
    [children]; so it is a tree of the data model, with unique and with
    valid names, whenever the caller's tree is. *)
Theorem updateFileByPath_keeps_shape h nodes ts path c :
  repr_list h nodes ts ->
  exists updatedNodes foundFile h' ts',
    updateFileByPath c nodes path h = Ok ((updatedNodes, foundFile), h')
    /\ repr_list h' updatedNodes ts'
    /\ Forall2 shape ts ts'
    /\ heights ts' = heights ts
    /\ (well_tagged ts -> well_tagged ts')
    /\ (unique_names ts -> unique_names ts')
    /\ (valid_names ts -> valid_names ts').
Proof.
  intros Hr.
  destruct (recursiveUpdate_spec c (pathParts path) h nodes ts None Hr)
    as (arr' & f' & h' & ts' & Hrun & _ & Hr' & Hupd & _).
  pose proof (updated_shape _ _ _ _ _ _ Hupd) as Hshape.
  exists arr', f', h', ts'. split_and!; try done.
  - by apply shape_heights.
  - by apply shape_well_tagged.
  - by apply shape_unique_names.
  - by apply shape_valid_names.
Qed.

Lemma updateFileByPath_keeps_shape_witness :
  exists updatedNodes foundFile h' ts',
    updateFileByPath "edited" initial_files "src/App.tsx" initial_heap
    = Ok ((updatedNodes, foundFile), h')
    /\ repr_list h' updatedNodes ts'
    /\ Forall2 shape initial_tree ts'
    /\ heights ts' = heights initial_tree
    /\ (well_tagged initial_tree -> well_tagged ts')
    /\ (unique_names initial_tree -> unique_names ts')
    /\ (valid_names initial_tree -> valid_names ts').
Proof.
  apply (updateFileByPath_keeps_shape initial_heap initial_files initial_tree).
  apply initial_repr.
Defined.

(** X27.  [findOrCreateFile] keeps the data model of the tree.  The tree it
    returns is again a tagged union (files have a content and no children,
    folders have children), and when every name of the old tree is a
    non-empty string without a slash, so is every name of the new tree: the
    names it adds are segments of the path.  Sibling names stay unique when,
    along its walk, the nodes named like a folder segment are folders and
    the nodes named like the file name are files. *)
Theorem findOrCreateFile_keeps_data_model h nodes ts path c fuel :
  repr_list h nodes ts ->
  well_tagged ts ->
  heights ts < fuel ->
  exists newNodes h' ts',
    findOrCreateFile fuel nodes path c h = Ok (newNodes, h')
    /\ repr_list h' newNodes ts'
    /\ well_tagged ts'
    /\ (valid_names ts -> valid_names ts')
    /\ (unique_names ts -> kinds_fit (parts_of path) (map erase ts) -> unique_names ts').
Proof.
  intros Hr Hwt Hfuel.
  destruct (findOrCreateFile_spec fuel h nodes ts path c Hr Hwt Hfuel)
    as (newNodes & h' & ts' & Hrun & _ & _ & Hr' & Hwt' & He).
  exists newNodes, h', ts'. split_and!; try done.
  - intros Hv. apply (valid_names_erase h'); [by destruct Hr'|].
    rewrite He. apply jvalid_findOrCreate_value. by apply jvalid_erase_list.
  - intros Hu Hk. apply (unique_names_erase h'); [by destruct Hr'|].
    rewrite He. apply junique_findOrCreate_value; [done|]. by apply junique_erase_list.
Qed.

Lemma findOrCreateFile_keeps_data_model_witness :
  exists newNodes h' ts',
    findOrCreateFile 3 initial_files "src/components/Login.tsx" "// code" initial_heap
    = Ok (newNodes, h')
    /\ repr_list h' newNodes ts'
    /\ well_tagged ts'
    /\ valid_names ts'
    /\ unique_names ts'.
Proof.
  destruct (findOrCreateFile_keeps_data_model initial_heap initial_files initial_tree
              "src/components/Login.tsx" "// code" 3)
    as (newNodes & h' & ts' & Hrun & Hr & Hwt & Hv & Hu).
  - apply initial_repr.
  - apply initial_well_tagged.
  - apply initial_heights.
  - exists newNodes, h', ts'. split_and!; try done.
    + apply Hv. apply initial_valid_names.
    + apply Hu; [apply initial_unique_names|].
      vm_compute. repeat split; repeat constructor; intros; congruence.
Defined.
